(** * Auto-zoom pipeline of the screen recorder: cursor capture,
      region synthesis, focus interpolation and playback smoothing.

    JavaScript [number] values are modelled as exact rationals ([Q]):
    comparisons, sums, products and quotients are those of the field,
    rounding and overflow of IEEE doubles are left out.  Equality of
    computed numbers is therefore [Qeq] ([==]). *)

From Stdlib Require Import QArith Qround Qabs Lqa Lia ZArith List Bool String DecimalString.
From Stdlib Require Import Sorting.Permutation Sorting.Sorted.
From Stdlib Require DecimalZ Finite.
Import ListNotations.
Open Scope Q_scope.

(** ** Numeric primitives of the host language *)

Module Js.

(** [a < b] as a boolean. *)
Definition ltb (a b : Q) : bool := if Qlt_le_dec a b then true else false.
(** [a <= b] as a boolean. *)
Definition leb (a b : Q) : bool := if Qlt_le_dec b a then false else true.
(** [a >= b], [a > b]. *)
Definition geb (a b : Q) : bool := leb b a.
Definition gtb (a b : Q) : bool := ltb b a.

(** [Math.min] and [Math.max]. *)
Definition min (a b : Q) : Q := if Qlt_le_dec b a then b else a.
Definition max (a b : Q) : Q := if Qlt_le_dec a b then b else a.

(** [Math.abs]. *)
Definition abs (a : Q) : Q := if Qlt_le_dec a 0 then - a else a.

(** [Math.round]: nearest integer, halves rounded up. *)
Definition round (a : Q) : Q := inject_Z (Qfloor (a + (1#2))).

(** [Math.sqrt(s) >= d], decided without leaving the rationals: a square
    root is never negative, so the test holds when [d <= 0], and otherwise
    it is the comparison of [s] with [d * d].  The program compares the
    rounded double-precision root, so the two tests can differ when the
    root is within rounding error of [d]; statements that depend on the
    outcome of the test keep a margin from the threshold ([wellWithin]). *)
Definition sqrt_geb (s d : Q) : bool := leb d 0 || leb (d * d) s.

End Js.

(** ** Cursor event capture (MouseTracker) *)

Record DisplayBounds := mkBounds {
  bx : Q; by_ : Q; width : Q; height : Q
}.

Record Normalized := mkNormalized {
  normX : Q; normY : Q
}.

(** [normalizeCoordinates]: the tracker's [displayBounds] field is passed
    explicitly; [None] is the state before [start] and after [stop]. *)
Definition normalizeCoordinates (displayBounds : option DisplayBounds) (x y : Q)
  : Normalized :=
  match displayBounds with
  | None => mkNormalized (1#2) (1#2)
  | Some b =>
      let clampedX := Js.max (bx b) (Js.min x (bx b + width b)) in
      let clampedY := Js.max (by_ b) (Js.min y (by_ b + height b)) in
      mkNormalized ((clampedX - bx b) / width b) ((clampedY - by_ b) / height b)
  end.

(** ** Shared types (types.ts) *)

Inductive ZoomDepth := Depth1 | Depth2 | Depth3 | Depth4 | Depth5 | Depth6.

Record ZoomFocus := mkFocus { cx : Q; cy : Q }.

Record ZoomFocusKeyframe := mkKeyframe {
  timeOffsetMs : Q;
  kfFocus : ZoomFocus          (* the keyframe's [focus] field *)
}.

Record ZoomRegion := mkRegion {
  id : string;
  startMs : Q;
  endMs : Q;
  depth : ZoomDepth;
  focus : ZoomFocus;
  focusKeyframes : option (list ZoomFocusKeyframe)   (* [undefined] is [None] *)
}.

Definition ZOOM_DEPTH_SCALES (d : ZoomDepth) : Q :=
  match d with
  | Depth1 => 5#4 | Depth2 => 3#2 | Depth3 => 9#5
  | Depth4 => 11#5 | Depth5 => 7#2 | Depth6 => 5
  end.

(** ** Cursor events and the auto-zoom synthesizer (cursorUtils) *)

Inductive EventType := Move | Click | Scroll.

Record CursorEvent := mkEvent {
  type : EventType;
  timestamp : Q;
  x : Q;
  y : Q;
  normalizedX : Q;
  normalizedY : Q;
  button : option Z;
  scrollDelta : option Q
}.

Record AutoZoomConfig := mkConfig {
  zoomDepth : ZoomDepth;
  zoomDurationMs : Q;
  minIntervalMs : Q;
  keyframeSampleIntervalMs : Q;
  keyframeMinDistance : Q
}.

(** [Partial<AutoZoomConfig>]: every field may be left out. *)
Record PartialAutoZoomConfig := mkPartial {
  p_zoomDepth : option ZoomDepth;
  p_zoomDurationMs : option Q;
  p_minIntervalMs : option Q;
  p_keyframeSampleIntervalMs : option Q;
  p_keyframeMinDistance : option Q
}.

Definition DEFAULT_AUTO_ZOOM_CONFIG : AutoZoomConfig :=
  mkConfig Depth3 2000 500 50 (1#100).

Definition emptyPartial : PartialAutoZoomConfig :=
  mkPartial None None None None None.

Definition orDefault {A} (o : option A) (d : A) : A :=
  match o with Some a => a | None => d end.

(** [{ ...DEFAULT_AUTO_ZOOM_CONFIG, ...config }]. *)
Definition mergeConfig (config : PartialAutoZoomConfig) : AutoZoomConfig :=
  let d := DEFAULT_AUTO_ZOOM_CONFIG in
  mkConfig (orDefault (p_zoomDepth config) (zoomDepth d))
           (orDefault (p_zoomDurationMs config) (zoomDurationMs d))
           (orDefault (p_minIntervalMs config) (minIntervalMs d))
           (orDefault (p_keyframeSampleIntervalMs config) (keyframeSampleIntervalMs d))
           (orDefault (p_keyframeMinDistance config) (keyframeMinDistance d)).

Definition isMoveEvent (e : CursorEvent) : bool :=
  match type e with Move => true | _ => false end.

Definition isClickEvent (e : CursorEvent) : bool :=
  match type e with Click => true | _ => false end.

(** [{ cx: max(0, min(1, normalizedX)), cy: max(0, min(1, normalizedY)) }]. *)
Definition clampedFocus (e : CursorEvent) : ZoomFocus :=
  mkFocus (Js.max 0 (Js.min 1 (normalizedX e)))
          (Js.max 0 (Js.min 1 (normalizedY e))).

(** The argument of [Math.sqrt] in the distance between two foci. *)
Definition distanceSq (a b : ZoomFocus) : Q :=
  (cx a - cx b) * (cx a - cx b) + (cy a - cy b) * (cy a - cy b).

(** [e.type === 'move' && e.timestamp >= zoomStartMs && e.timestamp <= zoomEndMs]. *)
Definition moveDuringZoom (zoomStartMs zoomEndMs : Q) (e : CursorEvent) : bool :=
  isMoveEvent e && Js.geb (timestamp e) zoomStartMs && Js.leb (timestamp e) zoomEndMs.

(** The sampling loop of [generateFocusKeyframes]; the state is the
    keyframe array, [lastKeyframeFocus] and [lastSampleTime]. *)
Fixpoint sampleMoves (config : AutoZoomConfig) (zoomStartMs : Q)
    (moves : list CursorEvent) (keyframes : list ZoomFocusKeyframe)
    (lastKeyframeFocus : ZoomFocus) (lastSampleTime : Q)
  : list ZoomFocusKeyframe :=
  match moves with
  | [] => keyframes
  | moveEvent :: rest =>
      if Js.ltb (timestamp moveEvent - lastSampleTime) (keyframeSampleIntervalMs config)
      then sampleMoves config zoomStartMs rest keyframes lastKeyframeFocus lastSampleTime
      else
        let newFocus := clampedFocus moveEvent in
        if Js.sqrt_geb (distanceSq newFocus lastKeyframeFocus) (keyframeMinDistance config)
        then sampleMoves config zoomStartMs rest
               (keyframes ++ [mkKeyframe (timestamp moveEvent - zoomStartMs) newFocus])
               newFocus (timestamp moveEvent)
        else sampleMoves config zoomStartMs rest keyframes lastKeyframeFocus lastSampleTime
  end.

(** The trailing keyframe: added when the last move is more than 50 ms
    after the last keyframe and at least half the minimum distance away. *)
Definition addFinalPosition (config : AutoZoomConfig) (zoomStartMs : Q)
    (movesDuringZoom : list CursorEvent) (keyframes : list ZoomFocusKeyframe)
  : list ZoomFocusKeyframe :=
  match rev movesDuringZoom, rev keyframes with
  | lastMove :: _, lastKeyframe :: _ =>
      if Js.gtb (timestamp lastMove - zoomStartMs - timeOffsetMs lastKeyframe) 50
      then
        let finalFocus := clampedFocus lastMove in
        if Js.sqrt_geb (distanceSq finalFocus (kfFocus lastKeyframe))
                       (keyframeMinDistance config * (1#2))
        then keyframes ++ [mkKeyframe (timestamp lastMove - zoomStartMs) finalFocus]
        else keyframes
      else keyframes
  | _, _ => keyframes
  end.

Definition generateFocusKeyframes (cursorEvents : list CursorEvent)
    (zoomStartMs zoomEndMs : Q) (initialFocus : ZoomFocus) (config : AutoZoomConfig)
  : list ZoomFocusKeyframe :=
  let keyframes := [mkKeyframe 0 initialFocus] in
  let movesDuringZoom := filter (moveDuringZoom zoomStartMs zoomEndMs) cursorEvents in
  match movesDuringZoom with
  | [] => keyframes
  | _ =>
      addFinalPosition config zoomStartMs movesDuringZoom
        (sampleMoves config zoomStartMs movesDuringZoom keyframes initialFocus zoomStartMs)
  end.

(** [e.type === 'click' && (e.button === 1 || e.button === undefined)]. *)
Definition isPrimaryClick (e : CursorEvent) : bool :=
  isClickEvent e && match button e with Some b => Z.eqb b 1 | None => true end.

Definition autoZoomId (n : Z) : string :=
  ("auto-zoom-" ++ DecimalString.NilEmpty.string_of_int (Z.to_int n))%string.

(** The region built for an accepted click, with the value of
    [idCounter] after its increment. *)
Definition regionOfClick (cfg : AutoZoomConfig) (cursorEvents : list CursorEvent)
    (clickEvent : CursorEvent) (endMs : Q) (idCounter : Z) : ZoomRegion :=
  let startMs := timestamp clickEvent in
  let initialFocus := clampedFocus clickEvent in
  let focusKeyframes :=
    generateFocusKeyframes cursorEvents startMs endMs initialFocus cfg in
  mkRegion (autoZoomId idCounter) (Js.round startMs) (Js.round endMs)
           (zoomDepth cfg) initialFocus
           (if (1 <? List.length focusKeyframes)%nat then Some focusKeyframes else None).

(** The loop over the click events; the state is [regions], [idCounter]
    and [lastZoomEndMs]. *)
Fixpoint zoomLoop (cfg : AutoZoomConfig) (cursorEvents : list CursorEvent)
    (videoDurationMs : Q) (clickEvents : list CursorEvent)
    (regions : list ZoomRegion) (idCounter : Z) (lastZoomEndMs : Q)
  : list ZoomRegion * Z :=
  match clickEvents with
  | [] => (regions, idCounter)
  | clickEvent :: rest =>
      if Js.ltb (timestamp clickEvent - lastZoomEndMs) (minIntervalMs cfg)
      then zoomLoop cfg cursorEvents videoDurationMs rest regions idCounter lastZoomEndMs
      else
        let startMs := timestamp clickEvent in
        let endMs := Js.min (startMs + zoomDurationMs cfg) videoDurationMs in
        if Js.ltb (endMs - startMs) 300
        then zoomLoop cfg cursorEvents videoDurationMs rest regions idCounter lastZoomEndMs
        else
          let idCounter' := (idCounter + 1)%Z in
          let region := regionOfClick cfg cursorEvents clickEvent endMs idCounter' in
          zoomLoop cfg cursorEvents videoDurationMs rest
                   (regions ++ [region]) idCounter' endMs
  end.

(** [generateAutoZoomRegions]: the pair is [{ regions, nextIdCounter }]. *)
Definition generateAutoZoomRegions (cursorEvents : list CursorEvent)
    (videoDurationMs : Q) (existingZoomIdCounter : Z)
    (config : PartialAutoZoomConfig) : list ZoomRegion * Z :=
  let cfg := mergeConfig config in
  let clickEvents := filter isPrimaryClick cursorEvents in
  match clickEvents with
  | [] => ([], existingZoomIdCounter)
  | _ => zoomLoop cfg cursorEvents videoDurationMs clickEvents []
                  existingZoomIdCounter (- minIntervalMs cfg)
  end.

(** ** Region merge (cursorUtils) *)

(** [!(autoRegion.endMs <= manual.startMs || autoRegion.startMs >= manual.endMs)]. *)
Definition overlapsRegion (autoRegion manual : ZoomRegion) : bool :=
  negb (Js.leb (endMs autoRegion) (startMs manual)
        || Js.geb (startMs autoRegion) (endMs manual)).

(** [manualRegions.some(...)]. *)
Definition overlapsManual (manualRegions : list ZoomRegion) (autoRegion : ZoomRegion)
  : bool :=
  existsb (overlapsRegion autoRegion) manualRegions.

(** [Array.prototype.sort] with the comparator [a.startMs - b.startMs]:
    a stable sort, modelled by stable insertion ([a] stays before [b]
    when the comparator is not positive). *)
Fixpoint insertByStart (a : ZoomRegion) (l : list ZoomRegion) : list ZoomRegion :=
  match l with
  | [] => [a]
  | b :: rest =>
      if Js.leb (startMs a - startMs b) 0 then a :: b :: rest
      else b :: insertByStart a rest
  end.

Definition sortByStart (l : list ZoomRegion) : list ZoomRegion :=
  fold_right insertByStart [] l.

Definition mergeZoomRegions (autoRegions manualRegions : list ZoomRegion)
  : list ZoomRegion :=
  let merged :=
    manualRegions
      ++ filter (fun autoRegion => negb (overlapsManual manualRegions autoRegion))
                autoRegions in
  sortByStart merged.

(** ** Easing and spline (mathUtils) *)

Definition clamp01 (value : Q) : Q := Js.max 0 (Js.min 1 value).

Definition smoothStep (t : Q) : Q :=
  let clamped := clamp01 t in
  clamped * clamped * (3 - 2 * clamped).

Definition smootherStep (t : Q) : Q :=
  let clamped := clamp01 t in
  clamped * clamped * clamped * (clamped * (clamped * 6 - 15) + 10).

Definition catmullRomInterpolate (p0 p1 p2 p3 t tension : Q) : Q :=
  let t2 := t * t in
  let t3 := t2 * t in
  let m1 := tension * (p2 - p0) in
  let m2 := tension * (p3 - p1) in
  (2 * t3 - 3 * t2 + 1) * p1 +
  (t3 - 2 * t2 + t) * m1 +
  (- (2) * t3 + 3 * t2) * p2 +
  (t3 - t2) * m2.

(** ** Region dominance and focus interpolation (zoomRegionUtils, constants) *)

Module ZoomRegionUtils.

Definition TRANSITION_WINDOW_MS : Q := 400.

Definition computeRegionStrength (region : ZoomRegion) (timeMs : Q) : Q :=
  let leadInStart := startMs region - TRANSITION_WINDOW_MS in
  let leadOutEnd := endMs region + TRANSITION_WINDOW_MS in
  if Js.ltb timeMs leadInStart || Js.gtb timeMs leadOutEnd then 0
  else
    let fadeIn := smootherStep ((timeMs - leadInStart) / TRANSITION_WINDOW_MS) in
    let fadeOut := smootherStep ((leadOutEnd - timeMs) / TRANSITION_WINDOW_MS) in
    Js.min fadeIn fadeOut.

(** The search loop: the first [i] with
    [keyframes[i].timeOffsetMs <= timeOffset < keyframes[i+1].timeOffsetMs],
    and [0] when the loop ends without a [break]. *)
Fixpoint findCurrentIndex (keyframes : list ZoomFocusKeyframe) (timeOffset : Q)
    (i : nat) : nat :=
  match keyframes with
  | k :: (k' :: _) as rest =>
      if Js.geb timeOffset (timeOffsetMs k) && Js.ltb timeOffset (timeOffsetMs k')
      then i
      else findCurrentIndex rest timeOffset (S i)
  | _ => 0%nat
  end.

(** [interpolateFocusFromKeyframes]; [None] stands for the [TypeError] of
    reading a field of [undefined]. *)
Definition interpolateFocusFromKeyframes (region : ZoomRegion) (currentTimeMs : Q)
  : option ZoomFocus :=
  match focusKeyframes region with
  | None | Some [] => Some (focus region)
  | Some ((first :: _) as keyframes) =>
      let timeOffset := currentTimeMs - startMs region in
      if Js.leb timeOffset (timeOffsetMs first) then Some (kfFocus first)
      else
        let lastKeyframe := last keyframes first in
        if Js.geb timeOffset (timeOffsetMs lastKeyframe)
        then Some (kfFocus lastKeyframe)
        else
          let currentIndex := findCurrentIndex keyframes timeOffset 0 in
          match nth_error keyframes currentIndex,
                nth_error keyframes (currentIndex + 1) with
          | Some p1, Some p2 =>
              let p0 := if (0 <? currentIndex)%nat
                        then nth (currentIndex - 1) keyframes p1 else p1 in
              let p3 := if (currentIndex + 2 <? List.length keyframes)%nat
                        then nth (currentIndex + 2) keyframes p2 else p2 in
              let segmentDuration := timeOffsetMs p2 - timeOffsetMs p1 in
              if Js.leb segmentDuration 0 then Some (kfFocus p1)
              else
                let t := (timeOffset - timeOffsetMs p1) / segmentDuration in
                Some (mkFocus
                  (catmullRomInterpolate (cx (kfFocus p0)) (cx (kfFocus p1))
                     (cx (kfFocus p2)) (cx (kfFocus p3)) t (1#2))
                  (catmullRomInterpolate (cy (kfFocus p0)) (cy (kfFocus p1))
                     (cy (kfFocus p2)) (cy (kfFocus p3)) t (1#2)))
          | _, _ => None
          end
  end.

Definition findDominantRegion (regions : list ZoomRegion) (timeMs : Q)
  : option ZoomRegion * Q :=
  fold_left
    (fun best region =>
       let strength := computeRegionStrength region timeMs in
       if Js.gtb strength (snd best) then (Some region, strength) else best)
    regions (None, 0).

End ZoomRegionUtils.

(** ** Cursor overlay (CursorOverlay.tsx) *)

Module CursorOverlay.

Record CursorPosition := mkPosition { x : Q; y : Q; isClick : bool }.

Definition isSome {A} (o : option A) : bool :=
  match o with Some _ => true | None => false end.

(** The scan of [getCursorPositionAtTime]: the state is [beforeEvent] and
    [clickEvent]; the result adds [afterEvent], set by the iteration that
    leaves the loop. *)
Fixpoint scanEvents (cursorEvents : list CursorEvent) (timeMs : Q)
    (beforeEvent clickEvent : option CursorEvent)
  : option CursorEvent * option CursorEvent * option CursorEvent :=
  match cursorEvents with
  | [] => (beforeEvent, None, clickEvent)
  | event :: rest =>
      let clickEvent' :=
        if isClickEvent event && Js.ltb (Js.abs (timestamp event - timeMs)) 300
        then Some event else clickEvent in
      if Js.leb (timestamp event) timeMs
      then scanEvents rest timeMs (Some event) clickEvent'
      else (beforeEvent, Some event, clickEvent')
  end.

Definition getCursorPositionAtTime (cursorEvents : list CursorEvent) (timeMs : Q)
  : option CursorPosition :=
  match cursorEvents with
  | [] => None
  | _ =>
      let '(beforeEvent, afterEvent, clickEvent) :=
        scanEvents cursorEvents timeMs None None in
      match beforeEvent, afterEvent with
      | None, Some a =>
          Some (mkPosition (normalizedX a) (normalizedY a) (isSome clickEvent))
      | Some b, None =>
          Some (mkPosition (normalizedX b) (normalizedY b) (isSome clickEvent))
      | Some b, Some a =>
          let timeDiff := timestamp a - timestamp b in
          if Qeq_bool timeDiff 0
          then Some (mkPosition (normalizedX b) (normalizedY b) (isSome clickEvent))
          else
            let progress := (timeMs - timestamp b) / timeDiff in
            let smoothProgress := progress * progress * (3 - 2 * progress) in
            Some (mkPosition
                    (normalizedX b + (normalizedX a - normalizedX b) * smoothProgress)
                    (normalizedY b + (normalizedY a - normalizedY b) * smoothProgress)
                    (isSome clickEvent))
      | None, None => None
      end
  end.

End CursorOverlay.

(** ** Playback transform engine (VideoPlayback.tsx) *)

Module VideoPlayback.

Definition DEFAULT_FOCUS : ZoomFocus := mkFocus (1#2) (1#2).
Definition TRANSITION_WINDOW_MS : Q := 320.
Definition SMOOTHING_FACTOR : Q := 12#100.
Definition MIN_DELTA : Q := 1#10000.

Definition computeRegionStrength (region : ZoomRegion) (timeMs : Q) : Q :=
  let leadInStart := startMs region - TRANSITION_WINDOW_MS in
  let leadOutEnd := endMs region + TRANSITION_WINDOW_MS in
  if Js.ltb timeMs leadInStart || Js.gtb timeMs leadOutEnd then 0
  else
    let fadeIn := smoothStep ((timeMs - leadInStart) / TRANSITION_WINDOW_MS) in
    let fadeOut := smoothStep ((leadOutEnd - timeMs) / TRANSITION_WINDOW_MS) in
    Js.min fadeIn fadeOut.

Definition findDominantRegion (regions : list ZoomRegion) (timeMs : Q)
  : option ZoomRegion * Q :=
  fold_left
    (fun best region =>
       let strength := computeRegionStrength region timeMs in
       if Js.gtb strength (snd best) then (Some region, strength) else best)
    regions (None, 0).

Record AnimationState := mkState { scale : Q; focusX : Q; focusY : Q }.

Definition initialState : AnimationState :=
  mkState 1 (cx DEFAULT_FOCUS) (cy DEFAULT_FOCUS).

(** What a tick steers toward: [targetScaleFactor] and [targetFocus]. *)
Record TickTarget := mkTarget { targetScaleFactor : Q; targetFocus : ZoomFocus }.

(** First half of [ticker]: the target, from the dominant region.
    [clampFocusToStage] closes over the stage geometry and is a parameter. *)
Definition tickerTarget (clampFocusToStage : ZoomFocus -> ZoomDepth -> ZoomFocus)
    (zoomRegions : list ZoomRegion) (currentTime : Q) : TickTarget :=
  let '(region, strength) := findDominantRegion zoomRegions currentTime in
  let defaultFocus := DEFAULT_FOCUS in
  match region with
  | Some region =>
      if Js.gtb strength 0 then
        let zoomScale := ZOOM_DEPTH_SCALES (depth region) in
        let regionFocus := clampFocusToStage (focus region) (depth region) in
        mkTarget (1 + (zoomScale - 1) * strength)
          (mkFocus (cx defaultFocus + (cx regionFocus - cx defaultFocus) * strength)
                   (cy defaultFocus + (cy regionFocus - cy defaultFocus) * strength))
      else mkTarget 1 defaultFocus
  | None => mkTarget 1 defaultFocus
  end.

(** One smoothed component: move by [SMOOTHING_FACTOR] of the gap while
    the gap exceeds [MIN_DELTA], otherwise take the target. *)
Definition smoothComponent (prev target : Q) : Q :=
  let delta := target - prev in
  if Js.gtb (Js.abs delta) MIN_DELTA
  then prev + delta * SMOOTHING_FACTOR
  else target.

(** Second half of [ticker]: the update of the animation state.  The
    motion intensity and [applyTransform], which only feed the renderer,
    are left out. *)
Definition tickerStep (target : TickTarget) (state : AnimationState) : AnimationState :=
  mkState (smoothComponent (scale state) (targetScaleFactor target))
          (smoothComponent (focusX state) (cx (targetFocus target)))
          (smoothComponent (focusY state) (cy (targetFocus target))).

Definition ticker (clampFocusToStage : ZoomFocus -> ZoomDepth -> ZoomFocus)
    (zoomRegions : list ZoomRegion) (currentTime : Q) (state : AnimationState)
  : AnimationState :=
  tickerStep (tickerTarget clampFocusToStage zoomRegions currentTime) state.

(** The state after [n] ticks with the same target. *)
Fixpoint ticks (n : nat) (target : TickTarget) (state : AnimationState)
  : AnimationState :=
  match n with
  | O => state
  | S n' => ticks n' target (tickerStep target state)
  end.

End VideoPlayback.

(** ** Predicates used in the statements *)

(** [b] starts strictly after [a] starts and no earlier than [a] ends. *)
Definition spaced (a b : ZoomRegion) : Prop :=
  startMs a < startMs b /\ endMs a <= startMs b.

(** The configuration override that sets only [minIntervalMs]. *)
Definition minIntervalOnly (ms : Q) : PartialAutoZoomConfig :=
  mkPartial None None (Some ms) None None.

(** A primary-button click at time [t], at the centre of the screen. *)
Definition clickAt (t : Q) : CursorEvent :=
  mkEvent Click t 0 0 (1#2) (1#2) (Some 1%Z) None.

(** A move at time [t] to the normalized position [(nx, ny)]. *)
Definition moveAt (t nx ny : Q) : CursorEvent :=
  mkEvent Move t 0 0 nx ny None None.

(** Two regions overlap in time: the negation of "one ends before the
    other starts". *)
Definition overlaps (a m : ZoomRegion) : Prop :=
  ~ (endMs a <= startMs m \/ startMs a >= endMs m).

(** Ascending [startMs]. *)
Definition startsNoLater (a b : ZoomRegion) : Prop := startMs a <= startMs b.

(** The scale after [n] ticks toward the fixed target scale [target]. *)
Fixpoint scaleAfter (n : nat) (target current : Q) : Q :=
  match n with
  | O => current
  | S n' => scaleAfter n' target (VideoPlayback.smoothComponent current target)
  end.

(** The distance between [a] and [b] is strictly less than [d]: the
    negation of [Math.sqrt(distanceSq a b) >= d]. *)
Definition closerThan (a b : ZoomFocus) (d : Q) : Prop :=
  0 < d /\ distanceSq a b < d * d.

(** The zoom window [[start, zoomEnd]] of a click. *)
Definition zoomWindowEnd (cfg : AutoZoomConfig) (videoDurationMs : Q)
    (click : CursorEvent) : Q :=
  Js.min (timestamp click + zoomDurationMs cfg) videoDurationMs.

(** Every move in the click's zoom window stays strictly within
    [keyframeMinDistance] of the initial focus. *)
Definition movesWithinMinDistance (cfg : AutoZoomConfig)
    (cursorEvents : list CursorEvent) (click : CursorEvent) (zoomEnd : Q) : Prop :=
  Forall (fun m => closerThan (clampedFocus m) (clampedFocus click)
                     (keyframeMinDistance cfg))
         (filter (moveDuringZoom (timestamp click) zoomEnd) cursorEvents).

(** The last move in the window comes no later than 50 ms after the click
    or stays strictly within half of [keyframeMinDistance] of the focus. *)
Definition lastMoveSettled (cfg : AutoZoomConfig)
    (cursorEvents : list CursorEvent) (click : CursorEvent) (zoomEnd : Q) : Prop :=
  forall moves lastMove,
    filter (moveDuringZoom (timestamp click) zoomEnd) cursorEvents
    = moves ++ [lastMove] ->
    timestamp lastMove - timestamp click <= 50
    \/ closerThan (clampedFocus lastMove) (clampedFocus click)
         (keyframeMinDistance cfg * (1#2)).

(** The distance between [a] and [b] is at most 99% of [d]: inside the
    distance test with a margin that no rounding of the square root, of the
    squares or of their sum can bridge. *)
Definition wellWithin (a b : ZoomFocus) (d : Q) : Prop :=
  0 < d /\ distanceSq a b <= ((99#100) * d) * ((99#100) * d).

(** Every move in the click's zoom window stays within 99% of
    [keyframeMinDistance] of the initial focus. *)
Definition movesWellWithinMinDistance (cfg : AutoZoomConfig)
    (cursorEvents : list CursorEvent) (click : CursorEvent) (zoomEnd : Q) : Prop :=
  Forall (fun m => wellWithin (clampedFocus m) (clampedFocus click)
                     (keyframeMinDistance cfg))
         (filter (moveDuringZoom (timestamp click) zoomEnd) cursorEvents).

(** The last move in the window comes no later than 50 ms after the click
    or stays within 99% of half of [keyframeMinDistance] of the focus. *)
Definition lastMoveWellSettled (cfg : AutoZoomConfig)
    (cursorEvents : list CursorEvent) (click : CursorEvent) (zoomEnd : Q) : Prop :=
  forall moves lastMove,
    filter (moveDuringZoom (timestamp click) zoomEnd) cursorEvents
    = moves ++ [lastMove] ->
    timestamp lastMove - timestamp click <= 50
    \/ wellWithin (clampedFocus lastMove) (clampedFocus click)
         (keyframeMinDistance cfg * (1#2)).

(** A focus inside the unit square. *)
Definition unitFocus (f : ZoomFocus) : Prop :=
  (0 <= cx f /\ cx f <= 1) /\ (0 <= cy f /\ cy f <= 1).

(** The static focus and every keyframe focus are inside the unit square. *)
Definition regionInUnitSquare (region : ZoomRegion) : Prop :=
  unitFocus (focus region)
  /\ match focusKeyframes region with
     | Some keyframes => Forall (fun k => unitFocus (kfFocus k)) keyframes
     | None => True
     end.

(** A focus that leaves the unit square by at most one eighth. *)
Definition nearUnitFocus (f : ZoomFocus) : Prop :=
  (- (1#8) <= cx f /\ cx f <= 9#8) /\ (- (1#8) <= cy f /\ cy f <= 9#8).

(** Numbers are exact rationals here and double-precision floats in the
    program.  Where a property of a computed coordinate is an equality or a
    tight bound, it is stated up to this slack, which is far above the
    rounding error of the few operations involved and far below a pixel. *)
Definition roundingSlack : Q := 1 # 1000000000.

(** A focus that leaves the unit square by at most [d]. *)
Definition focusWithin (d : Q) (f : ZoomFocus) : Prop :=
  (- d <= cx f /\ cx f <= 1 + d) /\ (- d <= cy f /\ cy f <= 1 + d).

(** [a] and [b] differ by at most the rounding slack, relative to the
    size [m] of the quantities they were computed from. *)
Definition closeTo (m a b : Q) : Prop :=
  a - b <= roundingSlack * m /\ b - a <= roundingSlack * m.

(** [a] is at most [b], up to the rounding slack relative to [m]. *)
Definition atMostUpTo (m a b : Q) : Prop := a <= b + roundingSlack * m.

(** Two foci of the unit square that agree up to the rounding slack. *)
Definition focusCloseTo (f g : ZoomFocus) : Prop :=
  closeTo 1 (cx f) (cx g) /\ closeTo 1 (cy f) (cy g).

(** A whole number of milliseconds, as [Math.round] produces. *)
Definition wholeMs (t : Q) : Prop := Js.round t == t.

(** [Number.MAX_SAFE_INTEGER]: up to it every integer is a double and
    [++] is exact. *)
Definition MAX_SAFE_INTEGER : Z := (2 ^ 53 - 1)%Z.

(** A counter that stays a safe integer when incremented [n] times. *)
Definition safeCounter (counter : Z) (n : nat) : Prop :=
  (- MAX_SAFE_INTEGER <= counter /\ counter + Z.of_nat n <= MAX_SAFE_INTEGER)%Z.

(** Keyframe offsets in strictly increasing order. *)
Definition offsetBefore (a b : ZoomFocusKeyframe) : Prop :=
  timeOffsetMs a < timeOffsetMs b.

(** Equality of foci as numbers. *)
Definition focusEq (f g : ZoomFocus) : Prop :=
  cx f == cx g /\ cy f == cy g.

(** ** Recording statistics (cursorUtils) *)

Definition isScrollEvent (e : CursorEvent) : bool :=
  match type e with Scroll => true | _ => false end.

Record CursorStats := mkStats {
  totalClicks : nat;
  totalMoves : nat;
  totalScrolls : nat;
  avgClickInterval : Q;
  recordingDuration : Q
}.

(** [clicks[i].timestamp - clicks[i - 1].timestamp] for [i] from 1. *)
Fixpoint clickIntervals (clicks : list CursorEvent) : list Q :=
  match clicks with
  | a :: (b :: _) as rest => (timestamp b - timestamp a) :: clickIntervals rest
  | _ => []
  end.

(** The largest of a non-empty list of numbers. *)
Definition maxOf (first : Q) (rest : list Q) : Q := fold_left Js.max rest first.

(** [Math.max(...values)] on a non-empty array: the spread passes every
    element as one argument of the call, and the engine throws a
    [RangeError] ([None]) when there are more arguments than it can pass.
    That number belongs to the engine, not to the program: it is the
    parameter [argumentLimit]. *)
Definition spreadMax (argumentLimit : nat) (first : Q) (rest : list Q) : option Q :=
  if (List.length (first :: rest) <=? argumentLimit)%nat
  then Some (maxOf first rest)
  else None.

(** [analyzeCursorEvents]; [None] is the [RangeError] of the spread call,
    which leaves the function without a result. *)
Definition analyzeCursorEvents (argumentLimit : nat) (events : list CursorEvent)
  : option CursorStats :=
  let clicks := filter isClickEvent events in
  let moves := filter isMoveEvent events in
  let scrolls := filter isScrollEvent events in
  let avgClickInterval :=
    if (1 <? List.length clicks)%nat then
      let intervals := clickIntervals clicks in
      fold_left (fun a b => a + b) intervals 0
        / inject_Z (Z.of_nat (List.length intervals))
    else 0 in
  match
    match events with
    | [] => Some 0
    | e :: es => spreadMax argumentLimit (timestamp e) (map timestamp es)
    end
  with
  | Some recordingDuration =>
      Some (mkStats (List.length clicks) (List.length moves) (List.length scrolls)
                    avgClickInterval recordingDuration)
  | None => None
  end.

(** The statistics returned when the spread call succeeds. *)
Definition statsOf (events : list CursorEvent) : CursorStats :=
  let clicks := filter isClickEvent events in
  mkStats (List.length clicks)
          (List.length (filter isMoveEvent events))
          (List.length (filter isScrollEvent events))
          (if (1 <? List.length clicks)%nat then
             fold_left (fun a b => a + b) (clickIntervals clicks) 0
               / inject_Z (Z.of_nat (List.length (clickIntervals clicks)))
           else 0)
          (match events with
           | [] => 0
           | e :: es => maxOf (timestamp e) (map timestamp es)
           end).

(** ** Predicates on generated regions *)

(** A keyframe whose focus is inside the unit square. *)
Definition unitKeyframe (k : ZoomFocusKeyframe) : Prop := unitFocus (kfFocus k).

(** A keyframe offset inside a zoom window of the given length. *)
Definition offsetWithin (len : Q) (k : ZoomFocusKeyframe) : Prop :=
  0 <= timeOffsetMs k /\ timeOffsetMs k <= len.

(** The identifiers [auto-zoom-(c+1)], ..., [auto-zoom-(c+n)]. *)
Definition autoZoomIds (c : Z) (n : nat) : list string :=
  map (fun i => autoZoomId (c + Z.of_nat i)) (seq 1 n).

(** The keyframes of a region, when present: at least two, the first at
    offset 0 on the region's focus, offsets strictly increasing. *)
Definition keyframesWellFormed (r : ZoomRegion) : Prop :=
  match focusKeyframes r with
  | Some keyframes =>
      (2 <= List.length keyframes)%nat
      /\ StronglySorted offsetBefore keyframes
      /\ exists rest, keyframes = mkKeyframe 0 (focus r) :: rest
  | None => True
  end.

(** A region of positive length. *)
Definition positiveLength (r : ZoomRegion) : Prop := startMs r < endMs r.

(** No two regions of the list overlap. *)
Definition pairwiseDisjoint (l : list ZoomRegion) : Prop :=
  ForallOrdPairs (fun a b => ~ overlaps a b) l.

(** [a] ends no later than [b] starts. *)
Definition endsBefore (a b : ZoomRegion) : Prop := endMs a <= startMs b.

(** An event whose normalized coordinates are inside the unit square. *)
Definition unitEvent (e : CursorEvent) : Prop :=
  (0 <= normalizedX e /\ normalizedX e <= 1)
  /\ (0 <= normalizedY e /\ normalizedY e <= 1).

(** Timestamps in non-decreasing and in strictly increasing order. *)
Definition noLater (a b : CursorEvent) : Prop := timestamp a <= timestamp b.
Definition earlier (a b : CursorEvent) : Prop := timestamp a < timestamp b.

(** ** Stage geometry of the playback component (types.ts, VideoPlayback.tsx) *)

(** [clamp] of types.ts; the [NaN] branch has no counterpart over [Q]. *)
Definition clamp (value min max : Q) : Q := Js.min max (Js.max min value).

Definition clampFocusToDepth (focus : ZoomFocus) (_depth : ZoomDepth) : ZoomFocus :=
  mkFocus (clamp (cx focus) 0 1) (clamp (cy focus) 0 1).

Module PlaybackGeometry.

Definition VIEWPORT_SCALE : Q := 8#10.

(** The refs [stageSizeRef], [videoSizeRef], [baseScaleRef] and
    [baseOffsetRef], read together. *)
Record StageGeometry := mkGeometry {
  stageWidth : Q; stageHeight : Q;
  videoWidth : Q; videoHeight : Q;
  baseScale : Q;
  baseOffsetX : Q; baseOffsetY : Q
}.

(** The refs before the first layout. *)
Definition initialGeometry : StageGeometry := mkGeometry 0 0 0 0 1 0 0.

(** [!value] on a number that is not [NaN]. *)
Definition falsy (value : Q) : bool := Qeq_bool value 0.

(** [!stageSize.width || !stageSize.height || !videoSize.width ||
     !videoSize.height || baseScale <= 0]. *)
Definition notReady (g : StageGeometry) : bool :=
  falsy (stageWidth g) || falsy (stageHeight g)
  || falsy (videoWidth g) || falsy (videoHeight g)
  || Js.leb (baseScale g) 0.

Definition clampFocusToStage (g : StageGeometry) (focus : ZoomFocus) (depth : ZoomDepth)
  : ZoomFocus :=
  if notReady g then clampFocusToDepth focus depth
  else
    let zoomScale := ZOOM_DEPTH_SCALES depth in
    let indicatorWidth := (videoWidth g / zoomScale) * baseScale g in
    let indicatorHeight := (videoHeight g / zoomScale) * baseScale g in
    let normalizedWidth :=
      if Js.gtb (stageWidth g) 0 then Js.min 1 (indicatorWidth / stageWidth g) else 1 in
    let normalizedHeight :=
      if Js.gtb (stageHeight g) 0 then Js.min 1 (indicatorHeight / stageHeight g) else 1 in
    let baseFocus := clampFocusToDepth focus depth in
    let marginX := if Js.geb normalizedWidth 1 then 1#2 else normalizedWidth / 2 in
    let marginY := if Js.geb normalizedHeight 1 then 1#2 else normalizedHeight / 2 in
    let minX := marginX in
    let maxX := if Js.geb normalizedWidth 1 then 1#2 else 1 - marginX in
    let minY := marginY in
    let maxY := if Js.geb normalizedHeight 1 then 1#2 else 1 - marginY in
    mkFocus (Js.min maxX (Js.max minX (cx baseFocus)))
            (Js.min maxY (Js.max minY (cy baseFocus))).

(** The geometry [layoutVideoContent] stores for a container of
    [width] x [height] and a video of [videoWidth] x [videoHeight];
    [None] when it returns before storing anything. *)
Definition layoutVideoContent (width height videoWidth videoHeight : Q)
  : option StageGeometry :=
  if falsy videoWidth || falsy videoHeight then None
  else if falsy width || falsy height then None
  else
    let maxDisplayWidth := width * VIEWPORT_SCALE in
    let maxDisplayHeight := height * VIEWPORT_SCALE in
    let scale :=
      Js.min (Js.min (maxDisplayWidth / videoWidth) (maxDisplayHeight / videoHeight)) 1 in
    let displayWidth := videoWidth * scale in
    let displayHeight := videoHeight * scale in
    let offsetX := (width - displayWidth) / 2 in
    let offsetY := (height - displayHeight) / 2 in
    Some (mkGeometry width height videoWidth videoHeight scale offsetX offsetY).

(** The rectangle of the focus indicator. *)
Record IndicatorRect := mkIndicator {
  left : Q; top : Q; indicatorWidth : Q; indicatorHeight : Q
}.

(** [updateOverlayForRegion]: the overlay's client size replaces the stage
    size, then the indicator is placed; [None] when the indicator is hidden. *)
Definition updateOverlayForRegion (g : StageGeometry) (clientWidth clientHeight : Q)
    (region : option ZoomRegion) (focusOverride : option ZoomFocus)
  : option IndicatorRect :=
  match region with
  | None => None
  | Some region =>
      let stageWidth := clientWidth in
      let stageHeight := clientHeight in
      if falsy stageWidth || falsy stageHeight then None
      else
        let g' := mkGeometry stageWidth stageHeight (videoWidth g) (videoHeight g)
                    (baseScale g) (baseOffsetX g) (baseOffsetY g) in
        if falsy (videoWidth g) || falsy (videoHeight g) || Js.leb (baseScale g) 0
        then None
        else
          let zoomScale := ZOOM_DEPTH_SCALES (depth region) in
          let focus :=
            clampFocusToStage g'
              (match focusOverride with Some f => f | None => focus region end)
              (depth region) in
          let indicatorWidth := (videoWidth g / zoomScale) * baseScale g in
          let indicatorHeight := (videoHeight g / zoomScale) * baseScale g in
          let rawLeft := cx focus * stageWidth - indicatorWidth / 2 in
          let rawTop := cy focus * stageHeight - indicatorHeight / 2 in
          let adjustedLeft :=
            if Js.geb indicatorWidth stageWidth
            then (stageWidth - indicatorWidth) / 2
            else Js.max 0 (Js.min (stageWidth - indicatorWidth) rawLeft) in
          let adjustedTop :=
            if Js.geb indicatorHeight stageHeight
            then (stageHeight - indicatorHeight) / 2
            else Js.max 0 (Js.min (stageHeight - indicatorHeight) rawTop) in
          Some (mkIndicator adjustedLeft adjustedTop indicatorWidth indicatorHeight)
  end.

(** What [applyTransform] hands to the renderer. *)
Record Transform := mkTransform {
  actualScale : Q;
  positionX : Q; positionY : Q;
  blur : Q;
  maskWidth : Q; maskHeight : Q; maskRadius : Q
}.

(** [applyTransform]; [None] when the geometry is not ready and nothing is
    changed.  The blur filter and the mask graphics are taken as present. *)
Definition applyTransform (g : StageGeometry) (state : VideoPlayback.AnimationState)
    (isPlaying : bool) (motionIntensity : Q) : option Transform :=
  if notReady g then None
  else
    let zoomScale := VideoPlayback.scale state in
    let focusStagePxX := VideoPlayback.focusX state * stageWidth g in
    let focusStagePxY := VideoPlayback.focusY state * stageHeight g in
    let stageCenterX := stageWidth g / 2 in
    let stageCenterY := stageHeight g / 2 in
    let actualScale := baseScale g * zoomScale in
    let focusInVideoSpaceX := focusStagePxX - baseOffsetX g in
    let focusInVideoSpaceY := focusStagePxY - baseOffsetY g in
    let newVideoX := stageCenterX - focusInVideoSpaceX * zoomScale in
    let newVideoY := stageCenterY - focusInVideoSpaceY * zoomScale in
    let shouldBlur := isPlaying && Js.gtb motionIntensity (5#10000) in
    let motionBlur := if shouldBlur then Js.min 6 (motionIntensity * 120) else 0 in
    let maskW := videoWidth g * actualScale in
    let maskH := videoHeight g * actualScale in
    Some (mkTransform actualScale newVideoX newVideoY motionBlur
                      maskW maskH (Js.min maskW maskH * (2#100))).

(** [Math.max] of the three per-component changes of a tick. *)
Definition motionIntensity (prev next : VideoPlayback.AnimationState) : Q :=
  Js.max (Js.max (Js.abs (VideoPlayback.scale next - VideoPlayback.scale prev))
                 (Js.abs (VideoPlayback.focusX next - VideoPlayback.focusX prev)))
         (Js.abs (VideoPlayback.focusY next - VideoPlayback.focusY prev)).

(** One run of the ticker callback: the new animation state and what is
    handed to the renderer. *)
Definition tickerFrame (g : StageGeometry) (zoomRegions : list ZoomRegion)
    (currentTime : Q) (isPlaying : bool) (state : VideoPlayback.AnimationState)
  : VideoPlayback.AnimationState * option Transform :=
  let next := VideoPlayback.ticker (clampFocusToStage g) zoomRegions currentTime state in
  (next, applyTransform g next isPlaying (motionIntensity state next)).

(** A frame: the geometry, region list, playback time and play state the
    ticker reads when it runs. *)
Record Frame := mkFrame {
  frameGeometry : StageGeometry;
  frameRegions : list ZoomRegion;
  frameTime : Q;
  framePlaying : bool
}.

(** The animation state after the ticker ran once per frame. *)
Definition runFrames (frames : list Frame) (state : VideoPlayback.AnimationState)
  : VideoPlayback.AnimationState :=
  fold_left
    (fun st fr => fst (tickerFrame (frameGeometry fr) (frameRegions fr)
                         (frameTime fr) (framePlaying fr) st))
    frames state.

(** One axis of [clampFocusToStage] as a function of the zoomed viewport's
    extent [indicator], the stage's extent [stage] and the coordinate. *)
Definition clampAxisToStage (indicator stage value : Q) : Q :=
  let normalized := if Js.gtb stage 0 then Js.min 1 (indicator / stage) else 1 in
  let margin := if Js.geb normalized 1 then 1#2 else normalized / 2 in
  let maxV := if Js.geb normalized 1 then 1#2 else 1 - margin in
  Js.min maxV (Js.max margin value).

End PlaybackGeometry.

(** [v] lies between [a] and [b], in either order. *)
Definition between (a b v : Q) : Prop := Js.min a b <= v /\ v <= Js.max a b.

(** The animation state the spec allows: scale from 1 to the largest
    magnification of the depth table, focus inside the unit square. *)
Definition validAnimationState (st : VideoPlayback.AnimationState) : Prop :=
  (1 <= VideoPlayback.scale st /\ VideoPlayback.scale st <= 5)
  /\ (0 <= VideoPlayback.focusX st /\ VideoPlayback.focusX st <= 1)
  /\ (0 <= VideoPlayback.focusY st /\ VideoPlayback.focusY st <= 1).

(** ** The mouse tracker as a state machine (mouse-tracker) *)

Module MouseTracker.

Record MouseTrackerConfig := mkTrackerConfig {
  sourceId : string;
  recordingStartTime : Q;
  onCursorEvent : bool            (* whether the optional callback is given *)
}.

(** The fields of the tracker object. *)
Record TrackerState := mkTracker {
  isTracking : bool;
  events : list CursorEvent;
  config : option MouseTrackerConfig;
  displayBounds : option DisplayBounds;
  lastMoveTime : Q
}.

Definition moveThrottleMs : Q := 8.

Definition initialTracker : TrackerState := mkTracker false [] None None 0.

Section Tracker.

(** [getDisplayBoundsForSource] reads the displays of the host through the
    Electron [screen] object; its result for a source id is a parameter. *)
Variable getDisplayBoundsForSource : string -> DisplayBounds.

(** [start]: nothing changes when the tracker is already running. *)
Definition start (cfg : MouseTrackerConfig) (st : TrackerState) : TrackerState :=
  if isTracking st then st
  else mkTracker true [] (Some cfg)
         (Some (getDisplayBoundsForSource (sourceId cfg))) (lastMoveTime st).

(** [stop]: the new state and the returned copy of the captured events. *)
Definition stop (st : TrackerState) : TrackerState * list CursorEvent :=
  if negb (isTracking st) then (st, [])
  else (mkTracker false [] None None (lastMoveTime st), events st).

Definition getEvents (st : TrackerState) : list CursorEvent := events st.

Definition isRunning (st : TrackerState) : bool := isTracking st.

(** [getTimestamp], with the value [Date.now()] returns at that point. *)
Definition getTimestamp (st : TrackerState) (now : Q) : Q :=
  match config st with
  | None => 0
  | Some cfg => now - recordingStartTime cfg
  end.

(** The event handed to [onCursorEvent], when the callback is given. *)
Definition notify (cfg : MouseTrackerConfig) (event : CursorEvent) : option CursorEvent :=
  if onCursorEvent cfg then Some event else None.

(** [handleMouseMove]: [now] is the clock read for the throttle,
    [stampNow] the one read for the timestamp. *)
Definition handleMouseMove (now stampNow x y : Q) (st : TrackerState)
  : TrackerState * option CursorEvent :=
  match config st with
  | Some cfg =>
      if negb (isTracking st) then (st, None)
      else if Js.ltb (now - lastMoveTime st) moveThrottleMs then (st, None)
      else
        let n := normalizeCoordinates (displayBounds st) x y in
        let event := mkEvent Move (getTimestamp st stampNow) x y
                       (normX n) (normY n) None None in
        (mkTracker (isTracking st) (events st ++ [event]) (config st)
           (displayBounds st) now,
         notify cfg event)
  | None => (st, None)
  end.

(** [handleMouseDown]: [button] is [Some b] when [e.button] is a number. *)
Definition handleMouseDown (stampNow x y : Q) (button : option Z) (st : TrackerState)
  : TrackerState * option CursorEvent :=
  match config st with
  | Some cfg =>
      if negb (isTracking st) then (st, None)
      else
        let n := normalizeCoordinates (displayBounds st) x y in
        let event := mkEvent Click (getTimestamp st stampNow) x y
                       (normX n) (normY n) button None in
        (mkTracker (isTracking st) (events st ++ [event]) (config st)
           (displayBounds st) (lastMoveTime st),
         notify cfg event)
  | None => (st, None)
  end.

Definition handleWheel (stampNow x y rotation : Q) (st : TrackerState)
  : TrackerState * option CursorEvent :=
  match config st with
  | Some cfg =>
      if negb (isTracking st) then (st, None)
      else
        let n := normalizeCoordinates (displayBounds st) x y in
        let event := mkEvent Scroll (getTimestamp st stampNow) x y
                       (normX n) (normY n) None (Some rotation) in
        (mkTracker (isTracking st) (events st ++ [event]) (config st)
           (displayBounds st) (lastMoveTime st),
         notify cfg event)
  | None => (st, None)
  end.

(** What can happen to the tracker: a call of [start] or [stop], or one of
    the three hook events. *)
Inductive Input :=
| CallStart (cfg : MouseTrackerConfig)
| CallStop
| MouseMove (now stampNow x y : Q)
| MouseDown (stampNow x y : Q) (button : option Z)
| Wheel (stampNow x y rotation : Q).

Definition step (st : TrackerState) (i : Input) : TrackerState :=
  match i with
  | CallStart cfg => start cfg st
  | CallStop => fst (stop st)
  | MouseMove now stampNow x y => fst (handleMouseMove now stampNow x y st)
  | MouseDown stampNow x y button => fst (handleMouseDown stampNow x y button st)
  | Wheel stampNow x y rotation => fst (handleWheel stampNow x y rotation st)
  end.

Definition run (inputs : list Input) (st : TrackerState) : TrackerState :=
  fold_left step inputs st.

End Tracker.

(** A hook event, as opposed to a call of [start] or [stop]. *)
Definition isHookEvent (i : Input) : bool :=
  match i with CallStart _ | CallStop => false | _ => true end.

(** The clock values read for the mouse-down and for the wheel events. *)
Definition downStamps (inputs : list Input) : list Q :=
  flat_map (fun i => match i with MouseDown s _ _ _ => [s] | _ => [] end) inputs.

Definition wheelStamps (inputs : list Input) : list Q :=
  flat_map (fun i => match i with Wheel s _ _ _ => [s] | _ => [] end) inputs.

End MouseTracker.

(** ** The cursor-event file of a video (ipc handlers) *)

(** [name.replace(/\.(webm|mp4)$/, '-cursor-events.json')]: the pattern
    matches where what remains of the name is exactly [.webm] or [.mp4]. *)
Fixpoint cursorEventsFileName (name : string) : string :=
  if (String.eqb name ".webm" || String.eqb name ".mp4")%bool
  then "-cursor-events.json"%string
  else match name with
       | EmptyString => EmptyString
       | String c rest => String c (cursorEventsFileName rest)
       end.

(** What every reachable tracker state satisfies: the buffered events are
    in the unit square and the resolved display has positive size. *)
Definition trackerSound (st : MouseTracker.TrackerState) : Prop :=
  Forall unitEvent (MouseTracker.events st)
  /\ forall b, MouseTracker.displayBounds st = Some b -> 0 < width b /\ 0 < height b.

(** ** Facts about the numeric primitives *)

Lemma ltb_true a b : Js.ltb a b = true <-> a < b.
Proof.
  unfold Js.ltb. destruct (Qlt_le_dec a b); split; intros; try easy.
  exfalso. lra.
Qed.

Lemma ltb_false a b : Js.ltb a b = false <-> b <= a.
Proof.
  unfold Js.ltb. destruct (Qlt_le_dec a b); split; intros; try easy.
  exfalso. lra.
Qed.

Lemma leb_true a b : Js.leb a b = true <-> a <= b.
Proof.
  unfold Js.leb. destruct (Qlt_le_dec b a); split; intros; try easy.
  exfalso. lra.
Qed.

Lemma leb_false a b : Js.leb a b = false <-> b < a.
Proof.
  unfold Js.leb. destruct (Qlt_le_dec b a); split; intros; try easy.
  exfalso. lra.
Qed.

Lemma min_spec a b : (b < a /\ Js.min a b = b) \/ (a <= b /\ Js.min a b = a).
Proof. unfold Js.min. destruct (Qlt_le_dec b a); auto. Qed.

Lemma max_spec a b : (a < b /\ Js.max a b = b) \/ (b <= a /\ Js.max a b = a).
Proof. unfold Js.max. destruct (Qlt_le_dec a b); auto. Qed.

Lemma abs_spec a : (a < 0 /\ Js.abs a = - a) \/ (0 <= a /\ Js.abs a = a).
Proof. unfold Js.abs. destruct (Qlt_le_dec a 0); auto. Qed.

(** Case analysis on every comparison the primitives make. *)
Ltac js_cases :=
  unfold Js.geb, Js.gtb in *;
  unfold Js.min, Js.max, Js.abs, Js.ltb, Js.leb in *;
  repeat match goal with
         | |- context [Qlt_le_dec ?a ?b] => destruct (Qlt_le_dec a b)
         | H : context [Qlt_le_dec ?a ?b] |- _ => destruct (Qlt_le_dec a b)
         end.

(** A quotient of a number between [0] and [w] by [w > 0] is in [[0,1]]. *)
Lemma unit_quotient n w : 0 < w -> 0 <= n -> n <= w -> 0 <= n / w /\ n / w <= 1.
Proof.
  intros Hw H0 H1. split.
  - apply Qle_shift_div_l; lra.
  - apply Qle_shift_div_r; lra.
Qed.

(** ** Capture: normalized coordinates stay in the unit square *)

(** C9: for every raw coordinate pair and every display rectangle of
    positive width and height, [normalizeCoordinates] returns
    [0 <= normX <= 1] and [0 <= normY <= 1]. *)
Theorem normalizeCoordinates_unit_square :
  forall (b : DisplayBounds) (x y : Q),
    0 < width b -> 0 < height b ->
    let n := normalizeCoordinates (Some b) x y in
    (0 <= normX n /\ normX n <= 1) /\ (0 <= normY n /\ normY n <= 1).
Proof.
  intros b x y Hw Hh. cbn.
  split; apply unit_quotient; trivial; js_cases; lra.
Qed.

(** A 1920x1080 display at the origin, pointer far outside it. *)
Lemma normalizeCoordinates_unit_square_witness :
  let n := normalizeCoordinates (Some (mkBounds 0 0 1920 1080)) (-50) 5000 in
  (0 <= normX n /\ normX n <= 1) /\ (0 <= normY n /\ normY n <= 1).
Proof.
  apply (normalizeCoordinates_unit_square (mkBounds 0 0 1920 1080) (-50) 5000);
    reflexivity.
Defined.

(** ** Rounding *)

Lemma round_le_mono a b : a <= b -> Js.round a <= Js.round b.
Proof.
  intros H. unfold Js.round. rewrite <- Zle_Qle.
  apply Qfloor_resp_le. lra.
Qed.

Lemma round_upper a : Js.round a <= a + (1#2).
Proof. unfold Js.round. apply Qfloor_le. Qed.

Lemma round_lower a : a - (1#2) < Js.round a.
Proof.
  unfold Js.round.
  pose proof (Qlt_floor (a + (1#2))) as H.
  rewrite inject_Z_plus in H. change (inject_Z 1) with 1 in H. lra.
Qed.

Lemma round_eq a b : a == b -> Js.round a = Js.round b.
Proof. intros H. unfold Js.round. now rewrite H. Qed.

(** ** The click loop of the synthesizer, one iteration at a time *)

Section ZoomLoopSteps.
Variables (cfg : AutoZoomConfig) (cursorEvents : list CursorEvent)
          (videoDurationMs : Q).

(** A click closer than [minIntervalMs] to the end of the last zoom is skipped. *)
Lemma zoomLoop_debounced c rest regions idCounter lastZoomEndMs :
  timestamp c - lastZoomEndMs < minIntervalMs cfg ->
  zoomLoop cfg cursorEvents videoDurationMs (c :: rest) regions idCounter lastZoomEndMs
  = zoomLoop cfg cursorEvents videoDurationMs rest regions idCounter lastZoomEndMs.
Proof.
  intros H. cbn [zoomLoop].
  now rewrite (proj2 (ltb_true _ _) H).
Qed.

(** A click whose zoom would last less than 300 ms is skipped. *)
Lemma zoomLoop_too_short c rest regions idCounter lastZoomEndMs :
  minIntervalMs cfg <= timestamp c - lastZoomEndMs ->
  Js.min (timestamp c + zoomDurationMs cfg) videoDurationMs - timestamp c < 300 ->
  zoomLoop cfg cursorEvents videoDurationMs (c :: rest) regions idCounter lastZoomEndMs
  = zoomLoop cfg cursorEvents videoDurationMs rest regions idCounter lastZoomEndMs.
Proof.
  intros H1 H2. cbn [zoomLoop].
  rewrite (proj2 (ltb_false _ _) H1).
  now rewrite (proj2 (ltb_true _ _) H2).
Qed.

(** Any other click yields a region and moves [lastZoomEndMs] to its end. *)
Lemma zoomLoop_accepted c rest regions idCounter lastZoomEndMs :
  minIntervalMs cfg <= timestamp c - lastZoomEndMs ->
  300 <= Js.min (timestamp c + zoomDurationMs cfg) videoDurationMs - timestamp c ->
  zoomLoop cfg cursorEvents videoDurationMs (c :: rest) regions idCounter lastZoomEndMs
  = let endMs := Js.min (timestamp c + zoomDurationMs cfg) videoDurationMs in
    zoomLoop cfg cursorEvents videoDurationMs rest
      (regions ++ [regionOfClick cfg cursorEvents c endMs (idCounter + 1)])
      (idCounter + 1)%Z endMs.
Proof.
  intros H1 H2. cbn [zoomLoop].
  rewrite (proj2 (ltb_false _ _) H1).
  now rewrite (proj2 (ltb_false _ _) H2).
Qed.

(** The three cases are exhaustive. *)
Lemma zoomLoop_cases c lastZoomEndMs :
  let endMs := Js.min (timestamp c + zoomDurationMs cfg) videoDurationMs in
  timestamp c - lastZoomEndMs < minIntervalMs cfg
  \/ (minIntervalMs cfg <= timestamp c - lastZoomEndMs
      /\ endMs - timestamp c < 300)
  \/ (minIntervalMs cfg <= timestamp c - lastZoomEndMs
      /\ 300 <= endMs - timestamp c).
Proof.
  intros endMs.
  destruct (Qlt_le_dec (timestamp c - lastZoomEndMs) (minIntervalMs cfg)); auto.
  destruct (Qlt_le_dec (endMs - timestamp c) 300); auto.
Qed.

End ZoomLoopSteps.

Lemma regionOfClick_startMs cfg evs c e n :
  startMs (regionOfClick cfg evs c e n) = Js.round (timestamp c).
Proof. reflexivity. Qed.

Lemma regionOfClick_endMs cfg evs c e n :
  endMs (regionOfClick cfg evs c e n) = Js.round e.
Proof. reflexivity. Qed.

Lemma mergeConfig_minIntervalOnly_500 :
  mergeConfig (minIntervalOnly 500) = DEFAULT_AUTO_ZOOM_CONFIG.
Proof. reflexivity. Qed.

(** ** Debounce on the three-click example *)

(** C1, as stated, fails: with [minIntervalMs = 500] and the default
    2000 ms zoom duration, clicks at 0, 100 and 600 in a 10 s video do not
    give two regions starting at 0 and 600. *)
Lemma debounce_two_regions_counterexample :
  ~ (exists r1 r2,
       fst (generateAutoZoomRegions [clickAt 0; clickAt 100; clickAt 600]
              10000 0 (minIntervalOnly 500)) = [r1; r2]
       /\ startMs r1 == 0 /\ startMs r2 == 600).
Proof.
  intros (r1 & r2 & H & _). vm_compute in H. discriminate H.
Qed.

(** C1, amended: the debounce is measured from the END of the last zoom.
    With [minIntervalMs = 500] and the other settings default, whenever the
    primary clicks of the stream are at 0, 100 and 600 and the video lasts at
    least 2600 ms, exactly one region is returned, spanning 0 to 2000; the
    clicks at 100 and 600 both fall inside it and are dropped. *)
Theorem debounce_from_zoom_end :
  forall (cursorEvents : list CursorEvent) (videoDurationMs : Q) (counter : Z)
         (c0 c1 c2 : CursorEvent),
    filter isPrimaryClick cursorEvents = [c0; c1; c2] ->
    timestamp c0 == 0 -> timestamp c1 == 100 -> timestamp c2 == 600 ->
    2600 <= videoDurationMs ->
    exists r,
      generateAutoZoomRegions cursorEvents videoDurationMs counter
        (minIntervalOnly 500) = ([r], (counter + 1)%Z)
      /\ startMs r = 0 /\ endMs r = 2000.
Proof.
  intros evs vd counter c0 c1 c2 Hf H0 H1 H2 Hvd.
  unfold generateAutoZoomRegions.
  rewrite Hf, mergeConfig_minIntervalOnly_500.
  set (cfg := DEFAULT_AUTO_ZOOM_CONFIG).
  assert (Hd : zoomDurationMs cfg = 2000) by reflexivity.
  assert (Hm : minIntervalMs cfg = 500) by reflexivity.
  assert (He : Js.min (timestamp c0 + zoomDurationMs cfg) vd
               = timestamp c0 + zoomDurationMs cfg).
  { rewrite Hd. unfold Js.min.
    destruct (Qlt_le_dec vd (timestamp c0 + 2000)); [exfalso; lra | reflexivity]. }
  rewrite zoomLoop_accepted by (rewrite ?He, ?Hd, ?Hm; lra).
  cbv zeta. rewrite He.
  rewrite zoomLoop_debounced by (rewrite ?Hd, ?Hm; lra).
  rewrite zoomLoop_debounced by (rewrite ?Hd, ?Hm; lra).
  cbn [zoomLoop app].
  eexists. split; [reflexivity|].
  rewrite regionOfClick_startMs, regionOfClick_endMs.
  split.
  - now rewrite (round_eq _ 0 H0).
  - rewrite (round_eq _ 2000); [reflexivity | rewrite Hd; lra].
Qed.

Lemma debounce_from_zoom_end_witness :
  exists r,
    generateAutoZoomRegions [clickAt 0; moveAt 50 (1#2) (1#2); clickAt 100; clickAt 600]
      10000 0 (minIntervalOnly 500) = ([r], 1%Z)
    /\ startMs r = 0 /\ endMs r = 2000.
Proof.
  apply (debounce_from_zoom_end
           [clickAt 0; moveAt 50 (1#2) (1#2); clickAt 100; clickAt 600]
           10000 0 (clickAt 0) (clickAt 100) (clickAt 600));
    reflexivity || (vm_compute; discriminate).
Defined.

(** ** Regions come out spaced in time *)

Lemma StronglySorted_snoc {A} (R : A -> A -> Prop) l a :
  StronglySorted R l -> Forall (fun b => R b a) l -> StronglySorted R (l ++ [a]).
Proof.
  induction 1 as [|b l Hl IH Hb]; intros Hall; cbn.
  - repeat constructor.
  - inversion Hall; subst. constructor; [auto|].
    apply Forall_app. split; [assumption | repeat constructor; assumption].
Qed.

(** A zoom of at least 300 ms keeps a positive length after rounding. *)
Lemma round_gap s e : 300 <= e - s -> Js.round s < Js.round e.
Proof.
  intros H. pose proof (round_upper s). pose proof (round_lower e). lra.
Qed.

(** Loop invariant: the regions built so far are spaced, each has positive
    length and none ends after (the rounding of) [lastZoomEndMs]. *)
Lemma zoomLoop_spaced cfg evs vd clicks :
  0 < minIntervalMs cfg ->
  forall regions idCounter lastZoomEndMs,
    StronglySorted spaced regions ->
    Forall (fun r => startMs r < endMs r /\ endMs r <= Js.round lastZoomEndMs)
           regions ->
    StronglySorted spaced
      (fst (zoomLoop cfg evs vd clicks regions idCounter lastZoomEndMs)).
Proof.
  intros Hpos. induction clicks as [|c rest IH]; intros regions n last Hs Hb.
  - exact Hs.
  - destruct (zoomLoop_cases cfg vd c last) as [H|[[H1 H2]|[H1 H2]]].
    + rewrite zoomLoop_debounced by exact H. now apply IH.
    + rewrite zoomLoop_too_short by assumption. now apply IH.
    + rewrite zoomLoop_accepted by assumption. cbv zeta.
      set (e := Js.min (timestamp c + zoomDurationMs cfg) vd) in *.
      assert (Hstart : Js.round last <= Js.round (timestamp c))
        by (apply round_le_mono; lra).
      assert (Hgap : Js.round (timestamp c) < Js.round e)
        by (apply round_gap; exact H2).
      apply IH.
      * apply StronglySorted_snoc; [exact Hs|].
        eapply Forall_impl; [|exact Hb].
        intros r [Hr1 Hr2]. unfold spaced.
        rewrite regionOfClick_startMs. split; lra.
      * apply Forall_app. split.
        -- eapply Forall_impl; [|exact Hb].
           intros r [Hr1 Hr2]. split; [exact Hr1 | lra].
        -- constructor; [|constructor].
           rewrite regionOfClick_startMs, regionOfClick_endMs. split; lra.
Qed.

(** C10: for every event list and every configuration with positive
    [minIntervalMs], the regions of [generateAutoZoomRegions] are in strictly
    increasing [startMs] order and every region starts no earlier than every
    earlier region ends, so they are pairwise non-overlapping.  The debounce
    alone enforces it: the event list need not be sorted. *)
Theorem generateAutoZoomRegions_spaced :
  forall (cursorEvents : list CursorEvent) (videoDurationMs : Q) (counter : Z)
         (config : PartialAutoZoomConfig),
    0 < minIntervalMs (mergeConfig config) ->
    StronglySorted spaced
      (fst (generateAutoZoomRegions cursorEvents videoDurationMs counter config)).
Proof.
  intros evs vd counter config Hpos. unfold generateAutoZoomRegions.
  destruct (filter isPrimaryClick evs) as [|c rest] eqn:Hf.
  - constructor.
  - apply zoomLoop_spaced; [exact Hpos | constructor | constructor].
Qed.

(** Three clicks far enough apart: three regions, [0,2000], [2500,4500],
    [5000,7000]. *)
Lemma generateAutoZoomRegions_spaced_witness :
  0 < minIntervalMs (mergeConfig emptyPartial)
  /\ StronglySorted spaced
       (fst (generateAutoZoomRegions [clickAt 0; clickAt 2500; clickAt 5000]
               10000 0 emptyPartial)).
Proof.
  split; [reflexivity|].
  apply (generateAutoZoomRegions_spaced [clickAt 0; clickAt 2500; clickAt 5000]
           10000 0 emptyPartial).
  reflexivity.
Defined.

(** ** The primitives respect equality of rationals *)

#[local] Instance ltb_proper : Proper (Qeq ==> Qeq ==> eq) Js.ltb.
Proof. intros a a' Ha b b' Hb. js_cases; trivial; exfalso; lra. Qed.

#[local] Instance leb_proper : Proper (Qeq ==> Qeq ==> eq) Js.leb.
Proof. intros a a' Ha b b' Hb. js_cases; trivial; exfalso; lra. Qed.

#[local] Instance gtb_proper : Proper (Qeq ==> Qeq ==> eq) Js.gtb.
Proof. intros a a' Ha b b' Hb. js_cases; trivial; exfalso; lra. Qed.

#[local] Instance geb_proper : Proper (Qeq ==> Qeq ==> eq) Js.geb.
Proof. intros a a' Ha b b' Hb. js_cases; trivial; exfalso; lra. Qed.

#[local] Instance min_proper : Proper (Qeq ==> Qeq ==> Qeq) Js.min.
Proof. intros a a' Ha b b' Hb. js_cases; lra. Qed.

#[local] Instance max_proper : Proper (Qeq ==> Qeq ==> Qeq) Js.max.
Proof. intros a a' Ha b b' Hb. js_cases; lra. Qed.

#[local] Instance abs_proper : Proper (Qeq ==> Qeq) Js.abs.
Proof. intros a a' Ha. js_cases; lra. Qed.

#[local] Instance clamp01_proper : Proper (Qeq ==> Qeq) clamp01.
Proof. intros a a' Ha. unfold clamp01. now rewrite Ha. Qed.

#[local] Instance smoothStep_proper : Proper (Qeq ==> Qeq) smoothStep.
Proof. intros a a' Ha. unfold smoothStep. cbv zeta. now rewrite Ha. Qed.

#[local] Instance smootherStep_proper : Proper (Qeq ==> Qeq) smootherStep.
Proof. intros a a' Ha. unfold smootherStep. cbv zeta. now rewrite Ha. Qed.

#[local] Instance catmullRomInterpolate_proper :
  Proper (Qeq ==> Qeq ==> Qeq ==> Qeq ==> Qeq ==> Qeq ==> Qeq) catmullRomInterpolate.
Proof.
  intros a a' Ha b b' Hb c c' Hc d d' Hd t t' Ht u u' Hu.
  unfold catmullRomInterpolate. cbv zeta. now rewrite Ha, Hb, Hc, Hd, Ht, Hu.
Qed.

(** ** Easing curve *)

Lemma clamp01_range v : 0 <= clamp01 v /\ clamp01 v <= 1.
Proof. unfold clamp01. js_cases; lra. Qed.

Lemma clamp01_inside v : 0 <= v -> v <= 1 -> clamp01 v == v.
Proof. intros. unfold clamp01. js_cases; lra. Qed.

Lemma clamp01_above v : 1 <= v -> clamp01 v == 1.
Proof. intros. unfold clamp01. js_cases; lra. Qed.

Lemma clamp01_below v : v <= 0 -> clamp01 v == 0.
Proof. intros. unfold clamp01. js_cases; lra. Qed.

Lemma smootherStep_above v : 1 <= v -> smootherStep v == 1.
Proof.
  intros H. unfold smootherStep. cbv zeta. rewrite (clamp01_above v H). ring.
Qed.

Lemma smootherStep_below v : v <= 0 -> smootherStep v == 0.
Proof.
  intros H. unfold smootherStep. cbv zeta. rewrite (clamp01_below v H). ring.
Qed.

(** Strictly inside the unit interval the quintic is strictly partial. *)
Lemma smootherStep_partial v : 0 < v -> v < 1 -> 0 < smootherStep v /\ smootherStep v < 1.
Proof.
  intros H0 H1. unfold smootherStep. cbv zeta.
  rewrite (clamp01_inside v) by lra.
  assert (Hq : 0 < v * (v * 6 - 15) + 10) by nra.
  assert (Hq' : 0 < (1 - v) * ((1 - v) * 6 - 15) + 10) by nra.
  assert (Hv3 : 0 < v * v * v) by (repeat apply Qmult_lt_0_compat; assumption).
  assert (Hw3 : 0 < (1 - v) * (1 - v) * (1 - v))
    by (repeat apply Qmult_lt_0_compat; lra).
  split.
  - apply Qmult_lt_0_compat; assumption.
  - assert (Hsym : 1 - v * v * v * (v * (v * 6 - 15) + 10)
                   == (1 - v) * (1 - v) * (1 - v) * ((1 - v) * ((1 - v) * 6 - 15) + 10))
      by ring.
    pose proof (Qmult_lt_0_compat _ _ Hw3 Hq') as Hp.
    rewrite <- Hsym in Hp. lra.
Qed.

(** ** Region strength (transition window of 400 ms) *)

(** Inside the extended window the strength is the smaller of the two fades. *)
Lemma computeRegionStrength_in_window r t :
  startMs r - 400 <= t -> t <= endMs r + 400 ->
  ZoomRegionUtils.computeRegionStrength r t
  = Js.min (smootherStep ((t - (startMs r - 400)) / 400))
           (smootherStep ((endMs r + 400 - t) / 400)).
Proof.
  intros H1 H2. unfold ZoomRegionUtils.computeRegionStrength. cbv zeta.
  unfold ZoomRegionUtils.TRANSITION_WINDOW_MS.
  rewrite (proj2 (ltb_false _ _) H1).
  unfold Js.gtb. now rewrite (proj2 (ltb_false _ _) H2).
Qed.

(** C2, as stated, fails: for the region [1000,3000] the strength at time
    1000 is not strictly partial. *)
Lemma strength_at_start_counterexample :
  let region := mkRegion "r" 1000 3000 Depth3 (mkFocus (1#2) (1#2)) None in
  ~ (ZoomRegionUtils.computeRegionStrength region 600 == 0
     /\ (0 < ZoomRegionUtils.computeRegionStrength region 1000
         /\ ZoomRegionUtils.computeRegionStrength region 1000 < 1)
     /\ ZoomRegionUtils.computeRegionStrength region 2000 == 1
     /\ ZoomRegionUtils.computeRegionStrength region 3400 == 0).
Proof.
  intros region (_ & (_ & H) & _). vm_compute in H. discriminate H.
Qed.

(** C2, amended: for a region with [startMs = 1000], [endMs = 3000] and the
    400 ms window, the strength is 0 at 600, exactly 1 at 1000 (the fade-in
    ends at [startMs]), 1 at 2000 and 0 at 3400; it is strictly partial
    inside the fade-in, at every time after 600 and up to 999, one
    millisecond before [startMs]. *)
Theorem strength_profile_1000_3000 :
  forall region : ZoomRegion,
    startMs region == 1000 -> endMs region == 3000 ->
    ZoomRegionUtils.computeRegionStrength region 600 == 0
    /\ ZoomRegionUtils.computeRegionStrength region 1000 == 1
    /\ ZoomRegionUtils.computeRegionStrength region 2000 == 1
    /\ ZoomRegionUtils.computeRegionStrength region 3400 == 0
    /\ (forall t, 600 < t -> t <= 999 ->
          0 < ZoomRegionUtils.computeRegionStrength region t
          /\ ZoomRegionUtils.computeRegionStrength region t < 1).
Proof.
  intros r Hs He.
  split; [|split; [|split; [|split]]].
  1-4: rewrite computeRegionStrength_in_window by lra;
       rewrite Hs, He; vm_compute; reflexivity.
  intros t Ht1 Ht2.
  rewrite computeRegionStrength_in_window by lra.
  rewrite Hs, He.
  rewrite (smootherStep_above ((3000 + 400 - t) / 400))
    by (apply Qle_shift_div_l; [reflexivity | lra]).
  destruct (smootherStep_partial ((t - (1000 - 400)) / 400)).
  - apply Qlt_shift_div_l; [reflexivity | lra].
  - apply Qlt_shift_div_r; [reflexivity | lra].
  - js_cases; lra.
Qed.

Lemma strength_profile_1000_3000_witness :
  let region := mkRegion "r" 1000 3000 Depth3 (mkFocus (1#2) (1#2)) None in
  ZoomRegionUtils.computeRegionStrength region 600 == 0
  /\ ZoomRegionUtils.computeRegionStrength region 1000 == 1
  /\ ZoomRegionUtils.computeRegionStrength region 2000 == 1
  /\ ZoomRegionUtils.computeRegionStrength region 3400 == 0
  /\ (forall t, 600 < t -> t <= 999 ->
        0 < ZoomRegionUtils.computeRegionStrength region t
        /\ ZoomRegionUtils.computeRegionStrength region t < 1).
Proof.
  apply (strength_profile_1000_3000
           (mkRegion "r" 1000 3000 Depth3 (mkFocus (1#2) (1#2)) None));
    reflexivity.
Defined.

(** ** Region merge *)

Lemma overlapsRegion_spec a m : overlapsRegion a m = true <-> overlaps a m.
Proof.
  unfold overlapsRegion, overlaps. rewrite negb_true_iff, orb_false_iff.
  unfold Js.geb. rewrite !leb_false. split.
  - intros [H1 H2] [H|H]; lra.
  - intros H. split.
    + destruct (Qlt_le_dec (startMs m) (endMs a)); [assumption | tauto].
    + destruct (Qlt_le_dec (startMs a) (endMs m)); [assumption | exfalso].
      apply H. right. assumption.
Qed.

Lemma overlapsManual_false manual a :
  overlapsManual manual a = false <-> forall m, In m manual -> ~ overlaps a m.
Proof.
  unfold overlapsManual. split.
  - intros H m Hm Ho. apply overlapsRegion_spec in Ho.
    assert (existsb (overlapsRegion a) manual = true)
      by (apply existsb_exists; eauto).
    congruence.
  - intros H. destruct (existsb (overlapsRegion a) manual) eqn:E; [|reflexivity].
    apply existsb_exists in E. destruct E as (m & Hm & Ho).
    apply overlapsRegion_spec in Ho. now apply H in Ho.
Qed.

Lemma insertByStart_perm a l : Permutation (insertByStart a l) (a :: l).
Proof.
  induction l as [|b l IH]; cbn; [reflexivity|].
  destruct (Js.leb (startMs a - startMs b) 0); [reflexivity|].
  rewrite IH. apply perm_swap.
Qed.

Lemma sortByStart_perm l : Permutation (sortByStart l) l.
Proof.
  induction l as [|a l IH]; cbn; [reflexivity|].
  rewrite insertByStart_perm. now constructor.
Qed.

Lemma insertByStart_sorted a l :
  StronglySorted startsNoLater l -> StronglySorted startsNoLater (insertByStart a l).
Proof.
  induction 1 as [|b l Hl IH Hb]; cbn.
  - repeat constructor.
  - destruct (Js.leb (startMs a - startMs b) 0) eqn:E.
    + apply leb_true in E.
      constructor; [constructor; assumption|].
      constructor; [unfold startsNoLater; lra|].
      eapply Forall_impl; [|exact Hb].
      unfold startsNoLater. intros c Hc. lra.
    + apply leb_false in E.
      constructor; [assumption|].
      eapply Permutation_Forall; [symmetry; apply insertByStart_perm|].
      constructor; [unfold startsNoLater; lra | assumption].
Qed.

Lemma sortByStart_sorted l : StronglySorted startsNoLater (sortByStart l).
Proof.
  induction l as [|a l IH]; cbn; [constructor | now apply insertByStart_sorted].
Qed.

(** C7: [mergeZoomRegions] returns, up to order, the manual regions followed
    by the auto regions it keeps; an auto region is kept exactly when it
    overlaps no manual region; the result is in ascending [startMs] order;
    and an auto region [0,2000] merged with a manual region [500,1500] gives
    the manual region alone. *)
Theorem mergeZoomRegions_spec :
  forall autoRegions manualRegions : list ZoomRegion,
    let kept := filter (fun a => negb (overlapsManual manualRegions a)) autoRegions in
    Permutation (mergeZoomRegions autoRegions manualRegions) (manualRegions ++ kept)
    /\ (forall a, In a kept <->
                  In a autoRegions /\ forall m, In m manualRegions -> ~ overlaps a m)
    /\ StronglySorted startsNoLater (mergeZoomRegions autoRegions manualRegions)
    /\ (forall ia im da dm fa fm ka km,
          let auto := mkRegion ia 0 2000 da fa ka in
          let manual := mkRegion im 500 1500 dm fm km in
          mergeZoomRegions [auto] [manual] = [manual]).
Proof.
  intros autoRegions manualRegions kept.
  split; [|split; [|split]].
  - apply sortByStart_perm.
  - intros a. unfold kept. rewrite filter_In, negb_true_iff, overlapsManual_false.
    tauto.
  - apply sortByStart_sorted.
  - reflexivity.
Qed.

(** ** Convergence of the per-tick smoothing *)

Section Smoothing.
Import VideoPlayback.

Lemma MIN_DELTA_pos : 0 < MIN_DELTA.
Proof. reflexivity. Qed.

Lemma SMOOTHING_FACTOR_range : 0 < SMOOTHING_FACTOR /\ SMOOTHING_FACTOR < 1.
Proof. split; reflexivity. Qed.

(** Within [MIN_DELTA] of the target, a tick lands on the target itself. *)
Lemma smoothComponent_snap prev target :
  Js.abs (target - prev) <= MIN_DELTA -> smoothComponent prev target = target.
Proof.
  intros H. unfold smoothComponent. cbv zeta.
  unfold Js.gtb. now rewrite (proj2 (ltb_false _ _) H).
Qed.

(** Further away, a tick closes [SMOOTHING_FACTOR] of the gap. *)
Lemma smoothComponent_move prev target :
  MIN_DELTA < Js.abs (target - prev) ->
  smoothComponent prev target = prev + (target - prev) * SMOOTHING_FACTOR.
Proof.
  intros H. unfold smoothComponent. cbv zeta.
  unfold Js.gtb. now rewrite (proj2 (ltb_true _ _) H).
Qed.

(** On the target every tick is the identity. *)
Lemma scaleAfter_fixed n target : scaleAfter n target target = target.
Proof.
  induction n as [|n IH]; cbn [scaleAfter]; [reflexivity|].
  rewrite smoothComponent_snap; [exact IH|].
  pose proof MIN_DELTA_pos. js_cases; lra.
Qed.

(** The component of the state that [ticks] drives is [scaleAfter]. *)
Lemma ticks_scale n target state :
  scale (ticks n target state)
  = scaleAfter n (targetScaleFactor target) (scale state).
Proof.
  revert state. induction n as [|n IH]; intros state; cbn [ticks scaleAfter].
  - reflexivity.
  - now rewrite IH.
Qed.

(** While it moves, the gap shrinks by at least
    [SMOOTHING_FACTOR * MIN_DELTA] per tick, so a gap of at most [k] such
    units is closed after at most [k + 1] ticks. *)
Lemma scaleAfter_reaches (k : nat) :
  forall target current,
    Js.abs (target - current)
      <= inject_Z (Z.of_nat k) * (SMOOTHING_FACTOR * MIN_DELTA) ->
    exists N,
      Js.abs (scaleAfter N target current - target) < MIN_DELTA
      /\ forall n, (N < n)%nat -> scaleAfter n target current = target.
Proof.
  pose proof MIN_DELTA_pos as Hd.
  pose proof SMOOTHING_FACTOR_range as [Hf0 Hf1].
  assert (Hsnap : forall target current,
             Js.abs (target - current) <= MIN_DELTA ->
             exists N,
               Js.abs (scaleAfter N target current - target) < MIN_DELTA
               /\ forall n, (N < n)%nat -> scaleAfter n target current = target).
  { intros target current H. exists 1%nat. cbn [scaleAfter].
    rewrite (smoothComponent_snap _ _ H). split.
    - js_cases; lra.
    - intros [|n] Hn; [lia|]. cbn [scaleAfter].
      rewrite (smoothComponent_snap _ _ H). apply scaleAfter_fixed. }
  induction k as [|k IH]; intros target current Hk.
  - apply Hsnap. change (inject_Z (Z.of_nat 0)) with 0 in Hk. lra.
  - destruct (Qlt_le_dec MIN_DELTA (Js.abs (target - current))) as [Hfar|Hnear];
      [|now apply Hsnap].
    destruct (IH target (smoothComponent current target)) as (N & HN1 & HN2).
    + rewrite (smoothComponent_move _ _ Hfar).
      rewrite Nat2Z.inj_succ, <- Z.add_1_r, inject_Z_plus in Hk.
      change (inject_Z 1) with 1 in Hk.
      set (u := inject_Z (Z.of_nat k)) in *.
      set (f := SMOOTHING_FACTOR) in *. set (m := MIN_DELTA) in *.
      assert (Hc : f * m < f * Js.abs (target - current))
        by (apply Qmult_lt_l; assumption).
      assert (Hgap : Js.abs (target - (current + (target - current) * f))
                     == Js.abs (target - current) - f * Js.abs (target - current)).
      { assert (Hprod : 0 <= (1 - f) * Js.abs (target - current))
          by (apply Qmult_le_0_compat; [lra | js_cases; lra]).
        js_cases; nra. }
      rewrite Hgap. lra.
    + exists (S N). cbn [scaleAfter]. split; [exact HN1|].
      intros [|n] Hn; [lia|]. cbn [scaleAfter]. apply HN2. lia.
Qed.

(** Every gap is at most some number of such units. *)
Lemma gap_units (g : Q) :
  exists k : nat, g <= inject_Z (Z.of_nat k) * (SMOOTHING_FACTOR * MIN_DELTA).
Proof.
  set (c := SMOOTHING_FACTOR * MIN_DELTA).
  assert (Hc : 0 < c) by reflexivity.
  exists (Z.to_nat (Qceiling (g / c))).
  destruct (Qlt_le_dec g 0) as [Hneg|Hpos].
  - assert (0 <= inject_Z (Z.of_nat (Z.to_nat (Qceiling (g / c)))) * c).
    { apply Qmult_le_0_compat; [|lra].
      change 0 with (inject_Z 0). rewrite <- Zle_Qle. lia. }
    lra.
  - assert (Hq : 0 <= g / c) by (apply Qle_shift_div_l; lra).
    assert (Hz : (0 <= Qceiling (g / c))%Z).
    { rewrite Zle_Qle. pose proof (Qle_ceiling (g / c)). 
      change (inject_Z 0) with 0. lra. }
    rewrite Z2Nat.id by exact Hz.
    pose proof (Qle_ceiling (g / c)) as Hceil.
    apply Qle_trans with (g / c * c).
    * assert (Hg : g / c * c == g) by (field; lra). lra.
    * apply Qmult_le_compat_r; [exact Hceil | lra].
Qed.

End Smoothing.

(** C8: for every target held constant and every starting state, after
    finitely many ticks the scale is within [MIN_DELTA] of the target scale,
    and at every later tick it is exactly the target scale. *)
Theorem ticker_scale_converges :
  forall (target : VideoPlayback.TickTarget) (state : VideoPlayback.AnimationState),
  exists N : nat,
    Js.abs (VideoPlayback.scale (VideoPlayback.ticks N target state)
            - VideoPlayback.targetScaleFactor target) < VideoPlayback.MIN_DELTA
    /\ forall n : nat, (N < n)%nat ->
         VideoPlayback.scale (VideoPlayback.ticks n target state)
         = VideoPlayback.targetScaleFactor target.
Proof.
  intros target state.
  destruct (gap_units (Js.abs (VideoPlayback.targetScaleFactor target
                               - VideoPlayback.scale state))) as [k Hk].
  destruct (scaleAfter_reaches k _ _ Hk) as (N & H1 & H2).
  exists N. split.
  - now rewrite ticks_scale.
  - intros n Hn. rewrite ticks_scale. now apply H2.
Qed.

(** ** Keyframe reduction for a stationary cursor *)

Lemma sqrt_geb_false s d : Js.sqrt_geb s d = false <-> 0 < d /\ s < d * d.
Proof.
  unfold Js.sqrt_geb. rewrite orb_false_iff, !leb_false. reflexivity.
Qed.

(** Moves that stay close to the last keyframe add nothing in the
    sampling loop. *)
Lemma sampleMoves_close cfg zoomStartMs f moves :
  Forall (fun m => closerThan (clampedFocus m) f (keyframeMinDistance cfg)) moves ->
  forall keyframes lastSampleTime,
    sampleMoves cfg zoomStartMs moves keyframes f lastSampleTime = keyframes.
Proof.
  induction 1 as [|m moves Hm _ IH]; intros keyframes lastSampleTime;
    cbn [sampleMoves]; [reflexivity|].
  destruct (Js.ltb _ _); [apply IH|].
  cbv zeta. rewrite (proj2 (sqrt_geb_false _ _) Hm). apply IH.
Qed.

(** With a single keyframe at offset 0, a settled last move adds no
    trailing keyframe. *)
Lemma addFinalPosition_settled cfg zoomStartMs f moves lastMove :
  timestamp lastMove - zoomStartMs <= 50
  \/ closerThan (clampedFocus lastMove) f (keyframeMinDistance cfg * (1#2)) ->
  addFinalPosition cfg zoomStartMs (moves ++ [lastMove]) [mkKeyframe 0 f]
  = [mkKeyframe 0 f].
Proof.
  intros H. unfold addFinalPosition.
  rewrite rev_app_distr. cbn [rev app timeOffsetMs kfFocus].
  destruct (Js.gtb _ _) eqn:E; [|reflexivity].
  cbv zeta. destruct H as [H|H].
  - unfold Js.gtb in E. apply ltb_true in E. exfalso. lra.
  - now rewrite (proj2 (sqrt_geb_false _ _) H).
Qed.

Lemma generateFocusKeyframes_stationary cfg evs click zoomEnd :
  movesWithinMinDistance cfg evs click zoomEnd ->
  lastMoveSettled cfg evs click zoomEnd ->
  generateFocusKeyframes evs (timestamp click) zoomEnd (clampedFocus click) cfg
  = [mkKeyframe 0 (clampedFocus click)].
Proof.
  unfold movesWithinMinDistance, lastMoveSettled, generateFocusKeyframes.
  intros Hclose Hlast. cbv zeta.
  destruct (filter _ evs) as [|m ms] eqn:Hf; [reflexivity|].
  rewrite sampleMoves_close by exact Hclose.
  destruct (exists_last (l := m :: ms)) as (moves & lastMove & Heq);
    [discriminate|].
  rewrite Heq. apply addFinalPosition_settled. exact (Hlast moves lastMove Heq).
Qed.

(** Every region the click loop adds is the region of one of its clicks. *)
Lemma zoomLoop_regions cfg evs vd clicks :
  forall regions idCounter lastZoomEndMs r,
    In r (fst (zoomLoop cfg evs vd clicks regions idCounter lastZoomEndMs)) ->
    In r regions
    \/ exists click n,
         In click clicks
         /\ r = regionOfClick cfg evs click (zoomWindowEnd cfg vd click) n.
Proof.
  induction clicks as [|c rest IH]; intros regions idCounter last r Hr.
  - left. exact Hr.
  - destruct (zoomLoop_cases cfg vd c last) as [H|[[H1 H2]|[H1 H2]]].
    + rewrite zoomLoop_debounced in Hr by exact H.
      destruct (IH _ _ _ _ Hr) as [?|(k & n & ? & ?)]; [auto|].
      right. exists k, n. split; [now right | assumption].
    + rewrite zoomLoop_too_short in Hr by assumption.
      destruct (IH _ _ _ _ Hr) as [?|(k & n & ? & ?)]; [auto|].
      right. exists k, n. split; [now right | assumption].
    + rewrite zoomLoop_accepted in Hr by assumption. cbv zeta in Hr.
      destruct (IH _ _ _ _ Hr) as [Hin|(k & n & ? & ?)].
      * apply in_app_or in Hin. destruct Hin as [?|[<-|[]]]; [auto|].
        right. exists c, (idCounter + 1)%Z. split; [now left | reflexivity].
      * right. exists k, n. split; [now right | assumption].
Qed.

(** C4, as stated, fails: a move 0.007 away from the click, 100 ms after
    it, is within [keyframeMinDistance = 0.01] of the initial focus, yet the
    region carries two focus keyframes. *)
Lemma stationary_within_min_distance_counterexample :
  let cursorEvents := [clickAt 0; moveAt 100 (507#1000) (1#2)] in
  let cfg := mergeConfig emptyPartial in
  movesWithinMinDistance cfg cursorEvents (clickAt 0)
    (zoomWindowEnd cfg 10000 (clickAt 0))
  /\ exists r,
       fst (generateAutoZoomRegions cursorEvents 10000 0 emptyPartial) = [r]
       /\ focusKeyframes r <> None.
Proof.
  split.
  - repeat constructor.
  - eexists. split; [vm_compute; reflexivity | discriminate].
Qed.

(** A margin below the threshold puts a focus strictly inside it. *)
Lemma wellWithin_closer a b d : wellWithin a b d -> closerThan a b d.
Proof.
  unfold wellWithin, closerThan. intros [Hd H]. split; [exact Hd|].
  assert (0 < d * d) by (apply Qmult_lt_0_compat; assumption).
  assert (Hsq : (99#100) * d * ((99#100) * d) == (9801#10000) * (d * d)) by ring.
  rewrite Hsq in H. lra.
Qed.

Lemma movesWellWithin_within cfg evs click zoomEnd :
  movesWellWithinMinDistance cfg evs click zoomEnd ->
  movesWithinMinDistance cfg evs click zoomEnd.
Proof.
  unfold movesWellWithinMinDistance, movesWithinMinDistance.
  apply Forall_impl. intros m. apply wellWithin_closer.
Qed.

Lemma lastMoveWellSettled_settled cfg evs click zoomEnd :
  lastMoveWellSettled cfg evs click zoomEnd ->
  lastMoveSettled cfg evs click zoomEnd.
Proof.
  unfold lastMoveWellSettled, lastMoveSettled.
  intros H moves lastMove Heq.
  destruct (H moves lastMove Heq) as [Ht|Hd]; [now left|].
  right. now apply wellWithin_closer.
Qed.

(** C4, amended: every emitted region is the region of a primary click of
    the stream; when all moves in that click's zoom window stay within 99%
    of [keyframeMinDistance] of the initial focus AND the last of them
    comes no later than 50 ms after the click or stays within 99% of half
    of [keyframeMinDistance], the region has no [focusKeyframes].  The
    margin of 1% keeps the moves clear of the rounding of the measured
    distance. *)
Theorem stationary_cursor_no_keyframes :
  forall (cursorEvents : list CursorEvent) (videoDurationMs : Q) (counter : Z)
         (config : PartialAutoZoomConfig) (r : ZoomRegion),
    In r (fst (generateAutoZoomRegions cursorEvents videoDurationMs counter config)) ->
    let cfg := mergeConfig config in
    exists click n,
      In click cursorEvents /\ isPrimaryClick click = true
      /\ r = regionOfClick cfg cursorEvents click
               (zoomWindowEnd cfg videoDurationMs click) n
      /\ (movesWellWithinMinDistance cfg cursorEvents click
            (zoomWindowEnd cfg videoDurationMs click) ->
          lastMoveWellSettled cfg cursorEvents click
            (zoomWindowEnd cfg videoDurationMs click) ->
          focusKeyframes r = None).
Proof.
  intros evs vd counter config r Hr cfg.
  unfold generateAutoZoomRegions in Hr. fold cfg in Hr.
  destruct (filter isPrimaryClick evs) as [|c rest] eqn:Hf; [destruct Hr|].
  apply zoomLoop_regions in Hr. destruct Hr as [[]|(click & n & Hin & ->)].
  rewrite <- Hf in Hin. apply filter_In in Hin. destruct Hin as [Hin Hprim].
  exists click, n. repeat split; try assumption.
  intros Hclose Hlast. unfold regionOfClick. cbv zeta. cbn [focusKeyframes].
  apply movesWellWithin_within in Hclose.
  apply lastMoveWellSettled_settled in Hlast.
  now rewrite (generateFocusKeyframes_stationary _ _ _ _ Hclose Hlast).
Qed.

(** A move 0.003 away from the click, 100 ms after it: within half of the
    minimum distance, so the region has no keyframes. *)
Lemma stationary_cursor_no_keyframes_witness :
  let cursorEvents := [clickAt 0; moveAt 100 (503#1000) (1#2)] in
  let cfg := mergeConfig emptyPartial in
  let r := regionOfClick cfg cursorEvents (clickAt 0) 2000 1 in
  In r (fst (generateAutoZoomRegions cursorEvents 10000 0 emptyPartial))
  /\ focusKeyframes r = None.
Proof.
  intros cursorEvents cfg r.
  assert (Hin : In r (fst (generateAutoZoomRegions cursorEvents 10000 0 emptyPartial)))
    by (left; reflexivity).
  split; [exact Hin|].
  destruct (stationary_cursor_no_keyframes cursorEvents 10000 0 emptyPartial r Hin)
    as (click & n & Hc & Hp & _ & Himp).
  destruct Hc as [<-|[<-|[]]]; [|discriminate Hp].
  apply Himp.
  - repeat constructor. discriminate.
  - intros moves lastMove Heq.
    apply (app_inj_tail [] moves (moveAt 100 (503#1000) (1#2)) lastMove) in Heq.
    destruct Heq as [_ <-]. right. split; [reflexivity | discriminate].
Defined.

(** ** Bound on the spline *)

Lemma hermite_weights t :
  0 <= t -> t <= 1 ->
  0 <= t * ((1 - t) * (1 - t)) /\ 0 <= t * t * (1 - t)
  /\ 0 <= (1 - t) * (1 - t) * (1 + 2 * t) /\ 0 <= t * t * (3 - 2 * t)
  /\ t * (1 - t) <= 1 # 4.
Proof.
  intros H0 H1.
  assert (0 <= 1 - t) by lra.
  repeat split.
  - repeat apply Qmult_le_0_compat; lra.
  - repeat apply Qmult_le_0_compat; lra.
  - repeat apply Qmult_le_0_compat; lra.
  - repeat apply Qmult_le_0_compat; lra.
  - assert (Hsq : 0 <= (t - (1#2)) * (t - (1#2))).
    { destruct (Qlt_le_dec t (1#2)).
      - setoid_replace ((t - (1#2)) * (t - (1#2))) with (((1#2) - t) * ((1#2) - t)) by ring.
        apply Qmult_le_0_compat; lra.
      - apply Qmult_le_0_compat; lra. }
    assert (Hexp : (t - (1#2)) * (t - (1#2)) == (1#4) - t * (1 - t)) by ring.
    lra.
Qed.

Lemma catmullRom_bound p0 p1 p2 p3 t :
  0 <= p0 <= 1 -> 0 <= p1 <= 1 -> 0 <= p2 <= 1 -> 0 <= p3 <= 1 ->
  0 <= t -> t <= 1 ->
  - (1 # 8) <= catmullRomInterpolate p0 p1 p2 p3 t (1 # 2)
  /\ catmullRomInterpolate p0 p1 p2 p3 t (1 # 2) <= 9 # 8.
Proof.
  intros [? ?] [? ?] [? ?] [? ?] Ht0 Ht1.
  destruct (hermite_weights t Ht0 Ht1) as (Ha & Hb & Hc & Hd & He).
  set (a := t * ((1 - t) * (1 - t))) in *.
  set (b := t * t * (1 - t)) in *.
  set (c := (1 - t) * (1 - t) * (1 + 2 * t)) in *.
  set (d := t * t * (3 - 2 * t)) in *.
  assert (Heq : catmullRomInterpolate p0 p1 p2 p3 t (1 # 2)
                == c * p1 + d * p2 + a * ((1#2) * (p2 - p0)) - b * ((1#2) * (p3 - p1)))
    by (unfold catmullRomInterpolate, a, b, c, d; ring).
  assert (Hcd : c + d == 1) by (unfold c, d; ring).
  assert (Hab : a + b == t * (1 - t)) by (unfold a, b; ring).
  rewrite Heq.
  assert (0 <= c * p1 /\ c * p1 <= c) by (split; nra).
  assert (0 <= d * p2 /\ d * p2 <= d) by (split; nra).
  assert (- ((1#2) * a) <= a * ((1#2) * (p2 - p0)) /\ a * ((1#2) * (p2 - p0)) <= (1#2) * a) by (split; nra).
  assert (- ((1#2) * b) <= b * ((1#2) * (p3 - p1)) /\ b * ((1#2) * (p3 - p1)) <= (1#2) * b) by (split; nra).
  split; lra.
Qed.

(** ** Focus interpolation: locating the segment *)

Lemma last_default_irrelevant {A} (a : A) l d d' : last (a :: l) d = last (a :: l) d'.
Proof.
  revert a. induction l as [|b l IH]; intros a; [reflexivity|].
  change (last (b :: l) d = last (b :: l) d'). apply IH.
Qed.

Lemma findCurrentIndex_step k k' rest T i :
  ZoomRegionUtils.findCurrentIndex (k :: k' :: rest) T i
  = if Js.geb T (timeOffsetMs k) && Js.ltb T (timeOffsetMs k')
    then i
    else ZoomRegionUtils.findCurrentIndex (k' :: rest) T (S i).
Proof. reflexivity. Qed.

(** Between the first and the last offset the search loop always stops at
    a pair of neighbours that brackets the time offset, whatever the order
    of the keyframes. *)
Lemma findCurrentIndex_bracket rest :
  forall k T i,
    timeOffsetMs k <= T ->
    T < timeOffsetMs (last (k :: rest) k) ->
    exists j p1 p2,
      ZoomRegionUtils.findCurrentIndex (k :: rest) T i = (i + j)%nat
      /\ nth_error (k :: rest) j = Some p1
      /\ nth_error (k :: rest) (S j) = Some p2
      /\ timeOffsetMs p1 <= T /\ T < timeOffsetMs p2.
Proof.
  induction rest as [|k' rest IH]; intros k T i Hlo Hhi.
  - cbn in Hhi. exfalso. lra.
  - rewrite findCurrentIndex_step.
    unfold Js.geb. rewrite (proj2 (leb_true _ _) Hlo). cbn [andb].
    destruct (Js.ltb T (timeOffsetMs k')) eqn:E.
    + apply ltb_true in E. exists 0%nat, k, k'.
      rewrite Nat.add_0_r. repeat split; trivial.
    + apply ltb_false in E.
      change (last (k :: k' :: rest) k) with (last (k' :: rest) k) in Hhi.
      rewrite (last_default_irrelevant k' rest k k') in Hhi.
      destruct (IH k' T (S i) E Hhi) as (j & p1 & p2 & Hj & H1 & H2 & H3 & H4).
      exists (S j), p1, p2. rewrite Hj. repeat split; trivial. lia.
Qed.

(** Strictly between the first and last offsets, the result is the spline
    through two neighbouring keyframes that bracket the time offset, with
    two further keyframes of the region as outer control points. *)
Lemma interpolate_inside region first rest time :
  focusKeyframes region = Some (first :: rest) ->
  let keyframes := first :: rest in
  let T := time - startMs region in
  timeOffsetMs first < T ->
  T < timeOffsetMs (last keyframes first) ->
  exists j p0 p1 p2 p3,
    In p0 keyframes /\ In p3 keyframes
    /\ nth_error keyframes j = Some p1
    /\ nth_error keyframes (S j) = Some p2
    /\ timeOffsetMs p1 <= T /\ T < timeOffsetMs p2
    /\ ZoomRegionUtils.interpolateFocusFromKeyframes region time
       = let t := (T - timeOffsetMs p1) / (timeOffsetMs p2 - timeOffsetMs p1) in
         Some (mkFocus
                 (catmullRomInterpolate (cx (kfFocus p0)) (cx (kfFocus p1))
                    (cx (kfFocus p2)) (cx (kfFocus p3)) t (1#2))
                 (catmullRomInterpolate (cy (kfFocus p0)) (cy (kfFocus p1))
                    (cy (kfFocus p2)) (cy (kfFocus p3)) t (1#2))).
Proof.
  intros Hkf keyframes T Hlo Hhi.
  destruct (findCurrentIndex_bracket rest first T 0)
    as (j & p1 & p2 & Hj & H1 & H2 & H3 & H4); [lra | exact Hhi |].
  cbn [Nat.add] in Hj. fold keyframes in Hj, H1, H2.
  exists j,
    (if (0 <? j)%nat then nth (j - 1) keyframes p1 else p1), p1, p2,
    (if (j + 2 <? List.length keyframes)%nat then nth (j + 2) keyframes p2 else p2).
  split; [|split].
  - destruct (0 <? j)%nat; [|eapply nth_error_In; exact H1].
    assert (j < List.length keyframes)%nat by (apply nth_error_Some; congruence).
    apply nth_In. lia.
  - destruct (j + 2 <? List.length keyframes)%nat eqn:E;
      [|eapply nth_error_In; exact H2].
    apply nth_In. apply Nat.ltb_lt in E. exact E.
  - repeat split; trivial.
    unfold ZoomRegionUtils.interpolateFocusFromKeyframes.
    rewrite Hkf. cbv zeta. fold keyframes. fold T.
    rewrite (proj2 (leb_false _ _) Hlo).
    unfold Js.geb. rewrite (proj2 (leb_false _ _) Hhi).
    rewrite Hj, Nat.add_1_r, H1, H2.
    assert (Hseg : 0 < timeOffsetMs p2 - timeOffsetMs p1) by lra.
    rewrite (proj2 (leb_false _ _) Hseg). reflexivity.
Qed.

Lemma last_In {A} (a : A) l d : In (last (a :: l) d) (a :: l).
Proof.
  revert a. induction l as [|b l IH]; intros a; [now left|].
  right. change (In (last (b :: l) d) (b :: l)). apply IH.
Qed.

(** At or before the first offset the result is the first keyframe's focus. *)
Lemma interpolate_before region first rest time :
  focusKeyframes region = Some (first :: rest) ->
  time - startMs region <= timeOffsetMs first ->
  ZoomRegionUtils.interpolateFocusFromKeyframes region time = Some (kfFocus first).
Proof.
  intros Hkf H. unfold ZoomRegionUtils.interpolateFocusFromKeyframes.
  rewrite Hkf. cbv zeta. now rewrite (proj2 (leb_true _ _) H).
Qed.

(** At or after the last offset it is the last keyframe's focus. *)
Lemma interpolate_after region first rest time :
  focusKeyframes region = Some (first :: rest) ->
  timeOffsetMs first < time - startMs region ->
  timeOffsetMs (last (first :: rest) first) <= time - startMs region ->
  ZoomRegionUtils.interpolateFocusFromKeyframes region time
  = Some (kfFocus (last (first :: rest) first)).
Proof.
  intros Hkf H1 H2. unfold ZoomRegionUtils.interpolateFocusFromKeyframes.
  rewrite Hkf. cbv zeta. rewrite (proj2 (leb_false _ _) H1).
  unfold Js.geb. now rewrite (proj2 (leb_true _ _) H2).
Qed.

Lemma unitFocus_near f : unitFocus f -> nearUnitFocus f.
Proof. unfold unitFocus, nearUnitFocus. intros [[? ?] [? ?]]. repeat split; lra. Qed.

(** ** Range of the interpolated focus *)

(** C3, as stated, fails: keyframes at x = 1, 0, 0, 1 (all inside the unit
    square) give a negative x halfway between the two middle keyframes. *)
Lemma interpolated_focus_unit_square_counterexample :
  let kf t c := mkKeyframe t (mkFocus c (1#2)) in
  let region := mkRegion "r" 0 300 Depth3 (mkFocus (1#2) (1#2))
                  (Some [kf 0 1; kf 100 0; kf 200 0; kf 300 1]) in
  regionInUnitSquare region
  /\ exists f, ZoomRegionUtils.interpolateFocusFromKeyframes region 150 = Some f
               /\ cx f < 0.
Proof.
  split.
  - unfold regionInUnitSquare, unitFocus. cbn.
    repeat (constructor || split); discriminate.
  - eexists. split; [vm_compute; reflexivity | reflexivity].
Qed.

(** One eighth, with or without slack. *)
Lemma nearUnitFocus_within f :
  nearUnitFocus f -> focusWithin ((1#8) + roundingSlack) f.
Proof.
  unfold nearUnitFocus, focusWithin, roundingSlack.
  intros [[? ?] [? ?]]. repeat split; lra.
Qed.

(** C3, amended: when the static focus and every keyframe focus lie in
    [[0,1]], the interpolation returns a focus at every query time, and both
    of its coordinates leave the unit interval by no more than one eighth
    plus the rounding slack: the spline overshoots, by one eighth at most
    in exact arithmetic. *)
Theorem interpolated_focus_near_unit_square :
  forall (region : ZoomRegion) (time : Q),
    regionInUnitSquare region ->
    exists f,
      ZoomRegionUtils.interpolateFocusFromKeyframes region time = Some f
      /\ focusWithin ((1#8) + roundingSlack) f.
Proof.
  intros region time [Hfocus Hkfs].
  assert (Hnear : exists f,
             ZoomRegionUtils.interpolateFocusFromKeyframes region time = Some f
             /\ nearUnitFocus f);
    [|destruct Hnear as (f & Hf & Hn); exists f; split;
      [exact Hf | now apply nearUnitFocus_within]].
  destruct (focusKeyframes region) as [[|first rest]|] eqn:Hkf.
  - exists (focus region). split; [|now apply unitFocus_near].
    unfold ZoomRegionUtils.interpolateFocusFromKeyframes. now rewrite Hkf.
  - rewrite Forall_forall in Hkfs.
    destruct (Qlt_le_dec (timeOffsetMs first) (time - startMs region)) as [Hlo|Hlo].
    + destruct (Qlt_le_dec (time - startMs region)
                  (timeOffsetMs (last (first :: rest) first))) as [Hhi|Hhi].
      * destruct (interpolate_inside region first rest time Hkf Hlo Hhi)
          as (j & p0 & p1 & p2 & p3 & H0 & H3 & H1 & H2 & Hb1 & Hb2 & Heq).
        apply nth_error_In in H1. apply nth_error_In in H2.
        destruct (Hkfs p0 H0) as [[? ?] [? ?]]. destruct (Hkfs p1 H1) as [[? ?] [? ?]].
        destruct (Hkfs p2 H2) as [[? ?] [? ?]]. destruct (Hkfs p3 H3) as [[? ?] [? ?]].
        eexists. split; [exact Heq|]. cbv zeta.
        set (t := (time - startMs region - timeOffsetMs p1)
                  / (timeOffsetMs p2 - timeOffsetMs p1)).
        assert (Ht0 : 0 <= t) by (apply Qle_shift_div_l; lra).
        assert (Ht1 : t <= 1) by (apply Qle_shift_div_r; lra).
        unfold nearUnitFocus. cbn [cx cy].
        split; apply catmullRom_bound; auto.
      * exists (kfFocus (last (first :: rest) first)).
        split; [now apply interpolate_after|].
        apply unitFocus_near, Hkfs, last_In.
    + exists (kfFocus first).
      split; [now apply (interpolate_before region first rest)|].
      apply unitFocus_near, Hkfs. now left.
  - exists (focus region). split; [|now apply unitFocus_near].
    unfold ZoomRegionUtils.interpolateFocusFromKeyframes. now rewrite Hkf.
Qed.

Lemma interpolated_focus_near_unit_square_witness :
  let kf t c := mkKeyframe t (mkFocus c (1#2)) in
  let region := mkRegion "r" 0 300 Depth3 (mkFocus (1#2) (1#2))
                  (Some [kf 0 1; kf 100 0; kf 200 0; kf 300 1]) in
  regionInUnitSquare region
  /\ exists f, ZoomRegionUtils.interpolateFocusFromKeyframes region 150 = Some f
               /\ focusWithin ((1#8) + roundingSlack) f.
Proof.
  intros kf region.
  assert (H : regionInUnitSquare region).
  { unfold regionInUnitSquare, unitFocus. cbn.
    repeat (constructor || split); discriminate. }
  split; [exact H|].
  exact (interpolated_focus_near_unit_square region 150 H).
Defined.

(** ** The spline passes through its keyframes *)

Lemma catmullRom_at_start p0 p1 p2 p3 tension :
  catmullRomInterpolate p0 p1 p2 p3 0 tension == p1.
Proof. unfold catmullRomInterpolate. cbv zeta. ring. Qed.

(** In strictly increasing order the first keyframe has the least offset... *)
Lemma increasing_first first rest k :
  StronglySorted offsetBefore (first :: rest) ->
  In k (first :: rest) ->
  timeOffsetMs k <= timeOffsetMs first -> k = first.
Proof.
  intros Hs [<-|Hin] Hle; [reflexivity|].
  apply StronglySorted_inv in Hs. destruct Hs as [_ Hall].
  rewrite Forall_forall in Hall. specialize (Hall k Hin).
  unfold offsetBefore in Hall. exfalso. lra.
Qed.

(** ... the last one the greatest ... *)
Lemma increasing_last l :
  StronglySorted offsetBefore l ->
  forall k d, In k l -> timeOffsetMs (last l d) <= timeOffsetMs k -> k = last l d.
Proof.
  induction 1 as [|a l Hs IH Hall]; intros k d Hin Hle; [destruct Hin|].
  destruct l as [|b l]; [destruct Hin as [<-|[]]; reflexivity|].
  change (last (a :: b :: l) d) with (last (b :: l) d) in *.
  destruct Hin as [<-|Hin]; [|now apply IH].
  rewrite Forall_forall in Hall.
  specialize (Hall _ (last_In b l d)). unfold offsetBefore in Hall.
  exfalso. lra.
Qed.

(** ... and no keyframe lies strictly between two neighbours. *)
Lemma increasing_bracket l :
  StronglySorted offsetBefore l ->
  forall j p1 p2 k,
    nth_error l j = Some p1 -> nth_error l (S j) = Some p2 ->
    In k l ->
    timeOffsetMs p1 <= timeOffsetMs k -> timeOffsetMs k < timeOffsetMs p2 ->
    k = p1.
Proof.
  induction 1 as [|a l Hs IH Hall]; intros j p1 p2 k H1 H2 Hin Hlo Hhi;
    [destruct Hin|].
  rewrite Forall_forall in Hall. unfold offsetBefore in Hall.
  destruct j as [|j].
  - cbn in H1, H2. injection H1 as <-.
    destruct Hin as [<-|Hin]; [reflexivity|].
    destruct l as [|b l]; [discriminate|]. cbn in H2. injection H2 as <-.
    destruct Hin as [<-|Hin]; [exfalso; lra|].
    apply StronglySorted_inv in Hs. destruct Hs as [_ Hb].
    rewrite Forall_forall in Hb. specialize (Hb k Hin).
    unfold offsetBefore in Hb. exfalso. lra.
  - cbn in H1, H2.
    destruct Hin as [<-|Hin]; [|now apply (IH j p1 p2)].
    specialize (Hall p1 (nth_error_In _ _ H1)). exfalso. lra.
Qed.

(** C6: for every region with at least two keyframes in strictly increasing
    offset order, the interpolation at [startMs] plus a keyframe's offset
    returns that keyframe's focus, with no residual. *)
Theorem interpolation_through_keyframes :
  forall (region : ZoomRegion) (keyframes : list ZoomFocusKeyframe)
         (k : ZoomFocusKeyframe) (time : Q),
    focusKeyframes region = Some keyframes ->
    (2 <= List.length keyframes)%nat ->
    StronglySorted offsetBefore keyframes ->
    In k keyframes ->
    time == startMs region + timeOffsetMs k ->
    exists f,
      ZoomRegionUtils.interpolateFocusFromKeyframes region time = Some f
      /\ focusEq f (kfFocus k).
Proof.
  intros region keyframes k time Hkf Hlen Hs Hin Htime.
  destruct keyframes as [|first rest]; [destruct Hin|].
  assert (HT : time - startMs region == timeOffsetMs k) by lra.
  destruct (Qlt_le_dec (timeOffsetMs first) (time - startMs region)) as [Hlo|Hlo].
  - destruct (Qlt_le_dec (time - startMs region)
                (timeOffsetMs (last (first :: rest) first))) as [Hhi|Hhi].
    + destruct (interpolate_inside region first rest time Hkf Hlo Hhi)
        as (j & p0 & p1 & p2 & p3 & _ & _ & H1 & H2 & Hb1 & Hb2 & Heq).
      assert (k = p1) as ->
        by (apply (increasing_bracket _ Hs j p1 p2); trivial; lra).
      eexists. split; [exact Heq|]. cbv zeta.
      assert (Ht : (time - startMs region - timeOffsetMs p1)
                   / (timeOffsetMs p2 - timeOffsetMs p1) == 0).
      { unfold Qdiv. rewrite HT. ring. }
      unfold focusEq. cbn [cx cy]. rewrite Ht.
      split; apply catmullRom_at_start.
    + exists (kfFocus (last (first :: rest) first)).
      split; [now apply interpolate_after|].
      rewrite (increasing_last _ Hs k first Hin) by lra.
      split; reflexivity.
  - exists (kfFocus first).
    split; [now apply (interpolate_before region first rest)|].
    rewrite (increasing_first first rest k Hs Hin) by lra.
    split; reflexivity.
Qed.

(** The middle keyframe of three, reached through the spline branch. *)
Lemma interpolation_through_keyframes_witness :
  let k0 := mkKeyframe 0 (mkFocus (1#4) (1#4)) in
  let k1 := mkKeyframe 500 (mkFocus (3#4) (1#3)) in
  let k2 := mkKeyframe 900 (mkFocus (1#5) (4#5)) in
  let region := mkRegion "r" 1000 3000 Depth3 (mkFocus (1#4) (1#4))
                  (Some [k0; k1; k2]) in
  exists f,
    ZoomRegionUtils.interpolateFocusFromKeyframes region 1500 = Some f
    /\ focusEq f (kfFocus k1).
Proof.
  intros k0 k1 k2 region.
  apply (interpolation_through_keyframes region [k0; k1; k2] k1 1500).
  - reflexivity.
  - cbn. lia.
  - repeat constructor.
  - right. left. reflexivity.
  - reflexivity.
Defined.

(** ** Cursor overlay: the click flag *)

Section ClickFlag.
Import CursorOverlay.

(** A click noted by the scan stays noted. *)
Lemma scanEvents_keeps_click evs t :
  forall b c, isSome c = true -> isSome (snd (scanEvents evs t b c)) = true.
Proof.
  induction evs as [|e evs IH]; intros b c Hc; cbn [scanEvents]; [exact Hc|].
  cbv zeta.
  destruct (isClickEvent e && Js.ltb (Js.abs (timestamp e - t)) 300);
    destruct (Js.leb (timestamp e) t); try apply IH; trivial.
Qed.

(** A click within the tolerance is noted when no event before it is
    later than the query time. *)
Lemma scanEvents_finds_click pre c post t :
  Forall (fun e => timestamp e <= t) pre ->
  isClickEvent c = true -> Js.abs (timestamp c - t) < 300 ->
  forall b k, isSome (snd (scanEvents (pre ++ c :: post) t b k)) = true.
Proof.
  intros Hpre Hc Ht.
  induction Hpre as [|e pre He _ IH]; intros b k; cbn [app scanEvents]; cbv zeta.
  - rewrite Hc, (proj2 (ltb_true _ _) Ht). cbn [andb].
    destruct (Js.leb (timestamp c) t); [|reflexivity].
    now apply scanEvents_keeps_click.
  - rewrite (proj2 (leb_true _ _) He). apply IH.
Qed.

(** The scan of a non-empty list finds an event on one side at least. *)
Lemma scanEvents_some_side evs t :
  forall b c,
    evs <> [] \/ b <> None ->
    let '(b', a', _) := scanEvents evs t b c in b' <> None \/ a' <> None.
Proof.
  induction evs as [|e evs IH]; intros b c H; cbn [scanEvents]; cbv zeta.
  - destruct H as [H|H]; [congruence | now left].
  - destruct (Js.leb (timestamp e) t).
    + apply IH. right. discriminate.
    + right. discriminate.
Qed.

(** On a non-empty list a position is returned, and its flag says whether
    the scan noted a click. *)
Lemma getCursorPositionAtTime_flag evs t :
  evs <> [] ->
  exists p,
    getCursorPositionAtTime evs t = Some p
    /\ isClick p = isSome (snd (scanEvents evs t None None)).
Proof.
  intros Hne. unfold getCursorPositionAtTime.
  destruct evs as [|e evs]; [congruence|].
  pose proof (scanEvents_some_side (e :: evs) t None None (or_introl Hne)) as Hs.
  destruct (scanEvents (e :: evs) t None None) as [[b a] c].
  cbn [snd].
  destruct b as [b|], a as [a|]; cbv zeta.
  - destruct (Qeq_bool _ _); eexists; split; reflexivity.
  - eexists; split; reflexivity.
  - eexists; split; reflexivity.
  - destruct Hs; congruence.
Qed.

(** The part of C5 the code delivers: a click within the tolerance sets
    the flag when no event listed before it is later than the query time. *)
Lemma getCursorPositionAtTime_click_reached pre c post t :
  Forall (fun e => timestamp e <= t) pre ->
  isClickEvent c = true -> Js.abs (timestamp c - t) < 300 ->
  exists p,
    getCursorPositionAtTime (pre ++ c :: post) t = Some p /\ isClick p = true.
Proof.
  intros Hpre Hc Ht.
  destruct (getCursorPositionAtTime_flag (pre ++ c :: post) t) as (p & Hp & Hf).
  - destruct pre; discriminate.
  - exists p. split; [exact Hp|].
    rewrite Hf. now apply scanEvents_finds_click.
Qed.

End ClickFlag.

(** C5 fails on the code: with moves at 0 and 100 and a click at 200, the
    click is within 300 ms of the query time 50, but the scan stops at the
    move at 100, the first event later than 50, and the returned position
    has [isClick = false]. *)
Theorem click_behind_later_event_missed :
  let cursorEvents := [moveAt 0 (1#4) (1#4); moveAt 100 (1#2) (1#2); clickAt 200] in
  (exists e, In e cursorEvents /\ isClickEvent e = true
             /\ Js.abs (timestamp e - 50) < 300)
  /\ exists p, CursorOverlay.getCursorPositionAtTime cursorEvents 50 = Some p
               /\ CursorOverlay.isClick p = false.
Proof.
  split.
  - exists (clickAt 200). repeat split. right. right. left. reflexivity.
  - eexists. split; [vm_compute; reflexivity | reflexivity].
Qed.

(** ** Recording statistics *)

(** Within the argument limit the function returns its statistics. *)
Lemma analyzeCursorEvents_within argumentLimit events :
  (List.length events <= argumentLimit)%nat ->
  analyzeCursorEvents argumentLimit events = Some (statsOf events).
Proof.
  intros H. unfold analyzeCursorEvents, statsOf, spreadMax. cbv zeta.
  destruct events as [|e es]; [reflexivity|].
  change (timestamp e :: map timestamp es) with (map timestamp (e :: es)).
  rewrite length_map.
  rewrite (proj2 (Nat.leb_le _ _) H). reflexivity.
Qed.

(** Beyond it the spread call throws, and nothing is returned. *)
Lemma analyzeCursorEvents_beyond argumentLimit events :
  (argumentLimit < List.length events)%nat ->
  analyzeCursorEvents argumentLimit events = None.
Proof.
  intros H. unfold analyzeCursorEvents, spreadMax. cbv zeta.
  destruct events as [|e es]; [cbn in H; lia|].
  change (timestamp e :: map timestamp es) with (map timestamp (e :: es)).
  rewrite length_map.
  now rewrite (proj2 (Nat.leb_gt _ _) H).
Qed.

(** X1: for a stream within the engine's argument limit,
    [analyzeCursorEvents] returns statistics whose three counters partition
    the stream: they add up to the number of events. *)
Theorem analyzeCursorEvents_counts_partition :
  forall (argumentLimit : nat) (events : list CursorEvent),
    (List.length events <= argumentLimit)%nat ->
    exists stats,
      analyzeCursorEvents argumentLimit events = Some stats
      /\ (totalClicks stats + totalMoves stats + totalScrolls stats
          = List.length events)%nat.
Proof.
  intros argumentLimit events Hlen.
  exists (statsOf events). split; [now apply analyzeCursorEvents_within|].
  clear Hlen. unfold statsOf. cbv zeta. cbn [totalClicks totalMoves totalScrolls].
  induction events as [|e events IH]; [reflexivity|].
  cbn [filter]. unfold isClickEvent, isMoveEvent, isScrollEvent in *.
  destruct (type e); cbn [List.length]; lia.
Qed.

Lemma analyzeCursorEvents_counts_partition_witness :
  exists stats,
    analyzeCursorEvents 4
      [clickAt 100; moveAt 150 0 0; clickAt 400; moveAt 500 0 0] = Some stats
    /\ (totalClicks stats + totalMoves stats + totalScrolls stats = 4)%nat.
Proof.
  apply (analyzeCursorEvents_counts_partition 4
           [clickAt 100; moveAt 150 0 0; clickAt 400; moveAt 500 0 0]).
  cbn. lia.
Defined.

Lemma clickIntervals_length a l :
  List.length (clickIntervals (a :: l)) = List.length l.
Proof.
  revert a. induction l as [|b l IH]; intros a; [reflexivity|].
  change (clickIntervals (a :: b :: l))
    with ((timestamp b - timestamp a) :: clickIntervals (b :: l)).
  cbn [List.length]. now rewrite IH.
Qed.

(** The intervals telescope. *)
Lemma clickIntervals_sum a l acc :
  fold_left (fun x y => x + y) (clickIntervals (a :: l)) acc
  == acc + (timestamp (last l a) - timestamp a).
Proof.
  revert a acc. induction l as [|b l IH]; intros a acc.
  - cbn. ring.
  - change (clickIntervals (a :: b :: l))
      with ((timestamp b - timestamp a) :: clickIntervals (b :: l)).
    cbn [fold_left]. rewrite IH.
    replace (last (b :: l) a) with (last l b).
    + ring.
    + clear. revert b. induction l as [|c l IH]; intros b; [reflexivity|].
      change (last (c :: l) b = last (c :: l) a). apply last_default_irrelevant.
Qed.

(** X2: for a stream within the engine's argument limit, stamped in whole
    milliseconds and with at least two clicks, the returned
    [avgClickInterval] is the time from the first click to the last one
    divided by the number of gaps; the timestamps of the clicks in between
    do not matter. *)
Theorem analyzeCursorEvents_avg_telescopes :
  forall (argumentLimit : nat) (events : list CursorEvent)
         (first second : CursorEvent) (rest : list CursorEvent),
    (List.length events <= argumentLimit)%nat ->
    Forall (fun e => wholeMs (timestamp e)) events ->
    filter isClickEvent events = first :: second :: rest ->
    exists stats,
      analyzeCursorEvents argumentLimit events = Some stats
      /\ avgClickInterval stats
         == (timestamp (last (second :: rest) first) - timestamp first)
            / inject_Z (Z.of_nat (List.length (second :: rest))).
Proof.
  intros argumentLimit events first second rest Hlen _ Hf.
  exists (statsOf events). split; [now apply analyzeCursorEvents_within|].
  unfold statsOf. cbv zeta. cbn [avgClickInterval].
  rewrite Hf. cbn [List.length Nat.ltb Nat.leb].
  rewrite clickIntervals_sum, clickIntervals_length.
  cbn [List.length].
  setoid_replace (0 + (timestamp (last (second :: rest) first) - timestamp first))
    with (timestamp (last (second :: rest) first) - timestamp first) by ring.
  reflexivity.
Qed.

Lemma analyzeCursorEvents_avg_telescopes_witness :
  exists stats,
    analyzeCursorEvents 1000
      [clickAt 100; moveAt 150 0 0; clickAt 400; clickAt 1000] = Some stats
    /\ avgClickInterval stats == (1000 - 100) / 2.
Proof.
  apply (analyzeCursorEvents_avg_telescopes 1000
           [clickAt 100; moveAt 150 0 0; clickAt 400; clickAt 1000]
           (clickAt 100) (clickAt 400) [clickAt 1000]).
  - apply Nat.leb_le. reflexivity.
  - repeat constructor.
  - reflexivity.
Defined.

Lemma maxOf_upper rest :
  forall first,
    first <= maxOf first rest /\ Forall (fun v => v <= maxOf first rest) rest.
Proof.
  unfold maxOf. induction rest as [|v rest IH]; intros first; cbn [fold_left].
  - split; [lra | constructor].
  - destruct (IH (Js.max first v)) as [H1 H2].
    assert (first <= Js.max first v /\ v <= Js.max first v) as [? ?]
      by (js_cases; lra).
    split; [lra|]. constructor; [lra | exact H2].
Qed.

Lemma maxOf_attained rest :
  forall first, maxOf first rest = first \/ In (maxOf first rest) rest.
Proof.
  unfold maxOf. induction rest as [|v rest IH]; intros first; cbn [fold_left].
  - now left.
  - destruct (IH (Js.max first v)) as [H|H]; [|right; now right].
    rewrite H. unfold Js.max. destruct (Qlt_le_dec first v); [right|]; now left.
Qed.

(** X3: for a non-empty stream within the engine's argument limit, the
    returned [recordingDuration] is the timestamp of one of the events and
    no event has a later timestamp, whatever the order of the stream. *)
Theorem analyzeCursorEvents_duration_is_latest :
  forall (argumentLimit : nat) (events : list CursorEvent),
    (List.length events <= argumentLimit)%nat ->
    events <> [] ->
    exists stats,
      analyzeCursorEvents argumentLimit events = Some stats
      /\ (exists e, In e events /\ timestamp e = recordingDuration stats)
      /\ forall e, In e events -> timestamp e <= recordingDuration stats.
Proof.
  intros argumentLimit events Hlen Hne.
  exists (statsOf events). split; [now apply analyzeCursorEvents_within|].
  clear Hlen. destruct events as [|e es]; [congruence|].
  unfold statsOf. cbv zeta. cbn [recordingDuration].
  split.
  - destruct (maxOf_attained (map timestamp es) (timestamp e)) as [H|H].
    + exists e. split; [now left | now rewrite H].
    + apply in_map_iff in H. destruct H as (e' & H1 & H2).
      exists e'. split; [now right | exact H1].
  - destruct (maxOf_upper (map timestamp es) (timestamp e)) as [H1 H2].
    intros e' [<-|Hin]; [exact H1|].
    rewrite Forall_forall in H2. apply H2. now apply in_map.
Qed.

Lemma analyzeCursorEvents_duration_is_latest_witness :
  let events := [clickAt 100; moveAt 900 0 0; clickAt 400] in
  exists stats,
    analyzeCursorEvents 1000 events = Some stats
    /\ (exists e, In e events /\ timestamp e = recordingDuration stats)
    /\ forall e, In e events -> timestamp e <= recordingDuration stats.
Proof.
  apply (analyzeCursorEvents_duration_is_latest 1000
           [clickAt 100; moveAt 900 0 0; clickAt 400]).
  - apply Nat.leb_le. reflexivity.
  - discriminate.
Defined.

(** ** Regions built by the synthesizer *)

(** A property of the region of every accepted click holds of every region
    the loop adds. *)
Lemma zoomLoop_Forall cfg evs vd (P : ZoomRegion -> Prop) clicks :
  (forall click n,
      In click clicks ->
      300 <= zoomWindowEnd cfg vd click - timestamp click ->
      P (regionOfClick cfg evs click (zoomWindowEnd cfg vd click) n)) ->
  forall regions idCounter lastZoomEndMs,
    Forall P regions ->
    Forall P (fst (zoomLoop cfg evs vd clicks regions idCounter lastZoomEndMs)).
Proof.
  induction clicks as [|c rest IH]; intros HP regions n last Hall; [exact Hall|].
  assert (HP' : forall click n,
             In click rest ->
             300 <= zoomWindowEnd cfg vd click - timestamp click ->
             P (regionOfClick cfg evs click (zoomWindowEnd cfg vd click) n))
    by (intros; apply HP; [now right | assumption]).
  destruct (zoomLoop_cases cfg vd c last) as [H|[[H1 H2]|[H1 H2]]].
  - rewrite zoomLoop_debounced by exact H. now apply IH.
  - rewrite zoomLoop_too_short by assumption. now apply IH.
  - rewrite zoomLoop_accepted by assumption. cbv zeta. apply IH; [exact HP'|].
    apply Forall_app. split; [exact Hall|].
    constructor; [|constructor]. apply HP; [now left | exact H2].
Qed.

Lemma generateAutoZoomRegions_Forall (P : ZoomRegion -> Prop) evs vd counter config :
  (forall click n,
      In click evs -> isPrimaryClick click = true ->
      300 <= zoomWindowEnd (mergeConfig config) vd click - timestamp click ->
      P (regionOfClick (mergeConfig config) evs click
           (zoomWindowEnd (mergeConfig config) vd click) n)) ->
  Forall P (fst (generateAutoZoomRegions evs vd counter config)).
Proof.
  intros HP. unfold generateAutoZoomRegions. cbv zeta.
  destruct (filter isPrimaryClick evs) as [|c rest] eqn:Hf; [constructor|].
  apply zoomLoop_Forall; [|constructor].
  intros click n Hin Hlen. rewrite <- Hf in Hin. apply filter_In in Hin.
  destruct Hin. now apply HP.
Qed.

Lemma Qfloor_unique x z :
  inject_Z z <= x -> x < inject_Z (z + 1) -> Qfloor x = z.
Proof.
  intros H1 H2.
  pose proof (Qfloor_le x) as H3. pose proof (Qlt_floor x) as H4.
  assert (inject_Z z < inject_Z (Qfloor x + 1)) as H5 by lra.
  assert (inject_Z (Qfloor x) < inject_Z (z + 1)) as H6 by lra.
  rewrite <- Zlt_Qlt in H5, H6. lia.
Qed.

(** Rounding commutes with adding an integer. *)
Lemma round_add_integer a z : Js.round (a + inject_Z z) == Js.round a + inject_Z z.
Proof.
  unfold Js.round. rewrite <- inject_Z_plus.
  rewrite (Qfloor_unique (a + inject_Z z + (1#2)) (Qfloor (a + (1#2)) + z));
    [reflexivity | |].
  - rewrite inject_Z_plus. pose proof (Qfloor_le (a + (1#2))). lra.
  - rewrite !inject_Z_plus. pose proof (Qlt_floor (a + (1#2))) as H.
    rewrite inject_Z_plus in H. lra.
Qed.

(** X4: every region of [generateAutoZoomRegions] lasts at least 300 ms,
    ends no later than the (rounded) end of the video and has the configured
    depth. *)
Theorem generateAutoZoomRegions_region_bounds :
  forall (cursorEvents : list CursorEvent) (videoDurationMs : Q) (counter : Z)
         (config : PartialAutoZoomConfig),
    Forall (fun r => 300 <= endMs r - startMs r
                     /\ endMs r <= Js.round videoDurationMs
                     /\ depth r = zoomDepth (mergeConfig config))
           (fst (generateAutoZoomRegions cursorEvents videoDurationMs counter config)).
Proof.
  intros evs vd counter config. apply generateAutoZoomRegions_Forall.
  intros click n _ _ Hlen.
  rewrite regionOfClick_startMs, regionOfClick_endMs.
  split; [|split; [|reflexivity]].
  - assert (H : Js.round (timestamp click + inject_Z 300)
                <= Js.round (zoomWindowEnd (mergeConfig config) vd click))
      by (apply round_le_mono; change (inject_Z 300) with 300; lra).
    rewrite round_add_integer in H. change (inject_Z 300) with 300 in H. lra.
  - apply round_le_mono. unfold zoomWindowEnd. js_cases; lra.
Qed.

(** *** Identifiers *)

Lemma autoZoomId_injective a b : autoZoomId a = autoZoomId b -> a = b.
Proof.
  unfold autoZoomId. cbn [String.append]. intros H.
  repeat (injection H as H).
  assert (Hi : Some (Z.to_int a) = Some (Z.to_int b))
    by (rewrite <- !DecimalString.NilEmpty.isi; now rewrite H).
  injection Hi as Hi.
  rewrite <- (DecimalZ.of_to a), <- (DecimalZ.of_to b). now rewrite Hi.
Qed.

Lemma autoZoomIds_succ c n :
  autoZoomIds c (S n) = autoZoomId (c + 1) :: autoZoomIds (c + 1) n.
Proof.
  unfold autoZoomIds. cbn [seq map]. f_equal.
  rewrite <- seq_shift, map_map. apply map_ext. intros i.
  f_equal. lia.
Qed.

(** The loop numbers the regions it adds consecutively. *)
Lemma zoomLoop_ids cfg evs vd clicks :
  forall regions idCounter lastZoomEndMs,
    exists added,
      fst (zoomLoop cfg evs vd clicks regions idCounter lastZoomEndMs)
      = regions ++ added
      /\ snd (zoomLoop cfg evs vd clicks regions idCounter lastZoomEndMs)
         = (idCounter + Z.of_nat (List.length added))%Z
      /\ map id added = autoZoomIds idCounter (List.length added).
Proof.
  induction clicks as [|c rest IH]; intros regions n last.
  - exists []. cbn. rewrite app_nil_r. repeat split. lia.
  - destruct (zoomLoop_cases cfg vd c last) as [H|[[H1 H2]|[H1 H2]]].
    + rewrite zoomLoop_debounced by exact H. apply IH.
    + rewrite zoomLoop_too_short by assumption. apply IH.
    + rewrite zoomLoop_accepted by assumption. cbv zeta.
      destruct (IH (regions ++ [regionOfClick cfg evs c
                                  (Js.min (timestamp c + zoomDurationMs cfg) vd)
                                  (n + 1)])
                   (n + 1)%Z
                   (Js.min (timestamp c + zoomDurationMs cfg) vd))
        as (added & E1 & E2 & E3).
      eexists (_ :: added). rewrite E1, E2, <- app_assoc. cbn [app].
      split; [reflexivity|]. split.
      * cbn [List.length]. lia.
      * cbn [List.length map]. rewrite autoZoomIds_succ. now rewrite E3.
Qed.

(** The loop adds at most one region per click. *)
Lemma zoomLoop_length cfg evs vd clicks :
  forall regions idCounter lastZoomEndMs,
    (List.length (fst (zoomLoop cfg evs vd clicks regions idCounter lastZoomEndMs))
     <= List.length regions + List.length clicks)%nat.
Proof.
  induction clicks as [|c rest IH]; intros regions n last.
  - cbn. lia.
  - cbn [List.length].
    destruct (zoomLoop_cases cfg vd c last) as [H|[[H1 H2]|[H1 H2]]].
    + rewrite zoomLoop_debounced by exact H. specialize (IH regions n last). lia.
    + rewrite zoomLoop_too_short by assumption. specialize (IH regions n last). lia.
    + rewrite zoomLoop_accepted by assumption. cbv zeta.
      match goal with
      | |- (List.length (fst (zoomLoop _ _ _ _ ?rs ?k ?l)) <= _)%nat =>
          specialize (IH rs k l); rewrite length_app in IH; cbn [List.length] in IH
      end.
      lia.
Qed.

Lemma generateAutoZoomRegions_length evs vd counter config :
  (List.length (fst (generateAutoZoomRegions evs vd counter config))
   <= List.length evs)%nat.
Proof.
  unfold generateAutoZoomRegions. cbv zeta.
  pose proof (filter_length_le isPrimaryClick evs) as Hf.
  destruct (filter isPrimaryClick evs) as [|c rest]; [cbn; lia|].
  pose proof (zoomLoop_length (mergeConfig config) evs vd (c :: rest) [] counter
                (- minIntervalMs (mergeConfig config))) as H.
  cbn [List.length] in H, Hf |- *. lia.
Qed.

(** X5: when the id counter stays a safe integer through one increment per
    event of the stream, [nextIdCounter] is the starting counter plus the
    number of regions and is a safe integer again; the regions are named
    [auto-zoom-(c+1)], [auto-zoom-(c+2)], ... in order, so no two regions of
    one call share an id. *)
Theorem generateAutoZoomRegions_ids :
  forall (cursorEvents : list CursorEvent) (videoDurationMs : Q) (counter : Z)
         (config : PartialAutoZoomConfig),
    safeCounter counter (List.length cursorEvents) ->
    let result := generateAutoZoomRegions cursorEvents videoDurationMs counter config in
    snd result = (counter + Z.of_nat (List.length (fst result)))%Z
    /\ safeCounter (snd result) 0
    /\ map id (fst result) = autoZoomIds counter (List.length (fst result))
    /\ NoDup (map id (fst result)).
Proof.
  intros evs vd counter config Hsafe result.
  pose proof (generateAutoZoomRegions_length evs vd counter config) as Hlen.
  fold result in Hlen.
  assert (H : snd result = (counter + Z.of_nat (List.length (fst result)))%Z
              /\ map id (fst result) = autoZoomIds counter (List.length (fst result))).
  { subst result. unfold generateAutoZoomRegions. cbv zeta.
    destruct (filter isPrimaryClick evs) as [|c rest].
    - cbn. split; [lia | reflexivity].
    - destruct (zoomLoop_ids (mergeConfig config) evs vd (c :: rest) [] counter
                  (- minIntervalMs (mergeConfig config))) as (added & E1 & E2 & E3).
      rewrite E1, E2. cbn [app]. now split. }
  destruct H as [H1 H2]. split; [exact H1|].
  split; [rewrite H1; unfold safeCounter in *; lia|].
  split; [exact H2|].
  rewrite H2. unfold autoZoomIds.
  apply Finite.Injective_map_NoDup; [|apply seq_NoDup].
  intros i j Hij. apply autoZoomId_injective in Hij. lia.
Qed.

Lemma generateAutoZoomRegions_ids_witness :
  let result :=
    generateAutoZoomRegions [clickAt 0; moveAt 100 0 0; clickAt 5000] 10000 7
      emptyPartial in
  snd result = (7 + Z.of_nat (List.length (fst result)))%Z
  /\ safeCounter (snd result) 0
  /\ map id (fst result) = autoZoomIds 7 (List.length (fst result))
  /\ NoDup (map id (fst result)).
Proof.
  apply (generateAutoZoomRegions_ids
           [clickAt 0; moveAt 100 0 0; clickAt 5000] 10000 7 emptyPartial).
  unfold safeCounter, MAX_SAFE_INTEGER. cbn. lia.
Defined.

(** ** Keyframes built by the synthesizer *)

Lemma moveDuringZoom_window zoomStartMs zoomEndMs m :
  moveDuringZoom zoomStartMs zoomEndMs m = true ->
  zoomStartMs <= timestamp m /\ timestamp m <= zoomEndMs.
Proof.
  unfold moveDuringZoom, Js.geb. rewrite !andb_true_iff, !leb_true. tauto.
Qed.

Lemma clampedFocus_unit e : unitFocus (clampedFocus e).
Proof. unfold unitFocus, clampedFocus. cbn [cx cy]. repeat split; js_cases; lra. Qed.

(** The sampling loop only appends keyframes taken from moves. *)
Lemma sampleMoves_appends cfg zoomStartMs moves :
  forall keyframes f lastSampleTime,
    exists added,
      sampleMoves cfg zoomStartMs moves keyframes f lastSampleTime
      = keyframes ++ added
      /\ Forall (fun k => exists m,
                     In m moves
                     /\ k = mkKeyframe (timestamp m - zoomStartMs) (clampedFocus m))
                added.
Proof.
  induction moves as [|m moves IH]; intros keyframes f lastSampleTime;
    cbn [sampleMoves].
  - exists []. now rewrite app_nil_r.
  - assert (Hweak : forall keyframes f t,
               exists added,
                 sampleMoves cfg zoomStartMs moves keyframes f t = keyframes ++ added
                 /\ Forall (fun k => exists m0,
                                In m0 (m :: moves)
                                /\ k = mkKeyframe (timestamp m0 - zoomStartMs)
                                         (clampedFocus m0)) added).
    { intros kfs f' t. destruct (IH kfs f' t) as (added & E & Hall).
      exists added. split; [exact E|].
      eapply Forall_impl; [|exact Hall].
      intros k (m0 & ? & ?). exists m0. split; [now right | assumption]. }
    destruct (Js.ltb _ _); [apply Hweak|]. cbv zeta.
    destruct (Js.sqrt_geb _ _); [|apply Hweak].
    destruct (Hweak (keyframes ++ [mkKeyframe (timestamp m - zoomStartMs) (clampedFocus m)])
                (clampedFocus m) (timestamp m)) as (added & E & Hall).
    eexists (_ :: added). rewrite E, <- app_assoc. split; [reflexivity|].
    constructor; [|exact Hall]. exists m. split; [now left | reflexivity].
Qed.

Lemma rev_head_last {A} (l : list A) a rest d : rev l = a :: rest -> a = last l d /\ In a l.
Proof.
  intros H. assert (Hl : l = rev rest ++ [a]).
  { rewrite <- (rev_involutive l), H. reflexivity. }
  subst l. split; [now rewrite last_last | apply in_or_app; right; now left].
Qed.

(** The trailing step appends at most one keyframe, taken from the last move. *)
Lemma addFinalPosition_appends cfg zoomStartMs moves keyframes :
  addFinalPosition cfg zoomStartMs moves keyframes = keyframes
  \/ exists lastMove lastKeyframe,
       In lastMove moves
       /\ lastKeyframe = last keyframes lastKeyframe
       /\ In lastKeyframe keyframes
       /\ timeOffsetMs lastKeyframe + 50 < timestamp lastMove - zoomStartMs
       /\ addFinalPosition cfg zoomStartMs moves keyframes
          = keyframes ++ [mkKeyframe (timestamp lastMove - zoomStartMs)
                            (clampedFocus lastMove)].
Proof.
  unfold addFinalPosition.
  destruct (rev moves) as [|lastMove ?] eqn:Em; [now left|].
  destruct (rev keyframes) as [|lastKeyframe ?] eqn:Ek; [now left|].
  destruct (Js.gtb _ _) eqn:E; [|now left]. cbv zeta.
  destruct (Js.sqrt_geb _ _); [|now left].
  right. exists lastMove, lastKeyframe.
  destruct (rev_head_last _ _ _ lastMove Em) as [_ Hm].
  destruct (rev_head_last _ _ _ lastKeyframe Ek) as [Hk1 Hk2].
  unfold Js.gtb in E. apply ltb_true in E.
  repeat split; trivial. lra.
Qed.

(** A property of the first keyframe and of every keyframe taken from a
    move of the window holds of all keyframes. *)
Lemma generateFocusKeyframes_Forall (P : ZoomFocusKeyframe -> Prop)
    evs zoomStartMs zoomEndMs initialFocus cfg :
  P (mkKeyframe 0 initialFocus) ->
  (forall m, In m evs -> moveDuringZoom zoomStartMs zoomEndMs m = true ->
             P (mkKeyframe (timestamp m - zoomStartMs) (clampedFocus m))) ->
  Forall P (generateFocusKeyframes evs zoomStartMs zoomEndMs initialFocus cfg).
Proof.
  intros H0 Hm. unfold generateFocusKeyframes. cbv zeta.
  set (moves := filter (moveDuringZoom zoomStartMs zoomEndMs) evs).
  assert (Hmoves : forall m, In m moves ->
             P (mkKeyframe (timestamp m - zoomStartMs) (clampedFocus m))).
  { intros m Hin. apply filter_In in Hin. destruct Hin. now apply Hm. }
  destruct moves as [|m0 ms] eqn:Em; [repeat constructor; exact H0|].
  rewrite <- Em in *.
  destruct (sampleMoves_appends cfg zoomStartMs moves [mkKeyframe 0 initialFocus]
              initialFocus zoomStartMs) as (added & E & Hall).
  assert (Hs : Forall P (sampleMoves cfg zoomStartMs moves
                           [mkKeyframe 0 initialFocus] initialFocus zoomStartMs)).
  { rewrite E. constructor; [exact H0|].
    eapply Forall_impl; [|exact Hall]. intros k (m & Hin & ->). now apply Hmoves. }
  destruct (addFinalPosition_appends cfg zoomStartMs moves
              (sampleMoves cfg zoomStartMs moves [mkKeyframe 0 initialFocus]
                 initialFocus zoomStartMs))
    as [->|(lm & lk & Hlm & _ & _ & _ & ->)]; [exact Hs|].
  apply Forall_app. split; [exact Hs|]. constructor; [|constructor].
  now apply Hmoves.
Qed.

(** X6: whatever coordinates the events carry, every region of
    [generateAutoZoomRegions] has its focus and all its keyframe foci inside
    the unit square. *)
Theorem generateAutoZoomRegions_in_unit_square :
  forall (cursorEvents : list CursorEvent) (videoDurationMs : Q) (counter : Z)
         (config : PartialAutoZoomConfig),
    Forall regionInUnitSquare
      (fst (generateAutoZoomRegions cursorEvents videoDurationMs counter config)).
Proof.
  intros evs vd counter config. apply generateAutoZoomRegions_Forall.
  intros click n _ _ _. unfold regionInUnitSquare, regionOfClick. cbv zeta.
  cbn [focus focusKeyframes]. split; [apply clampedFocus_unit|].
  destruct (1 <? _)%nat; [|exact I].
  apply generateFocusKeyframes_Forall.
  - apply clampedFocus_unit.
  - intros m _ _. apply clampedFocus_unit.
Qed.

(** In strictly increasing order no offset exceeds the last one. *)
Lemma increasing_last_max l d :
  StronglySorted offsetBefore l ->
  forall k, In k l -> timeOffsetMs k <= timeOffsetMs (last l d).
Proof.
  intros Hs k Hin.
  destruct (Qlt_le_dec (timeOffsetMs (last l d)) (timeOffsetMs k)) as [H|H];
    [|exact H].
  rewrite (increasing_last l Hs k d Hin) at 1 by lra. lra.
Qed.

(** With a positive sampling interval the loop keeps the offsets strictly
    increasing, every offset staying at or below the last sample time. *)
Lemma sampleMoves_increasing cfg zoomStartMs moves :
  0 < keyframeSampleIntervalMs cfg ->
  forall keyframes f lastSampleTime,
    StronglySorted offsetBefore keyframes ->
    Forall (fun k => timeOffsetMs k <= lastSampleTime - zoomStartMs) keyframes ->
    StronglySorted offsetBefore
      (sampleMoves cfg zoomStartMs moves keyframes f lastSampleTime).
Proof.
  intros Hpos. induction moves as [|m moves IH];
    intros keyframes f lastSampleTime Hs Hb; cbn [sampleMoves]; [exact Hs|].
  destruct (Js.ltb _ _) eqn:E; [now apply IH|]. cbv zeta.
  destruct (Js.sqrt_geb _ _); [|now apply IH].
  apply ltb_false in E. apply IH.
  - apply StronglySorted_snoc; [exact Hs|].
    eapply Forall_impl; [|exact Hb].
    intros k Hk. cbn beta in Hk. unfold offsetBefore. cbn [timeOffsetMs]. lra.
  - apply Forall_app. split.
    + eapply Forall_impl; [|exact Hb]. intros k Hk. cbn beta in *. lra.
    + constructor; [cbn [timeOffsetMs]; lra | constructor].
Qed.

(** The shape of the keyframe list: first keyframe, order and range of
    the offsets. *)
Lemma generateFocusKeyframes_shape :
  forall (cursorEvents : list CursorEvent) (zoomStartMs zoomEndMs : Q)
         (initialFocus : ZoomFocus) (config : AutoZoomConfig),
    0 < keyframeSampleIntervalMs config ->
    zoomStartMs <= zoomEndMs ->
    let keyframes :=
      generateFocusKeyframes cursorEvents zoomStartMs zoomEndMs initialFocus config in
    (exists rest, keyframes = mkKeyframe 0 initialFocus :: rest)
    /\ StronglySorted offsetBefore keyframes
    /\ Forall (offsetWithin (zoomEndMs - zoomStartMs)) keyframes.
Proof.
  intros evs s e f0 cfg Hpos Hwin keyframes.
  split; [|split].
  - subst keyframes. unfold generateFocusKeyframes. cbv zeta.
    destruct (filter _ evs) as [|m0 ms] eqn:Em; [now exists []|].
    rewrite <- Em.
    destruct (sampleMoves_appends cfg s (filter (moveDuringZoom s e) evs)
                [mkKeyframe 0 f0] f0 s) as (added & E & _).
    destruct (addFinalPosition_appends cfg s (filter (moveDuringZoom s e) evs)
                (sampleMoves cfg s (filter (moveDuringZoom s e) evs)
                   [mkKeyframe 0 f0] f0 s))
      as [->|(lm & lk & _ & _ & _ & _ & ->)]; rewrite E; cbn [app]; eauto.
  - subst keyframes. unfold generateFocusKeyframes. cbv zeta.
    destruct (filter _ evs) as [|m0 ms] eqn:Em; [repeat constructor|].
    rewrite <- Em.
    assert (Hs : StronglySorted offsetBefore
                   (sampleMoves cfg s (filter (moveDuringZoom s e) evs)
                      [mkKeyframe 0 f0] f0 s)).
    { apply sampleMoves_increasing; [exact Hpos | repeat constructor |].
      constructor; [cbn [timeOffsetMs]; lra | constructor]. }
    destruct (addFinalPosition_appends cfg s (filter (moveDuringZoom s e) evs)
                (sampleMoves cfg s (filter (moveDuringZoom s e) evs)
                   [mkKeyframe 0 f0] f0 s))
      as [->|(lm & lk & _ & Hlast & _ & Hgap & ->)]; [exact Hs|].
    apply StronglySorted_snoc; [exact Hs|].
    apply Forall_forall. intros k Hk. unfold offsetBefore. cbn [timeOffsetMs].
    pose proof (increasing_last_max _ lk Hs k Hk) as Hmax.
    rewrite <- Hlast in Hmax. lra.
  - apply generateFocusKeyframes_Forall.
    + unfold offsetWithin. cbn [timeOffsetMs]. split; lra.
    + intros m _ Hm. apply moveDuringZoom_window in Hm.
      unfold offsetWithin. cbn [timeOffsetMs]. split; lra.
Qed.

(** X7: with a positive sampling interval and a window that does not end
    before it starts, [generateFocusKeyframes] returns a list that begins
    with the initial focus at offset 0, has strictly increasing offsets
    (whatever the order of the events) and keeps every offset inside the
    window. *)
Theorem generateFocusKeyframes_well_formed :
  forall (cursorEvents : list CursorEvent) (zoomStartMs zoomEndMs : Q)
         (initialFocus : ZoomFocus) (config : AutoZoomConfig),
    0 < keyframeSampleIntervalMs config ->
    zoomStartMs <= zoomEndMs ->
    let keyframes :=
      generateFocusKeyframes cursorEvents zoomStartMs zoomEndMs initialFocus config in
    (exists rest, keyframes = mkKeyframe 0 initialFocus :: rest)
    /\ StronglySorted offsetBefore keyframes
    /\ Forall (offsetWithin (zoomEndMs - zoomStartMs)) keyframes.
Proof.
  intros evs s e f0 cfg Hpos Hwin.
  exact (generateFocusKeyframes_shape evs s e f0 cfg Hpos Hwin).
Qed.

Lemma generateFocusKeyframes_well_formed_witness :
  let evs := [clickAt 0; moveAt 400 (3#4) (1#2); moveAt 100 (1#4) (1#2);
              moveAt 900 (1#2) (1#5)] in
  let keyframes :=
    generateFocusKeyframes evs 0 2000 (mkFocus (1#2) (1#2)) DEFAULT_AUTO_ZOOM_CONFIG in
  (exists rest, keyframes = mkKeyframe 0 (mkFocus (1#2) (1#2)) :: rest)
  /\ StronglySorted offsetBefore keyframes
  /\ Forall (offsetWithin (2000 - 0)) keyframes.
Proof.
  intros evs.
  apply (generateFocusKeyframes_well_formed evs 0 2000 (mkFocus (1#2) (1#2))
           DEFAULT_AUTO_ZOOM_CONFIG); [reflexivity | discriminate].
Defined.

(** X8: with a positive sampling interval, the [focusKeyframes] of every
    region of [generateAutoZoomRegions], when present, has at least two
    entries, starts at offset 0 on the region's focus and has strictly
    increasing offsets. *)
Theorem generateAutoZoomRegions_keyframes_well_formed :
  forall (cursorEvents : list CursorEvent) (videoDurationMs : Q) (counter : Z)
         (config : PartialAutoZoomConfig),
    0 < keyframeSampleIntervalMs (mergeConfig config) ->
    Forall keyframesWellFormed
      (fst (generateAutoZoomRegions cursorEvents videoDurationMs counter config)).
Proof.
  intros evs vd counter config Hpos. apply generateAutoZoomRegions_Forall.
  intros click n _ _ Hlen. unfold keyframesWellFormed, regionOfClick. cbv zeta.
  cbn [focus focusKeyframes].
  destruct (1 <? _)%nat eqn:E; [|exact I].
  apply Nat.ltb_lt in E.
  destruct (generateFocusKeyframes_shape evs (timestamp click)
              (zoomWindowEnd (mergeConfig config) vd click)
              (clampedFocus click) (mergeConfig config) Hpos)
    as (Hhd & Hs & _); [lra|].
  split; [lia|]. split; assumption.
Qed.

Lemma generateAutoZoomRegions_keyframes_well_formed_witness :
  0 < keyframeSampleIntervalMs (mergeConfig emptyPartial)
  /\ Forall keyframesWellFormed
       (fst (generateAutoZoomRegions
               [clickAt 0; moveAt 400 (3#4) (1#2); moveAt 900 (1#2) (1#5)]
               10000 0 emptyPartial)).
Proof.
  split; [reflexivity|].
  apply (generateAutoZoomRegions_keyframes_well_formed
           [clickAt 0; moveAt 400 (3#4) (1#2); moveAt 900 (1#2) (1#5)]
           10000 0 emptyPartial).
  reflexivity.
Defined.

(** ** Merging disjoint region lists *)

Lemma not_overlaps_iff a b :
  ~ overlaps a b <-> (endMs a <= startMs b \/ endMs b <= startMs a).
Proof.
  unfold overlaps. split.
  - intros H. destruct (Qlt_le_dec (startMs b) (endMs a)) as [H1|H1]; [|now left].
    destruct (Qlt_le_dec (startMs a) (endMs b)) as [H2|H2]; [|now right].
    exfalso. apply H. intros [?|?]; lra.
  - intros [H|H] Ho; apply Ho; [now left | right; lra].
Qed.

Lemma not_overlaps_sym a b : ~ overlaps a b -> ~ overlaps b a.
Proof. rewrite !not_overlaps_iff. tauto. Qed.

Lemma ForallOrdPairs_filter {A} (R : A -> A -> Prop) f l :
  ForallOrdPairs R l -> ForallOrdPairs R (filter f l).
Proof.
  induction 1 as [|a l Ha Hl IH]; cbn [filter]; [constructor|].
  destruct (f a); [|exact IH].
  constructor; [|exact IH].
  apply Forall_forall. intros b Hb. apply filter_In in Hb.
  rewrite Forall_forall in Ha. now apply Ha.
Qed.

Lemma ForallOrdPairs_app {A} (R : A -> A -> Prop) l1 l2 :
  ForallOrdPairs R l1 -> ForallOrdPairs R l2 ->
  (forall a b, In a l1 -> In b l2 -> R a b) ->
  ForallOrdPairs R (l1 ++ l2).
Proof.
  induction 1 as [|a l Ha Hl IH]; intros H2 Hx; cbn [app]; [exact H2|].
  constructor.
  - apply Forall_app. split; [exact Ha|].
    apply Forall_forall. intros b Hb. apply Hx; [now left | exact Hb].
  - apply IH; [exact H2|]. intros x b Hx' Hb. apply Hx; [now right | exact Hb].
Qed.

(** Inserting a region that overlaps none of a chained list keeps it chained. *)
Lemma insertByStart_chained a l :
  positiveLength a ->
  StronglySorted endsBefore l ->
  Forall positiveLength l ->
  Forall (fun b => ~ overlaps a b) l ->
  StronglySorted endsBefore (insertByStart a l).
Proof.
  intros Ha. induction 1 as [|b l Hl IH Hb]; intros Hpos Hdis; cbn [insertByStart].
  - repeat constructor.
  - inversion Hpos as [|? ? Hbpos Hlpos]; subst.
    inversion Hdis as [|? ? Hab Hal]; subst.
    apply not_overlaps_iff in Hab. unfold positiveLength in *.
    destruct (Js.leb (startMs a - startMs b) 0) eqn:E.
    + apply leb_true in E.
      assert (Hab' : endMs a <= startMs b) by (destruct Hab; lra).
      constructor; [constructor; assumption|].
      constructor; [exact Hab'|].
      eapply Forall_impl; [|exact Hb].
      unfold endsBefore. intros c Hc. lra.
    + apply leb_false in E.
      constructor; [now apply IH|].
      eapply Permutation_Forall; [symmetry; apply insertByStart_perm|].
      constructor; [unfold endsBefore; destruct Hab; lra | exact Hb].
Qed.

Lemma sortByStart_chained l :
  Forall positiveLength l -> pairwiseDisjoint l ->
  StronglySorted endsBefore (sortByStart l).
Proof.
  unfold pairwiseDisjoint. intros Hpos Hdis. induction Hdis as [|a l Ha Hl IH].
  - constructor.
  - inversion Hpos as [|? ? Hapos Hlpos]; subst. cbn [sortByStart fold_right].
    apply insertByStart_chained; [exact Hapos | now apply IH | |].
    + eapply Permutation_Forall; [symmetry; apply sortByStart_perm | exact Hlpos].
    + eapply Permutation_Forall; [symmetry; apply sortByStart_perm | exact Ha].
Qed.

(** X9: when the auto regions do not overlap one another, the manual
    regions do not overlap one another, and all have positive length, the
    merged list is chained: every region ends no later than each region
    after it starts. *)
Theorem mergeZoomRegions_chained :
  forall autoRegions manualRegions : list ZoomRegion,
    Forall positiveLength autoRegions -> Forall positiveLength manualRegions ->
    pairwiseDisjoint autoRegions -> pairwiseDisjoint manualRegions ->
    StronglySorted endsBefore (mergeZoomRegions autoRegions manualRegions).
Proof.
  intros auto manual Hpa Hpm Hda Hdm. unfold mergeZoomRegions. cbv zeta.
  apply sortByStart_chained.
  - apply Forall_app. split; [exact Hpm|].
    apply Forall_forall. intros a Ha. apply filter_In in Ha.
    rewrite Forall_forall in Hpa. now apply Hpa.
  - apply ForallOrdPairs_app; [exact Hdm | now apply ForallOrdPairs_filter |].
    intros m a Hm Ha. apply filter_In in Ha. destruct Ha as [_ Ha].
    apply negb_true_iff in Ha. apply not_overlaps_sym.
    exact (proj1 (overlapsManual_false manual a) Ha m Hm).
Qed.

Lemma mergeZoomRegions_chained_witness :
  let region s e := mkRegion "r" s e Depth3 (mkFocus (1#2) (1#2)) None in
  let autoRegions := [region 0 2000; region 2500 4500; region 6000 8000] in
  let manualRegions := [region 7000 9000; region 4500 5000] in
  StronglySorted endsBefore (mergeZoomRegions autoRegions manualRegions).
Proof.
  intros region autoRegions manualRegions.
  apply (mergeZoomRegions_chained autoRegions manualRegions).
  - repeat constructor.
  - repeat constructor.
  - repeat constructor; apply not_overlaps_iff; left; discriminate.
  - repeat constructor; apply not_overlaps_iff; right; discriminate.
Defined.

Lemma sortByStart_sorted_id l :
  StronglySorted startsNoLater l -> sortByStart l = l.
Proof.
  induction 1 as [|a l Hl IH Ha]; [reflexivity|].
  cbn [sortByStart fold_right]. fold (sortByStart l). rewrite IH.
  destruct l as [|b l]; [reflexivity|]. cbn [insertByStart].
  inversion Ha as [|? ? Hab _]; subst. unfold startsNoLater in Hab.
  assert (H : startMs a - startMs b <= 0) by lra.
  now rewrite (proj2 (leb_true _ _) H).
Qed.

(** X10: with no manual regions, merging an auto list that is already in
    ascending [startMs] order returns it unchanged, ties included. *)
Theorem mergeZoomRegions_sorted_alone :
  forall autoRegions : list ZoomRegion,
    StronglySorted startsNoLater autoRegions ->
    mergeZoomRegions autoRegions [] = autoRegions.
Proof.
  intros auto Hs. unfold mergeZoomRegions. cbv zeta. cbn [app].
  assert (Hf : filter (fun a => negb (overlapsManual [] a)) auto = auto).
  { clear Hs. induction auto as [|a auto IH]; [reflexivity|].
    cbn [filter]. change (overlapsManual [] a) with false. cbn [negb].
    now rewrite IH. }
  rewrite Hf. now apply sortByStart_sorted_id.
Qed.

Lemma mergeZoomRegions_sorted_alone_witness :
  let region s e := mkRegion "r" s e Depth3 (mkFocus (1#2) (1#2)) None in
  mergeZoomRegions [region 0 2000; region 0 1000; region 2500 4500] []
  = [region 0 2000; region 0 1000; region 2500 4500].
Proof.
  intros region.
  apply (mergeZoomRegions_sorted_alone
           [region 0 2000; region 0 1000; region 2500 4500]).
  repeat constructor; discriminate.
Defined.

(** ** Range and plateau of the region strength *)

Lemma smootherStep_range v : 0 <= smootherStep v /\ smootherStep v <= 1.
Proof.
  destruct (Qlt_le_dec 0 v) as [H0|H0].
  - destruct (Qlt_le_dec v 1) as [H1|H1].
    + destruct (smootherStep_partial v H0 H1). split; lra.
    + rewrite (smootherStep_above v H1). split; lra.
  - rewrite (smootherStep_below v H0). split; lra.
Qed.

(** The quintic reaches 1 only from 1 on. *)
Lemma smootherStep_full v : smootherStep v == 1 <-> 1 <= v.
Proof.
  split; [|apply smootherStep_above].
  intros H. destruct (Qlt_le_dec v 1) as [H1|H1]; [|exact H1].
  destruct (Qlt_le_dec 0 v) as [H0|H0].
  - destruct (smootherStep_partial v H0 H1). lra.
  - rewrite (smootherStep_below v H0) in H. lra.
Qed.

Lemma computeRegionStrength_outside r t :
  t < startMs r - 400 \/ endMs r + 400 < t ->
  ZoomRegionUtils.computeRegionStrength r t = 0.
Proof.
  intros H. unfold ZoomRegionUtils.computeRegionStrength. cbv zeta.
  unfold ZoomRegionUtils.TRANSITION_WINDOW_MS, Js.gtb.
  destruct H as [H|H].
  - now rewrite (proj2 (ltb_true _ _) H).
  - rewrite (proj2 (ltb_true _ _) H). now rewrite orb_true_r.
Qed.

(** Both fades are between 0 and 1, and so is the smaller of them. *)
Lemma strength_between_0_and_1 :
  forall (region : ZoomRegion) (timeMs : Q),
    0 <= ZoomRegionUtils.computeRegionStrength region timeMs
    /\ ZoomRegionUtils.computeRegionStrength region timeMs <= 1.
Proof.
  intros r t.
  destruct (Qlt_le_dec t (startMs r - 400)) as [H1|H1];
    [rewrite computeRegionStrength_outside by (now left); split; lra|].
  destruct (Qlt_le_dec (endMs r + 400) t) as [H2|H2];
    [rewrite computeRegionStrength_outside by (now right); split; lra|].
  rewrite computeRegionStrength_in_window by assumption.
  destruct (smootherStep_range ((t - (startMs r - 400)) / 400)).
  destruct (smootherStep_range ((endMs r + 400 - t) / 400)).
  split; js_cases; lra.
Qed.

(** X11: the strength of a region is between 0 and 1 at every time. *)
Theorem computeRegionStrength_range :
  forall (region : ZoomRegion) (timeMs : Q),
    0 <= ZoomRegionUtils.computeRegionStrength region timeMs
    /\ ZoomRegionUtils.computeRegionStrength region timeMs <= 1.
Proof.
  intros region timeMs. exact (strength_between_0_and_1 region timeMs).
Qed.

Lemma div400_ge_1 v : 1 <= v / 400 <-> 400 <= v.
Proof.
  split; intros H.
  - destruct (Qlt_le_dec v 400) as [Hlt|Hge]; [|exact Hge].
    assert (v / 400 < 1) by (apply Qlt_shift_div_r; [reflexivity | lra]). lra.
  - apply Qle_shift_div_l; [reflexivity | lra].
Qed.

(** A fade whose argument is below 1 is not complete. *)
Lemma smootherStep_incomplete v : v < 1 -> smootherStep v < 1.
Proof.
  intros H. destruct (smootherStep_range v) as [_ Hle].
  destruct (Qlt_le_dec (smootherStep v) 1) as [Hlt|Hge]; [exact Hlt|].
  assert (Heq : smootherStep v == 1) by lra.
  apply smootherStep_full in Heq. lra.
Qed.

(** X12: for a region whose [startMs] and [endMs] are whole milliseconds,
    the strength is 1 from [startMs] to [endMs], both included; it is
    strictly below 1 from one millisecond outside the region; and it is 0
    from 400 ms outside: the fades lie entirely outside the region. *)
Theorem computeRegionStrength_plateau :
  forall (region : ZoomRegion) (timeMs : Q),
    wholeMs (startMs region) -> wholeMs (endMs region) ->
    (startMs region <= timeMs /\ timeMs <= endMs region ->
     ZoomRegionUtils.computeRegionStrength region timeMs == 1)
    /\ (timeMs <= startMs region - 1 \/ endMs region + 1 <= timeMs ->
        ZoomRegionUtils.computeRegionStrength region timeMs < 1)
    /\ (timeMs <= startMs region - 400 \/ endMs region + 400 <= timeMs ->
        ZoomRegionUtils.computeRegionStrength region timeMs == 0).
Proof.
  intros r t _ _. split; [|split].
  - intros [H1 H2].
    rewrite computeRegionStrength_in_window by lra.
    rewrite (smootherStep_above ((t - (startMs r - 400)) / 400))
      by (apply div400_ge_1; lra).
    rewrite (smootherStep_above ((endMs r + 400 - t) / 400))
      by (apply div400_ge_1; lra).
    js_cases; lra.
  - intros H.
    destruct (Qlt_le_dec t (startMs r - 400)) as [H1|H1];
      [rewrite computeRegionStrength_outside by (now left); reflexivity|].
    destruct (Qlt_le_dec (endMs r + 400) t) as [H2|H2];
      [rewrite computeRegionStrength_outside by (now right); reflexivity|].
    rewrite computeRegionStrength_in_window by assumption.
    destruct (smootherStep_range ((t - (startMs r - 400)) / 400)) as [_ Hi].
    destruct (smootherStep_range ((endMs r + 400 - t) / 400)) as [_ Ho].
    destruct H as [H|H].
    + assert (smootherStep ((t - (startMs r - 400)) / 400) < 1).
      { apply smootherStep_incomplete.
        apply Qlt_shift_div_r; [reflexivity | lra]. }
      js_cases; lra.
    + assert (smootherStep ((endMs r + 400 - t) / 400) < 1).
      { apply smootherStep_incomplete.
        apply Qlt_shift_div_r; [reflexivity | lra]. }
      js_cases; lra.
  - intros H.
    destruct (Qlt_le_dec t (startMs r - 400)) as [H1|H1];
      [rewrite computeRegionStrength_outside by (now left); reflexivity|].
    destruct (Qlt_le_dec (endMs r + 400) t) as [H2|H2];
      [rewrite computeRegionStrength_outside by (now right); reflexivity|].
    rewrite computeRegionStrength_in_window by assumption.
    destruct (smootherStep_range ((t - (startMs r - 400)) / 400)) as [Hi _].
    destruct (smootherStep_range ((endMs r + 400 - t) / 400)) as [Ho _].
    destruct H as [H|H].
    + assert (Hz : smootherStep ((t - (startMs r - 400)) / 400) == 0).
      { apply smootherStep_below.
        apply Qle_shift_div_r; [reflexivity | lra]. }
      revert Hz. js_cases; lra.
    + assert (Hz : smootherStep ((endMs r + 400 - t) / 400) == 0).
      { apply smootherStep_below.
        apply Qle_shift_div_r; [reflexivity | lra]. }
      revert Hz. js_cases; lra.
Qed.

Lemma computeRegionStrength_plateau_witness :
  let region := mkRegion "r" 1000 3000 Depth3 (mkFocus (1#2) (1#2)) None in
  ZoomRegionUtils.computeRegionStrength region 1000 == 1
  /\ ZoomRegionUtils.computeRegionStrength region 999 < 1
  /\ ZoomRegionUtils.computeRegionStrength region 3400 == 0.
Proof.
  intros region.
  destruct (computeRegionStrength_plateau region 1000) as (H & _ & _);
    [reflexivity | reflexivity |].
  destruct (computeRegionStrength_plateau region 999) as (_ & H' & _);
    [reflexivity | reflexivity |].
  destruct (computeRegionStrength_plateau region 3400) as (_ & _ & H'');
    [reflexivity | reflexivity |].
  split; [|split].
  - apply H. split; discriminate.
  - apply H'. left. discriminate.
  - apply H''. right. discriminate.
Defined.

(** ** The dominant region *)

(** What the scan over the regions keeps: the running best never drops,
    bounds every strength seen, and is either the initial value or the
    strength of a region seen, strictly above the initial one. *)
Lemma dominant_scan t regions :
  forall best : option ZoomRegion * Q,
    let step := fun (best : option ZoomRegion * Q) region =>
      let strength := ZoomRegionUtils.computeRegionStrength region t in
      if Js.gtb strength (snd best) then (Some region, strength) else best in
    let result := fold_left step regions best in
    Forall (fun r => ZoomRegionUtils.computeRegionStrength r t <= snd result) regions
    /\ snd best <= snd result
    /\ (result = best
        \/ exists r, In r regions
                     /\ result = (Some r, ZoomRegionUtils.computeRegionStrength r t)
                     /\ snd best < ZoomRegionUtils.computeRegionStrength r t).
Proof.
  induction regions as [|r regions IH]; intros best step result.
  - subst result. cbn. repeat split; [constructor | lra | now left].
  - subst result. cbn [fold_left].
    specialize (IH (step best r)). cbv zeta in IH.
    fold step in IH. destruct IH as (Hall & Hle & Hres).
    assert (Hstep : snd best <= snd (step best r)
                    /\ ZoomRegionUtils.computeRegionStrength r t <= snd (step best r)).
    { subst step. cbv beta zeta. unfold Js.gtb.
      destruct (Js.ltb _ _) eqn:E;
        [apply ltb_true in E | apply ltb_false in E]; cbn [snd]; split; lra. }
    destruct Hstep as [Hs1 Hs2].
    split; [constructor; [lra | exact Hall]|]. split; [lra|].
    destruct Hres as [Hres|(r' & Hin & Hres & Hlt)].
    + rewrite Hres. subst step. cbv beta zeta. unfold Js.gtb.
      destruct (Js.ltb _ _) eqn:E; [|now left].
      apply ltb_true in E. right. exists r. repeat split; [now left | exact E].
    + right. exists r'. repeat split; [now right | exact Hres | lra].
Qed.

(** X13: [findDominantRegion] returns the greatest strength among the
    regions, a number between 0 and 1.  It returns a region exactly when
    that strength is positive, and then the region belongs to the list and
    has that strength; with no active region it returns no region and
    strength 0. *)
Theorem findDominantRegion_spec :
  forall (regions : list ZoomRegion) (timeMs : Q),
    let result := ZoomRegionUtils.findDominantRegion regions timeMs in
    Forall (fun r => ZoomRegionUtils.computeRegionStrength r timeMs <= snd result)
           regions
    /\ (0 <= snd result /\ snd result <= 1)
    /\ match fst result with
       | Some r => In r regions
                   /\ snd result = ZoomRegionUtils.computeRegionStrength r timeMs
                   /\ 0 < snd result
       | None => snd result = 0
       end.
Proof.
  intros regions t result.
  destruct (dominant_scan t regions (None, 0)) as (Hall & Hle & Hres).
  cbv zeta in Hall, Hle, Hres.
  change (fold_left _ regions (None, 0)) with result in Hall, Hle, Hres.
  cbn [snd] in Hle.
  split; [exact Hall|].
  destruct Hres as [Hres|(r & Hin & Hres & Hlt)].
  - rewrite Hres. cbn [fst snd]. repeat split; lra.
  - rewrite Hres. cbn [fst snd] in *.
    destruct (strength_between_0_and_1 r t).
    repeat split; trivial.
Qed.

(** ** Focus interpolation: totality and shape *)

(** X14: [interpolateFocusFromKeyframes] returns a focus for every region
    and every time: the reads of [keyframes[currentIndex]] and
    [keyframes[currentIndex + 1]] never fall outside the array, whatever the
    order of the keyframes. *)
Theorem interpolateFocusFromKeyframes_total :
  forall (region : ZoomRegion) (time : Q),
    exists f, ZoomRegionUtils.interpolateFocusFromKeyframes region time = Some f.
Proof.
  intros region time.
  destruct (focusKeyframes region) as [[|first rest]|] eqn:Hkf.
  - exists (focus region).
    unfold ZoomRegionUtils.interpolateFocusFromKeyframes. now rewrite Hkf.
  - destruct (Qlt_le_dec (timeOffsetMs first) (time - startMs region)) as [Hlo|Hlo].
    + destruct (Qlt_le_dec (time - startMs region)
                  (timeOffsetMs (last (first :: rest) first))) as [Hhi|Hhi].
      * destruct (interpolate_inside region first rest time Hkf Hlo Hhi)
          as (j & p0 & p1 & p2 & p3 & _ & _ & _ & _ & _ & _ & Heq).
        eexists. exact Heq.
      * eexists. exact (interpolate_after region first rest time Hkf Hlo Hhi).
    + eexists. exact (interpolate_before region first rest time Hkf Hlo).
  - exists (focus region).
    unfold ZoomRegionUtils.interpolateFocusFromKeyframes. now rewrite Hkf.
Qed.

Lemma catmullRom_constant c p0 p1 p2 p3 t tension :
  p0 == c -> p1 == c -> p2 == c -> p3 == c ->
  catmullRomInterpolate p0 p1 p2 p3 t tension == c.
Proof.
  intros H0 H1 H2 H3. rewrite H0, H1, H2, H3.
  unfold catmullRomInterpolate. cbv zeta. ring.
Qed.

Lemma roundingSlack_pos : 0 < roundingSlack.
Proof. reflexivity. Qed.

Lemma closeTo_eq m a b : 0 <= m -> a == b -> closeTo m a b.
Proof.
  intros Hm H. unfold closeTo.
  pose proof (Qmult_le_0_compat _ _ (Qlt_le_weak _ _ roundingSlack_pos) Hm).
  split; lra.
Qed.

Lemma atMostUpTo_le m a b : 0 <= m -> a <= b -> atMostUpTo m a b.
Proof.
  intros Hm H. unfold atMostUpTo.
  pose proof (Qmult_le_0_compat _ _ (Qlt_le_weak _ _ roundingSlack_pos) Hm).
  lra.
Qed.

(** In exact arithmetic keyframes that share one focus interpolate to it. *)
Lemma interpolate_constant_exact :
  forall (region : ZoomRegion) (keyframes : list ZoomFocusKeyframe)
         (f : ZoomFocus) (time : Q),
    focusKeyframes region = Some keyframes ->
    keyframes <> [] ->
    Forall (fun k => focusEq (kfFocus k) f) keyframes ->
    exists g,
      ZoomRegionUtils.interpolateFocusFromKeyframes region time = Some g
      /\ focusEq g f.
Proof.
  intros region keyframes f time Hkf Hne Hall.
  destruct keyframes as [|first rest]; [congruence|].
  rewrite Forall_forall in Hall.
  destruct (Qlt_le_dec (timeOffsetMs first) (time - startMs region)) as [Hlo|Hlo].
  - destruct (Qlt_le_dec (time - startMs region)
                (timeOffsetMs (last (first :: rest) first))) as [Hhi|Hhi].
    + destruct (interpolate_inside region first rest time Hkf Hlo Hhi)
        as (j & p0 & p1 & p2 & p3 & H0 & H3 & H1 & H2 & _ & _ & Heq).
      apply nth_error_In in H1. apply nth_error_In in H2.
      destruct (Hall p0 H0), (Hall p1 H1), (Hall p2 H2), (Hall p3 H3).
      eexists. split; [exact Heq|]. cbv zeta. unfold focusEq. cbn [cx cy].
      split; apply catmullRom_constant; assumption.
    + eexists. split; [exact (interpolate_after region first rest time Hkf Hlo Hhi)|].
      apply Hall, last_In.
  - eexists. split; [exact (interpolate_before region first rest time Hkf Hlo)|].
    apply Hall. now left.
Qed.

(** X15: when all keyframes of a region carry the same focus, a point of
    the unit square, the interpolated focus is that focus at every time, up
    to the rounding slack: a cursor that does not move gives no visible
    motion, however many keyframes there are. *)
Theorem interpolateFocusFromKeyframes_constant :
  forall (region : ZoomRegion) (keyframes : list ZoomFocusKeyframe)
         (f : ZoomFocus) (time : Q),
    focusKeyframes region = Some keyframes ->
    keyframes <> [] ->
    unitFocus f ->
    Forall (fun k => focusEq (kfFocus k) f) keyframes ->
    exists g,
      ZoomRegionUtils.interpolateFocusFromKeyframes region time = Some g
      /\ focusCloseTo g f.
Proof.
  intros region keyframes f time Hkf Hne _ Hall.
  destruct (interpolate_constant_exact region keyframes f time Hkf Hne Hall)
    as (g & Hg & Hx & Hy).
  exists g. split; [exact Hg|].
  split; apply closeTo_eq; (lra || assumption).
Qed.

Lemma interpolateFocusFromKeyframes_constant_witness :
  let f := mkFocus (1#3) (2#3) in
  let region := mkRegion "r" 0 3000 Depth3 f
                  (Some [mkKeyframe 0 f; mkKeyframe 700 f; mkKeyframe 1500 f]) in
  exists g,
    ZoomRegionUtils.interpolateFocusFromKeyframes region 1000 = Some g
    /\ focusCloseTo g f.
Proof.
  intros f region.
  apply (interpolateFocusFromKeyframes_constant region
           [mkKeyframe 0 f; mkKeyframe 700 f; mkKeyframe 1500 f] f 1000).
  - reflexivity.
  - discriminate.
  - repeat split; discriminate.
  - repeat constructor.
Defined.

(** The blend of a two-keyframe spline. *)
Lemma catmullRom_two_points a b t :
  catmullRomInterpolate a a b b t (1#2)
  == a + (b - a) * (t * ((1#2) + (3#2) * t - t * t)).
Proof. unfold catmullRomInterpolate. cbv zeta. ring. Qed.

Lemma two_point_weight t :
  0 <= t -> t <= 1 ->
  0 <= t * ((1#2) + (3#2) * t - t * t) /\ t * ((1#2) + (3#2) * t - t * t) <= 1.
Proof.
  intros H0 H1.
  assert (Htt : 0 <= t * t /\ t * t <= t) by (split; nra).
  split.
  - apply Qmult_le_0_compat; lra.
  - assert (Hf : 1 - t * ((1#2) + (3#2) * t - t * t)
                 == (1 - t) * (1 + (1#2) * t - t * t)) by ring.
    assert (0 <= (1 - t) * (1 + (1#2) * t - t * t))
      by (apply Qmult_le_0_compat; lra).
    lra.
Qed.

Lemma between_blend a b w :
  0 <= w -> w <= 1 ->
  Js.min a b <= a + (b - a) * w /\ a + (b - a) * w <= Js.max a b.
Proof. intros H0 H1. js_cases; split; nra. Qed.

(** In exact arithmetic two keyframes interpolate inside their box. *)
Lemma interpolate_two_keyframes_exact :
  forall (region : ZoomRegion) (k1 k2 : ZoomFocusKeyframe) (time : Q),
    focusKeyframes region = Some [k1; k2] ->
    exists f,
      ZoomRegionUtils.interpolateFocusFromKeyframes region time = Some f
      /\ (Js.min (cx (kfFocus k1)) (cx (kfFocus k2)) <= cx f
          /\ cx f <= Js.max (cx (kfFocus k1)) (cx (kfFocus k2)))
      /\ (Js.min (cy (kfFocus k1)) (cy (kfFocus k2)) <= cy f
          /\ cy f <= Js.max (cy (kfFocus k1)) (cy (kfFocus k2))).
Proof.
  intros region k1 k2 time Hkf.
  destruct (Qlt_le_dec (timeOffsetMs k1) (time - startMs region)) as [Hlo|Hlo].
  - destruct (Qlt_le_dec (time - startMs region) (timeOffsetMs k2)) as [Hhi|Hhi].
    + eexists. split.
      * unfold ZoomRegionUtils.interpolateFocusFromKeyframes.
        rewrite Hkf. cbv zeta. cbn [last].
        rewrite (proj2 (leb_false _ _) Hlo).
        unfold Js.geb at 1. rewrite (proj2 (leb_false _ _) Hhi).
        rewrite findCurrentIndex_step.
        unfold Js.geb. rewrite (proj2 (leb_true _ _) (Qlt_le_weak _ _ Hlo)).
        rewrite (proj2 (ltb_true _ _) Hhi).
        cbn [andb Nat.add nth_error Nat.ltb Nat.leb List.length].
        assert (Hseg : 0 < timeOffsetMs k2 - timeOffsetMs k1) by lra.
        rewrite (proj2 (leb_false _ _) Hseg). reflexivity.
      * cbn [cx cy].
        set (t := (time - startMs region - timeOffsetMs k1)
                  / (timeOffsetMs k2 - timeOffsetMs k1)).
        assert (Ht0 : 0 <= t) by (apply Qle_shift_div_l; lra).
        assert (Ht1 : t <= 1) by (apply Qle_shift_div_r; lra).
        destruct (two_point_weight t Ht0 Ht1) as [Hw0 Hw1].
        rewrite !catmullRom_two_points.
        split; apply between_blend; assumption.
    + exists (kfFocus k2). split.
      * rewrite (interpolate_after region k1 [k2] time Hkf Hlo Hhi). reflexivity.
      * split; js_cases; split; lra.
  - exists (kfFocus k1). split.
    + now apply (interpolate_before region k1 [k2]).
    + split; js_cases; split; lra.
Qed.

(** X16: with exactly two keyframes, both in the unit square, the
    interpolated focus does not leave the box spanned by the two keyframe
    foci by more than the rounding slack: the overshoot of C3 needs a third
    keyframe. *)
Theorem interpolateFocusFromKeyframes_two_keyframes :
  forall (region : ZoomRegion) (k1 k2 : ZoomFocusKeyframe) (time : Q),
    focusKeyframes region = Some [k1; k2] ->
    unitFocus (kfFocus k1) -> unitFocus (kfFocus k2) ->
    exists f,
      ZoomRegionUtils.interpolateFocusFromKeyframes region time = Some f
      /\ (atMostUpTo 1 (Js.min (cx (kfFocus k1)) (cx (kfFocus k2))) (cx f)
          /\ atMostUpTo 1 (cx f) (Js.max (cx (kfFocus k1)) (cx (kfFocus k2))))
      /\ (atMostUpTo 1 (Js.min (cy (kfFocus k1)) (cy (kfFocus k2))) (cy f)
          /\ atMostUpTo 1 (cy f) (Js.max (cy (kfFocus k1)) (cy (kfFocus k2)))).
Proof.
  intros region k1 k2 time Hkf _ _.
  destruct (interpolate_two_keyframes_exact region k1 k2 time Hkf)
    as (f & Hf & [Hx0 Hx1] & [Hy0 Hy1]).
  exists f. split; [exact Hf|].
  split; split; apply atMostUpTo_le; (lra || assumption).
Qed.

Lemma interpolateFocusFromKeyframes_two_keyframes_witness :
  let k1 := mkKeyframe 0 (mkFocus (1#4) (3#4)) in
  let k2 := mkKeyframe 1000 (mkFocus (3#4) (1#4)) in
  let region := mkRegion "r" 0 2000 Depth3 (mkFocus (1#4) (3#4)) (Some [k1; k2]) in
  exists f,
    ZoomRegionUtils.interpolateFocusFromKeyframes region 300 = Some f
    /\ (atMostUpTo 1 (Js.min (cx (kfFocus k1)) (cx (kfFocus k2))) (cx f)
        /\ atMostUpTo 1 (cx f) (Js.max (cx (kfFocus k1)) (cx (kfFocus k2))))
    /\ (atMostUpTo 1 (Js.min (cy (kfFocus k1)) (cy (kfFocus k2))) (cy f)
        /\ atMostUpTo 1 (cy f) (Js.max (cy (kfFocus k1)) (cy (kfFocus k2)))).
Proof.
  intros k1 k2 region.
  apply (interpolateFocusFromKeyframes_two_keyframes region k1 k2 300).
  - reflexivity.
  - repeat split; discriminate.
  - repeat split; discriminate.
Defined.

(** For every tension the spline segment starts at [p1] and ends at
    [p2], so consecutive segments join; and with tension 1/2 it reproduces
    equally spaced values on a line exactly. *)
Lemma catmullRomInterpolate_endpoints_and_lines :
  forall p0 p1 p2 p3 tension a d t : Q,
    catmullRomInterpolate p0 p1 p2 p3 0 tension == p1
    /\ catmullRomInterpolate p0 p1 p2 p3 1 tension == p2
    /\ catmullRomInterpolate (a - d) a (a + d) (a + 2 * d) t (1#2) == a + d * t.
Proof.
  intros. unfold catmullRomInterpolate. cbv zeta. repeat split; ring.
Qed.

(** ** Cursor overlay: position and click flag *)

Section OverlayScan.
Import CursorOverlay.

(** Where the three results of the scan come from. *)
Lemma scanEvents_origin evs t :
  forall b c,
    let '(b', a', c') := scanEvents evs t b c in
    (b' = b \/ exists e, In e evs /\ b' = Some e /\ timestamp e <= t)
    /\ (a' = None \/ exists e, In e evs /\ a' = Some e /\ t < timestamp e)
    /\ (c' = c \/ exists e, In e evs /\ c' = Some e /\ isClickEvent e = true
                            /\ Js.abs (timestamp e - t) < 300).
Proof.
  induction evs as [|e evs IH]; intros b c; cbn [scanEvents]; cbv zeta.
  - repeat split; now left.
  - set (c1 := if isClickEvent e && Js.ltb (Js.abs (timestamp e - t)) 300
               then Some e else c).
    assert (Hc1 : c1 = c \/ (c1 = Some e /\ isClickEvent e = true
                             /\ Js.abs (timestamp e - t) < 300)).
    { subst c1. destruct (isClickEvent e) eqn:E1; [|now left].
      destruct (Js.ltb _ _) eqn:E2; [|now left].
      apply ltb_true in E2. right. auto. }
    destruct (Js.leb (timestamp e) t) eqn:El.
    + apply leb_true in El. specialize (IH (Some e) c1).
      destruct (scanEvents evs t (Some e) c1) as [[b' a'] c'].
      destruct IH as (Hb & Ha & Hc). split; [|split].
      * right. destruct Hb as [->|(e' & Hin & -> & Hle)].
        -- exists e. repeat split; [now left | exact El].
        -- exists e'. repeat split; [now right | exact Hle].
      * destruct Ha as [->|(e' & Hin & -> & Hlt)]; [now left|].
        right. exists e'. repeat split; [now right | exact Hlt].
      * destruct Hc as [->|(e' & Hin & -> & H1 & H2)].
        -- destruct Hc1 as [->|(-> & H1 & H2)]; [now left|].
           right. exists e. repeat split; trivial. now left.
        -- right. exists e'. repeat split; trivial. now right.
    + apply leb_false in El. split; [now left|]. split.
      * right. exists e. repeat split; [now left | exact El].
      * destruct Hc1 as [->|(-> & H1 & H2)]; [now left|].
        right. exists e. repeat split; trivial. now left.
Qed.

Lemma smooth_progress_range p :
  0 <= p -> p <= 1 -> 0 <= p * p * (3 - 2 * p) /\ p * p * (3 - 2 * p) <= 1.
Proof.
  intros H0 H1.
  assert (Hpp : 0 <= p * p) by (apply Qmult_le_0_compat; lra).
  split; [apply Qmult_le_0_compat; lra|].
  assert (Hf : 1 - p * p * (3 - 2 * p) == (1 - p) * (1 - p) * (1 + 2 * p)) by ring.
  assert (0 <= (1 - p) * (1 - p) * (1 + 2 * p))
    by (repeat apply Qmult_le_0_compat; lra).
  lra.
Qed.

Lemma unit_blend a b w :
  0 <= a <= 1 -> 0 <= b <= 1 -> 0 <= w -> w <= 1 ->
  0 <= a + (b - a) * w /\ a + (b - a) * w <= 1.
Proof. intros [? ?] [? ?] Hw0 Hw1. split; nra. Qed.

End OverlayScan.

(** [getCursorPositionAtTime] returns no position exactly when the
    event list is empty. *)
Lemma getCursorPositionAtTime_none_iff_empty :
  forall (cursorEvents : list CursorEvent) (timeMs : Q),
    CursorOverlay.getCursorPositionAtTime cursorEvents timeMs = None
    <-> cursorEvents = [].
Proof.
  intros evs t. split.
  - intros H. destruct evs as [|e evs]; [reflexivity|].
    destruct (getCursorPositionAtTime_flag (e :: evs) t) as (p & Hp & _);
      [discriminate | congruence].
  - intros ->. reflexivity.
Qed.

(** X17: when every event has its normalized coordinates in the unit
    square, so has the returned position, whatever the order of the events:
    the interpolation weight is always between 0 and 1. *)
Theorem getCursorPositionAtTime_in_unit_square :
  forall (cursorEvents : list CursorEvent) (timeMs : Q)
         (p : CursorOverlay.CursorPosition),
    Forall unitEvent cursorEvents ->
    CursorOverlay.getCursorPositionAtTime cursorEvents timeMs = Some p ->
    (0 <= CursorOverlay.x p /\ CursorOverlay.x p <= 1)
    /\ (0 <= CursorOverlay.y p /\ CursorOverlay.y p <= 1).
Proof.
  intros evs t p Hunit Hp. rewrite Forall_forall in Hunit.
  unfold CursorOverlay.getCursorPositionAtTime in Hp.
  destruct evs as [|e0 evs0]; [discriminate|].
  pose proof (scanEvents_origin (e0 :: evs0) t None None) as Hs.
  destruct (CursorOverlay.scanEvents (e0 :: evs0) t None None) as [[b a] c].
  destruct Hs as (Hb & Ha & _).
  assert (Hb' : forall e, b = Some e -> unitEvent e /\ timestamp e <= t).
  { intros e ->. destruct Hb as [Hb|(e' & Hin & Heq & Hle)]; [discriminate|].
    injection Heq as <-. split; [now apply Hunit | exact Hle]. }
  assert (Ha' : forall e, a = Some e -> unitEvent e /\ t < timestamp e).
  { intros e ->. destruct Ha as [Ha|(e' & Hin & Heq & Hlt)]; [discriminate|].
    injection Heq as <-. split; [now apply Hunit | exact Hlt]. }
  destruct b as [b|], a as [a|]; cbv zeta in Hp.
  - destruct (Hb' b eq_refl) as [[Hbx Hby] Hbt].
    destruct (Ha' a eq_refl) as [[Hax Hay] Hat].
    destruct (Qeq_bool _ _); injection Hp as <-; cbn; [tauto|].
    set (progress := (t - timestamp b) / (timestamp a - timestamp b)).
    assert (Hp0 : 0 <= progress) by (apply Qle_shift_div_l; lra).
    assert (Hp1 : progress <= 1) by (apply Qle_shift_div_r; lra).
    destruct (smooth_progress_range progress Hp0 Hp1).
    split; apply unit_blend; assumption.
  - destruct (Hb' b eq_refl) as [Hu _]. injection Hp as <-. exact Hu.
  - destruct (Ha' a eq_refl) as [Hu _]. injection Hp as <-. exact Hu.
  - discriminate.
Qed.

Lemma getCursorPositionAtTime_in_unit_square_witness :
  let evs := [moveAt 300 (1#4) 1; moveAt 0 0 (1#2); clickAt 500] in
  exists p, CursorOverlay.getCursorPositionAtTime evs 120 = Some p
            /\ (0 <= CursorOverlay.x p /\ CursorOverlay.x p <= 1)
            /\ (0 <= CursorOverlay.y p /\ CursorOverlay.y p <= 1).
Proof.
  intros evs. eexists. split; [reflexivity|].
  apply (getCursorPositionAtTime_in_unit_square evs 120).
  - repeat constructor; discriminate.
  - reflexivity.
Defined.

(** X18: a position is flagged [isClick] only when the stream holds a click
    event less than 300 ms away from the query time. *)
Theorem getCursorPositionAtTime_flag_sound :
  forall (cursorEvents : list CursorEvent) (timeMs : Q)
         (p : CursorOverlay.CursorPosition),
    CursorOverlay.getCursorPositionAtTime cursorEvents timeMs = Some p ->
    CursorOverlay.isClick p = true ->
    exists e, In e cursorEvents /\ isClickEvent e = true
              /\ Js.abs (timestamp e - timeMs) < 300.
Proof.
  intros evs t p Hp Hflag.
  assert (Hne : evs <> []) by (intros ->; discriminate Hp).
  destruct (getCursorPositionAtTime_flag evs t Hne) as (p' & Hp' & Hf).
  rewrite Hp in Hp'. injection Hp' as <-. rewrite Hflag in Hf.
  pose proof (scanEvents_origin evs t None None) as Hs.
  destruct (CursorOverlay.scanEvents evs t None None) as [[b a] c].
  cbn [snd] in Hf. destruct Hs as (_ & _ & [->|(e & Hin & _ & H1 & H2)]).
  - discriminate Hf.
  - exists e. auto.
Qed.

Lemma getCursorPositionAtTime_flag_sound_witness :
  let evs := [moveAt 0 0 0; clickAt 400; moveAt 900 1 1] in
  exists e, In e evs /\ isClickEvent e = true /\ Js.abs (timestamp e - 500) < 300.
Proof.
  intros evs.
  apply (getCursorPositionAtTime_flag_sound evs 500
           (CursorOverlay.mkPosition
              ((1#2) + (1 - (1#2)) * ((100 / 500) * (100 / 500) * (3 - 2 * (100 / 500))))
              ((1#2) + (1 - (1#2)) * ((100 / 500) * (100 / 500) * (3 - 2 * (100 / 500))))
              true));
    reflexivity.
Defined.

(** X19: in a stream in non-decreasing timestamp order, every click at or
    before the query time and less than 300 ms away sets the flag. *)
Theorem getCursorPositionAtTime_past_click_flagged :
  forall (cursorEvents : list CursorEvent) (timeMs : Q) (click : CursorEvent),
    StronglySorted noLater cursorEvents ->
    In click cursorEvents -> isClickEvent click = true ->
    timestamp click <= timeMs -> timeMs - timestamp click < 300 ->
    exists p, CursorOverlay.getCursorPositionAtTime cursorEvents timeMs = Some p
              /\ CursorOverlay.isClick p = true.
Proof.
  intros evs t c Hs Hin Hc Hle Hnear.
  apply in_split in Hin. destruct Hin as (pre & post & ->).
  apply getCursorPositionAtTime_click_reached; [|exact Hc | js_cases; lra].
  clear Hc Hnear. induction pre as [|e pre IH]; [constructor|].
  cbn [app] in Hs. apply StronglySorted_inv in Hs. destruct Hs as [Hs He].
  constructor; [|now apply IH].
  rewrite Forall_forall in He. specialize (He c).
  unfold noLater in He. 
  assert (timestamp e <= timestamp c) by (apply He, in_or_app; right; now left).
  cbn beta. lra.
Qed.

Lemma getCursorPositionAtTime_past_click_flagged_witness :
  let evs := [moveAt 0 0 0; clickAt 400; moveAt 450 1 1; moveAt 900 1 1] in
  exists p, CursorOverlay.getCursorPositionAtTime evs 600 = Some p
            /\ CursorOverlay.isClick p = true.
Proof.
  intros evs.
  apply (getCursorPositionAtTime_past_click_flagged evs 600 (clickAt 400)).
  - repeat constructor; discriminate.
  - right. left. reflexivity.
  - reflexivity.
  - discriminate.
  - reflexivity.
Defined.

(** The scan of a stream split at the last event not later than the
    query time. *)
Lemma scanEvents_split pre e post t :
  Forall (fun e' => timestamp e' <= t) pre ->
  timestamp e <= t ->
  (forall a, hd_error post = Some a -> t < timestamp a) ->
  forall b c, exists c',
    CursorOverlay.scanEvents (pre ++ e :: post) t b c = (Some e, hd_error post, c').
Proof.
  intros Hpre He Hpost. induction Hpre as [|e' pre He' _ IH]; intros b c;
    cbn [app CursorOverlay.scanEvents]; cbv zeta.
  - rewrite (proj2 (leb_true _ _) He).
    destruct post as [|a post]; cbn [CursorOverlay.scanEvents]; [eauto|].
    cbv zeta. specialize (Hpost a eq_refl).
    rewrite (proj2 (leb_false _ _) Hpost). cbn [hd_error]. eauto.
  - rewrite (proj2 (leb_true _ _) He'). apply IH.
Qed.

(** X20: in a stream in strictly increasing timestamp order, the position
    at the exact timestamp of an event is that event's normalized position. *)
Theorem getCursorPositionAtTime_at_event :
  forall (cursorEvents : list CursorEvent) (e : CursorEvent) (timeMs : Q),
    StronglySorted earlier cursorEvents ->
    In e cursorEvents ->
    timeMs == timestamp e ->
    exists p, CursorOverlay.getCursorPositionAtTime cursorEvents timeMs = Some p
              /\ CursorOverlay.x p == normalizedX e
              /\ CursorOverlay.y p == normalizedY e.
Proof.
  intros evs e t Hs Hin Ht.
  apply in_split in Hin. destruct Hin as (pre & post & ->).
  assert (Hpre : Forall (fun e' => timestamp e' <= t) pre).
  { clear -Hs Ht. induction pre as [|e' pre IH]; [constructor|].
    cbn [app] in Hs. apply StronglySorted_inv in Hs. destruct Hs as [Hs He].
    constructor; [|now apply IH].
    rewrite Forall_forall in He.
    assert (earlier e' e) by (apply He, in_or_app; right; now left).
    unfold earlier in *. cbn beta. lra. }
  assert (Hpost : forall a, hd_error post = Some a -> t < timestamp a).
  { clear -Hs Ht. induction pre as [|e' pre IH].
    - cbn [app] in Hs. apply StronglySorted_inv in Hs. destruct Hs as [_ He].
      intros a Ha. destruct post as [|a' post]; [discriminate|].
      injection Ha as ->. inversion He as [|? ? Hea _]; subst.
      unfold earlier in Hea. lra.
    - cbn [app] in Hs. apply StronglySorted_inv in Hs. now apply IH. }
  assert (He : timestamp e <= t) by lra.
  destruct (scanEvents_split pre e post t Hpre He Hpost None None) as [c' Hscan].
  unfold CursorOverlay.getCursorPositionAtTime.
  remember (pre ++ e :: post) as l eqn:Hl.
  destruct l as [|x0 l']; [destruct pre; discriminate|].
  rewrite Hscan. clear Hl Hscan.
  destruct post as [|a post]; cbn [hd_error]; cbv zeta.
  - eexists. split; [reflexivity|]. cbn. split; reflexivity.
  - destruct (Qeq_bool _ _).
    + eexists. split; [reflexivity|]. cbn. split; reflexivity.
    + eexists. split; [reflexivity|]. cbn [CursorOverlay.x CursorOverlay.y].
      assert (Hprog : (t - timestamp e) / (timestamp a - timestamp e) == 0)
        by (unfold Qdiv; rewrite Ht; ring).
      rewrite Hprog. split; ring.
Qed.

Lemma getCursorPositionAtTime_at_event_witness :
  let evs := [moveAt 0 0 0; moveAt 400 (1#3) (2#3); moveAt 900 1 1] in
  exists p, CursorOverlay.getCursorPositionAtTime evs 400 = Some p
            /\ CursorOverlay.x p == 1#3 /\ CursorOverlay.y p == 2#3.
Proof.
  intros evs.
  apply (getCursorPositionAtTime_at_event evs (moveAt 400 (1#3) (2#3)) 400).
  - repeat constructor.
  - right. left. reflexivity.
  - reflexivity.
Defined.

(** ** Playback: smoothing toward a fixed target *)

Lemma smoothComponent_between lo hi prev target :
  lo <= prev -> prev <= hi -> lo <= target -> target <= hi ->
  lo <= VideoPlayback.smoothComponent prev target
  /\ VideoPlayback.smoothComponent prev target <= hi.
Proof.
  intros H1 H2 H3 H4. unfold VideoPlayback.smoothComponent. cbv zeta.
  unfold VideoPlayback.SMOOTHING_FACTOR.
  destruct (Js.gtb _ _); split; lra.
Qed.

Lemma scaleAfter_between n lo hi target :
  lo <= target -> target <= hi ->
  forall current, lo <= current -> current <= hi ->
  lo <= scaleAfter n target current /\ scaleAfter n target current <= hi.
Proof.
  intros H1 H2. induction n as [|n IH]; intros current H3 H4; cbn [scaleAfter].
  - split; assumption.
  - destruct (smoothComponent_between lo hi current target); trivial. now apply IH.
Qed.

(** All three components of the state follow the same recurrence. *)
Lemma ticks_components n target :
  forall state,
    VideoPlayback.ticks n target state
    = VideoPlayback.mkState
        (scaleAfter n (VideoPlayback.targetScaleFactor target)
           (VideoPlayback.scale state))
        (scaleAfter n (cx (VideoPlayback.targetFocus target))
           (VideoPlayback.focusX state))
        (scaleAfter n (cy (VideoPlayback.targetFocus target))
           (VideoPlayback.focusY state)).
Proof.
  induction n as [|n IH]; intros state; cbn [VideoPlayback.ticks scaleAfter].
  - now destruct state.
  - rewrite IH. reflexivity.
Qed.

Lemma scaleAfter_converges target current :
  exists N, forall n, (N < n)%nat -> scaleAfter n target current = target.
Proof.
  destruct (gap_units (Js.abs (target - current))) as [k Hk].
  destruct (scaleAfter_reaches k _ _ Hk) as (N & _ & H). now exists N.
Qed.

(** X21: with the target held constant, the whole animation state (scale
    and both focus coordinates) is exactly the target from some tick on, and
    at every tick each component lies between its starting value and its
    target: the smoothing never overshoots. *)
Theorem ticker_state_converges_without_overshoot :
  forall (target : VideoPlayback.TickTarget) (state : VideoPlayback.AnimationState),
    (exists N : nat, forall n : nat, (N < n)%nat ->
       VideoPlayback.ticks n target state
       = VideoPlayback.mkState (VideoPlayback.targetScaleFactor target)
           (cx (VideoPlayback.targetFocus target))
           (cy (VideoPlayback.targetFocus target)))
    /\ forall n : nat,
         let st := VideoPlayback.ticks n target state in
         between (VideoPlayback.scale state) (VideoPlayback.targetScaleFactor target)
                 (VideoPlayback.scale st)
         /\ between (VideoPlayback.focusX state) (cx (VideoPlayback.targetFocus target))
                    (VideoPlayback.focusX st)
         /\ between (VideoPlayback.focusY state) (cy (VideoPlayback.targetFocus target))
                    (VideoPlayback.focusY st).
Proof.
  intros target state. split.
  - destruct (scaleAfter_converges (VideoPlayback.targetScaleFactor target)
                (VideoPlayback.scale state)) as [N1 H1].
    destruct (scaleAfter_converges (cx (VideoPlayback.targetFocus target))
                (VideoPlayback.focusX state)) as [N2 H2].
    destruct (scaleAfter_converges (cy (VideoPlayback.targetFocus target))
                (VideoPlayback.focusY state)) as [N3 H3].
    exists (N1 + N2 + N3)%nat. intros n Hn. rewrite ticks_components.
    rewrite H1, H2, H3 by lia. reflexivity.
  - intros n. cbv zeta. rewrite ticks_components.
    cbn [VideoPlayback.scale VideoPlayback.focusX VideoPlayback.focusY].
    unfold between.
    split; [|split]; apply scaleAfter_between; js_cases; lra.
Qed.

(** ** Playback: the target of a tick *)

Lemma smoothStep_range v : 0 <= smoothStep v /\ smoothStep v <= 1.
Proof.
  unfold smoothStep. cbv zeta. destruct (clamp01_range v).
  now apply smooth_progress_range.
Qed.

Lemma playback_strength_range r t :
  0 <= VideoPlayback.computeRegionStrength r t
  /\ VideoPlayback.computeRegionStrength r t <= 1.
Proof.
  unfold VideoPlayback.computeRegionStrength. cbv zeta.
  destruct (_ || _); [split; lra|].
  match goal with
  | |- context [Js.min (smoothStep ?a) (smoothStep ?b)] =>
      destruct (smoothStep_range a); destruct (smoothStep_range b)
  end.
  split; js_cases; lra.
Qed.

Lemma playback_dominant_range t regions :
  forall best : option ZoomRegion * Q,
    0 <= snd best -> snd best <= 1 ->
    let result :=
      fold_left
        (fun (best : option ZoomRegion * Q) region =>
           let strength := VideoPlayback.computeRegionStrength region t in
           if Js.gtb strength (snd best) then (Some region, strength) else best)
        regions best in
    0 <= snd result /\ snd result <= 1.
Proof.
  induction regions as [|r regions IH]; intros best H0 H1; cbn [fold_left].
  - split; assumption.
  - cbv zeta. apply IH; destruct (Js.gtb _ _); cbn [snd]; trivial;
      apply playback_strength_range.
Qed.

Lemma ZOOM_DEPTH_SCALES_range d : 1 <= ZOOM_DEPTH_SCALES d /\ ZOOM_DEPTH_SCALES d <= 5.
Proof. destruct d; split; discriminate. Qed.

Lemma scaled_gain k s : 0 <= k -> 0 <= s -> s <= 1 -> 0 <= k * s /\ k * s <= k.
Proof. intros. split; nra. Qed.

(** The target of a tick is a valid animation state when the focus clamp
    maps into the unit square. *)
Lemma tickerTarget_valid clampFocus regions t :
  (forall f d, unitFocus (clampFocus f d)) ->
  let target := VideoPlayback.tickerTarget clampFocus regions t in
  (1 <= VideoPlayback.targetScaleFactor target
   /\ VideoPlayback.targetScaleFactor target <= 5)
  /\ unitFocus (VideoPlayback.targetFocus target).
Proof.
  intros Hclamp. unfold VideoPlayback.tickerTarget.
  pose proof (playback_dominant_range t regions (None, 0)) as Hs.
  cbv zeta in Hs. unfold VideoPlayback.findDominantRegion.
  destruct (fold_left _ regions (None, 0)) as [region strength].
  cbn [snd] in Hs. destruct Hs as [Hs0 Hs1]; [lra | lra |].
  assert (Hdefault : (1 <= 1 /\ 1 <= 5) /\ unitFocus VideoPlayback.DEFAULT_FOCUS)
    by (repeat split; discriminate).
  destruct region as [region|]; [|exact Hdefault].
  destruct (Js.gtb strength 0); [|exact Hdefault].
  cbv zeta. cbn [VideoPlayback.targetScaleFactor VideoPlayback.targetFocus].
  destruct (ZOOM_DEPTH_SCALES_range (depth region)) as [Hz1 Hz5].
  destruct (scaled_gain (ZOOM_DEPTH_SCALES (depth region) - 1) strength)
    as [Hg0 Hg1]; try lra.
  destruct (Hclamp (focus region) (depth region)) as [Hx Hy].
  split; [split; lra|].
  unfold unitFocus, VideoPlayback.DEFAULT_FOCUS. cbn [cx cy].
  split; apply unit_blend; trivial; split; discriminate.
Qed.

(** ** Playback: clamping the focus to the stage *)

Section StageClamp.
Import PlaybackGeometry.

Lemma clamp_unit v : 0 <= clamp v 0 1 /\ clamp v 0 1 <= 1.
Proof. unfold clamp. js_cases; lra. Qed.

(** The two axes of [clampFocusToStage] are the same function. *)
Lemma clampFocusToStage_axes g f d :
  notReady g = false ->
  clampFocusToStage g f d
  = mkFocus
      (clampAxisToStage (videoWidth g / ZOOM_DEPTH_SCALES d * baseScale g)
         (stageWidth g) (clamp (cx f) 0 1))
      (clampAxisToStage (videoHeight g / ZOOM_DEPTH_SCALES d * baseScale g)
         (stageHeight g) (clamp (cy f) 0 1)).
Proof. intros H. unfold clampFocusToStage. rewrite H. reflexivity. Qed.

Lemma clampAxisToStage_unit indicator stage v :
  0 <= v -> v <= 1 ->
  0 <= clampAxisToStage indicator stage v /\ clampAxisToStage indicator stage v <= 1.
Proof.
  intros H0 H1. unfold clampAxisToStage. cbv zeta.
  set (q := indicator / stage).
  destruct (Js.gtb stage 0);
    unfold Qdiv; change (/ 2) with (1#2); js_cases; split; lra.
Qed.

Lemma clampAxisToStage_idempotent indicator stage v :
  0 <= v -> v <= 1 ->
  clampAxisToStage indicator stage
    (clamp (clampAxisToStage indicator stage v) 0 1)
  == clampAxisToStage indicator stage v.
Proof.
  intros H0 H1. unfold clampAxisToStage, clamp. cbv zeta.
  set (q := indicator / stage).
  destruct (Js.gtb stage 0);
    unfold Qdiv; change (/ 2) with (1#2); js_cases; lra.
Qed.

Lemma clampFocusToStage_unit g f d : unitFocus (clampFocusToStage g f d).
Proof.
  destruct (notReady g) eqn:E.
  - unfold clampFocusToStage. rewrite E. unfold clampFocusToDepth, unitFocus.
    cbn [cx cy]. split; apply clamp_unit.
  - rewrite (clampFocusToStage_axes g f d E). unfold unitFocus. cbn [cx cy].
    split; apply clampAxisToStage_unit; apply clamp_unit.
Qed.

End StageClamp.

(** X22: [clampFocusToStage] maps every focus into the unit square, whatever
    the stage geometry, and clamping twice is clamping once. *)
Theorem clampFocusToStage_unit_and_idempotent :
  forall (g : PlaybackGeometry.StageGeometry) (focus : ZoomFocus) (depth : ZoomDepth),
    unitFocus (PlaybackGeometry.clampFocusToStage g focus depth)
    /\ focusEq
         (PlaybackGeometry.clampFocusToStage g
            (PlaybackGeometry.clampFocusToStage g focus depth) depth)
         (PlaybackGeometry.clampFocusToStage g focus depth).
Proof.
  intros g f d. split; [apply clampFocusToStage_unit|].
  destruct (PlaybackGeometry.notReady g) eqn:E.
  - unfold PlaybackGeometry.clampFocusToStage. rewrite E.
    unfold clampFocusToDepth, focusEq, clamp. cbn [cx cy].
    split; js_cases; lra.
  - rewrite !(clampFocusToStage_axes g _ d E). unfold focusEq. cbn [cx cy].
    split; apply clampAxisToStage_idempotent; apply clamp_unit.
Qed.

(** ** Playback: the animation state over any run of frames *)

Lemma tickerStep_valid target state :
  (1 <= VideoPlayback.targetScaleFactor target
   /\ VideoPlayback.targetScaleFactor target <= 5)
  /\ unitFocus (VideoPlayback.targetFocus target) ->
  validAnimationState state ->
  validAnimationState (VideoPlayback.tickerStep target state).
Proof.
  intros [[Ht1 Ht5] [[Hx0 Hx1] [Hy0 Hy1]]] [[Hs1 Hs5] [[Hfx0 Hfx1] [Hfy0 Hfy1]]].
  unfold validAnimationState, VideoPlayback.tickerStep.
  cbn [VideoPlayback.scale VideoPlayback.focusX VideoPlayback.focusY].
  split; [|split]; apply smoothComponent_between; assumption.
Qed.

(** X23: starting from the initial state, after any sequence of frames
    (any geometry, region list, time and play state in each) the animation
    state has its scale between 1 and 5 and its focus inside the unit
    square. *)
Theorem runFrames_state_valid :
  forall frames : list PlaybackGeometry.Frame,
    validAnimationState
      (PlaybackGeometry.runFrames frames VideoPlayback.initialState).
Proof.
  intros frames. unfold PlaybackGeometry.runFrames.
  assert (Hinit : validAnimationState VideoPlayback.initialState)
    by (repeat split; discriminate).
  revert Hinit. generalize VideoPlayback.initialState.
  induction frames as [|fr frames IH]; intros state Hvalid; cbn [fold_left];
    [exact Hvalid|].
  apply IH. unfold PlaybackGeometry.tickerFrame. cbv zeta. cbn [fst].
  unfold VideoPlayback.ticker. apply tickerStep_valid; [|exact Hvalid].
  apply tickerTarget_valid. intros f d. apply clampFocusToStage_unit.
Qed.

(** ** Playback: layout, focus indicator and transform *)

Section StageLayout.
Import PlaybackGeometry.

Lemma falsy_positive v : 0 < v -> falsy v = false.
Proof.
  intros H. unfold falsy. destruct (Qeq_bool v 0) eqn:E; [|reflexivity].
  apply Qeq_bool_iff in E. lra.
Qed.

Lemma notReady_positive g :
  0 < stageWidth g -> 0 < stageHeight g -> 0 < videoWidth g -> 0 < videoHeight g ->
  0 < baseScale g -> notReady g = false.
Proof.
  intros H1 H2 H3 H4 H5. unfold notReady.
  rewrite !falsy_positive by assumption. cbn [orb]. now apply leb_false.
Qed.

(** The letterbox scale: the largest scale, at most 1, at which the video
    fits in the allowed part of the container. *)
Lemma letterbox_scale a b vw vh :
  0 < a -> 0 < b -> 0 < vw -> 0 < vh ->
  let s := Js.min (Js.min (a / vw) (b / vh)) 1 in
  (0 < s /\ s <= 1)
  /\ vw * s <= a /\ vh * s <= b
  /\ (s == 1 \/ vw * s == a \/ vh * s == b).
Proof.
  intros Ha Hb Hvw Hvh.
  assert (HA : vw * (a / vw) == a) by (field; lra).
  assert (HB : vh * (b / vh) == b) by (field; lra).
  assert (HApos : 0 < a / vw) by (apply Qlt_shift_div_l; lra).
  assert (HBpos : 0 < b / vh) by (apply Qlt_shift_div_l; lra).
  set (A := a / vw) in *. set (B := b / vh) in *. intros s.
  assert (Hs : (0 < s /\ s <= 1) /\ s <= A /\ s <= B /\ (s == 1 \/ s == A \/ s == B))
    by (subst s; js_cases; repeat split; try lra; auto; right; auto; lra).
  destruct Hs as (Hrange & HsA & HsB & Htight).
  assert (H1 : vw * s <= vw * A) by (apply Qmult_le_l; assumption).
  assert (H2 : vh * s <= vh * B) by (apply Qmult_le_l; assumption).
  split; [exact Hrange|]. split; [lra|]. split; [lra|].
  destruct Htight as [Ht|[Ht|Ht]]; [now left | right; left | right; right];
    rewrite Ht; assumption.
Qed.

Lemma indicator_axis ind stage v :
  0 < stage -> 0 < ind -> 0 <= v -> v <= 1 ->
  let c := clampAxisToStage ind stage v in
  let start := if Js.geb ind stage then (stage - ind) / 2
               else Js.max 0 (Js.min (stage - ind) (c * stage - ind / 2)) in
  (ind < stage ->
   0 <= start /\ start + ind <= stage /\ start + ind / 2 == c * stage)
  /\ (stage <= ind -> start + ind / 2 == stage / 2).
Proof.
  intros Hs Hi Hv0 Hv1 c start. split.
  - intros Hfit.
    assert (Hq : ind / stage * stage == ind) by (field; lra).
    assert (Hq0 : 0 < ind / stage) by (apply Qlt_shift_div_l; lra).
    assert (Hq1 : ind / stage < 1) by (apply Qlt_shift_div_r; lra).
    assert (Hc : (ind / stage) * (1#2) <= c /\ c <= 1 - (ind / stage) * (1#2)).
    { subst c. unfold clampAxisToStage. cbv zeta.
      rewrite (proj2 (ltb_true 0 stage) Hs : Js.gtb stage 0 = true).
      set (q := ind / stage) in *.
      unfold Qdiv. change (/ 2) with (1#2). js_cases; split; lra. }
    destruct Hc as [Hc1 Hc2].
    assert (Hm1 : (ind / stage) * (1#2) * stage <= c * stage)
      by (apply Qmult_le_compat_r; lra).
    assert (Hm2 : c * stage <= (1 - (ind / stage) * (1#2)) * stage)
      by (apply Qmult_le_compat_r; lra).
    assert (He1 : (ind / stage) * (1#2) * stage == ind * (1#2))
      by (rewrite <- Hq at 2; ring).
    assert (He2 : (1 - (ind / stage) * (1#2)) * stage == stage - ind * (1#2))
      by (rewrite <- Hq at 2; ring).
    subst start. unfold Js.geb. rewrite (proj2 (leb_false _ _) Hfit).
    generalize dependent (c * stage). intros cs Hm1 Hm2.
    unfold Qdiv. change (/ 2) with (1#2). js_cases; repeat split; lra.
  - intros Hbig. subst start. unfold Js.geb.
    rewrite (proj2 (leb_true _ _) Hbig).
    unfold Qdiv. change (/ 2) with (1#2). ring.
Qed.

End StageLayout.

(** In exact arithmetic the layout fits the video into 80% of the
    container, tightly in one direction unless the scale is 1, and centres
    it. *)
Lemma layoutVideoContent_exact :
  forall width height videoWidth videoHeight : Q,
    0 < width -> 0 < height -> 0 < videoWidth -> 0 < videoHeight ->
    exists g,
      PlaybackGeometry.layoutVideoContent width height videoWidth videoHeight = Some g
      /\ PlaybackGeometry.notReady g = false
      /\ (0 < PlaybackGeometry.baseScale g /\ PlaybackGeometry.baseScale g <= 1)
      /\ videoWidth * PlaybackGeometry.baseScale g <= width * (8#10)
      /\ videoHeight * PlaybackGeometry.baseScale g <= height * (8#10)
      /\ (PlaybackGeometry.baseScale g == 1
          \/ videoWidth * PlaybackGeometry.baseScale g == width * (8#10)
          \/ videoHeight * PlaybackGeometry.baseScale g == height * (8#10))
      /\ 2 * PlaybackGeometry.baseOffsetX g
           + videoWidth * PlaybackGeometry.baseScale g == width
      /\ 2 * PlaybackGeometry.baseOffsetY g
           + videoHeight * PlaybackGeometry.baseScale g == height.
Proof.
  intros w h vw vh Hw Hh Hvw Hvh.
  unfold PlaybackGeometry.layoutVideoContent.
  rewrite !falsy_positive by assumption. cbn [orb]. cbv zeta.
  eexists. split; [reflexivity|].
  unfold PlaybackGeometry.VIEWPORT_SCALE.
  destruct (letterbox_scale (w * (8#10)) (h * (8#10)) vw vh)
    as ((Hs0 & Hs1) & Hfw & Hfh & Htight); try lra.
  cbv zeta in Hs0, Hs1, Hfw, Hfh, Htight.
  split; [apply notReady_positive; cbn; assumption|].
  cbn [PlaybackGeometry.baseScale PlaybackGeometry.baseOffsetX
       PlaybackGeometry.baseOffsetY].
  split; [split; assumption|]. split; [exact Hfw|]. split; [exact Hfh|].
  split; [exact Htight|].
  split; field.
Qed.

(** X24: for a container and a video of positive size, [layoutVideoContent]
    stores a ready geometry whose base scale is positive and at most 1; up
    to the rounding slack, relative to the container, the displayed video
    takes at most 80% of the container in each direction, reaches 80% in one
    of them unless it is shown at its natural size, and is centred. *)
Theorem layoutVideoContent_fits :
  forall width height videoWidth videoHeight : Q,
    0 < width -> 0 < height -> 0 < videoWidth -> 0 < videoHeight ->
    exists g,
      PlaybackGeometry.layoutVideoContent width height videoWidth videoHeight = Some g
      /\ PlaybackGeometry.notReady g = false
      /\ (0 < PlaybackGeometry.baseScale g /\ PlaybackGeometry.baseScale g <= 1)
      /\ atMostUpTo width (videoWidth * PlaybackGeometry.baseScale g) (width * (8#10))
      /\ atMostUpTo height (videoHeight * PlaybackGeometry.baseScale g) (height * (8#10))
      /\ (PlaybackGeometry.baseScale g == 1
          \/ atMostUpTo width (width * (8#10)) (videoWidth * PlaybackGeometry.baseScale g)
          \/ atMostUpTo height (height * (8#10))
               (videoHeight * PlaybackGeometry.baseScale g))
      /\ closeTo width
           (2 * PlaybackGeometry.baseOffsetX g
            + videoWidth * PlaybackGeometry.baseScale g) width
      /\ closeTo height
           (2 * PlaybackGeometry.baseOffsetY g
            + videoHeight * PlaybackGeometry.baseScale g) height.
Proof.
  intros w h vw vh Hw Hh Hvw Hvh.
  destruct (layoutVideoContent_exact w h vw vh Hw Hh Hvw Hvh)
    as (g & Hg & Hready & Hscale & Hfw & Hfh & Htight & Hcx & Hcy).
  exists g. split; [exact Hg|]. split; [exact Hready|]. split; [exact Hscale|].
  split; [apply atMostUpTo_le; lra|]. split; [apply atMostUpTo_le; lra|].
  split.
  - destruct Htight as [H|[H|H]]; [now left | right; left | right; right];
      apply atMostUpTo_le; lra.
  - split; apply closeTo_eq; (lra || assumption).
Qed.

Lemma layoutVideoContent_fits_witness :
  exists g,
    PlaybackGeometry.layoutVideoContent 1000 500 1920 1080 = Some g
    /\ PlaybackGeometry.notReady g = false
    /\ (0 < PlaybackGeometry.baseScale g /\ PlaybackGeometry.baseScale g <= 1)
    /\ atMostUpTo 1000 (1920 * PlaybackGeometry.baseScale g) (1000 * (8#10))
    /\ atMostUpTo 500 (1080 * PlaybackGeometry.baseScale g) (500 * (8#10))
    /\ (PlaybackGeometry.baseScale g == 1
        \/ atMostUpTo 1000 (1000 * (8#10)) (1920 * PlaybackGeometry.baseScale g)
        \/ atMostUpTo 500 (500 * (8#10)) (1080 * PlaybackGeometry.baseScale g))
    /\ closeTo 1000
         (2 * PlaybackGeometry.baseOffsetX g + 1920 * PlaybackGeometry.baseScale g)
         1000
    /\ closeTo 500
         (2 * PlaybackGeometry.baseOffsetY g + 1080 * PlaybackGeometry.baseScale g)
         500.
Proof.
  apply (layoutVideoContent_fits 1000 500 1920 1080); reflexivity.
Defined.

(** In exact arithmetic the indicator lies inside the stage, centred on
    the clamped focus, or is centred on the stage when it is too wide. *)
Lemma updateOverlayForRegion_exact :
  forall (g : PlaybackGeometry.StageGeometry) (clientWidth clientHeight : Q)
         (region : ZoomRegion) (focusOverride : option ZoomFocus),
    0 < clientWidth -> 0 < clientHeight ->
    0 < PlaybackGeometry.videoWidth g -> 0 < PlaybackGeometry.videoHeight g ->
    0 < PlaybackGeometry.baseScale g ->
    let f :=
      PlaybackGeometry.clampFocusToStage
        (PlaybackGeometry.mkGeometry clientWidth clientHeight
           (PlaybackGeometry.videoWidth g) (PlaybackGeometry.videoHeight g)
           (PlaybackGeometry.baseScale g)
           (PlaybackGeometry.baseOffsetX g) (PlaybackGeometry.baseOffsetY g))
        (match focusOverride with Some o => o | None => focus region end)
        (depth region) in
    exists rect,
      PlaybackGeometry.updateOverlayForRegion g clientWidth clientHeight
        (Some region) focusOverride = Some rect
      /\ (PlaybackGeometry.indicatorWidth rect < clientWidth ->
          0 <= PlaybackGeometry.left rect
          /\ PlaybackGeometry.left rect + PlaybackGeometry.indicatorWidth rect
             <= clientWidth
          /\ PlaybackGeometry.left rect + PlaybackGeometry.indicatorWidth rect / 2
             == cx f * clientWidth)
      /\ (clientWidth <= PlaybackGeometry.indicatorWidth rect ->
          PlaybackGeometry.left rect + PlaybackGeometry.indicatorWidth rect / 2
          == clientWidth / 2)
      /\ (PlaybackGeometry.indicatorHeight rect < clientHeight ->
          0 <= PlaybackGeometry.top rect
          /\ PlaybackGeometry.top rect + PlaybackGeometry.indicatorHeight rect
             <= clientHeight
          /\ PlaybackGeometry.top rect + PlaybackGeometry.indicatorHeight rect / 2
             == cy f * clientHeight)
      /\ (clientHeight <= PlaybackGeometry.indicatorHeight rect ->
          PlaybackGeometry.top rect + PlaybackGeometry.indicatorHeight rect / 2
          == clientHeight / 2).
Proof.
  intros g cw ch region override Hcw Hch Hvw Hvh Hbs f.
  unfold PlaybackGeometry.updateOverlayForRegion. cbv zeta.
  rewrite !falsy_positive by assumption. cbn [orb].
  rewrite (proj2 (leb_false _ _) Hbs).
  eexists. split; [reflexivity|].
  cbn [PlaybackGeometry.left PlaybackGeometry.top
       PlaybackGeometry.indicatorWidth PlaybackGeometry.indicatorHeight].
  fold f.
  assert (Hready : PlaybackGeometry.notReady
                     (PlaybackGeometry.mkGeometry cw ch
                        (PlaybackGeometry.videoWidth g) (PlaybackGeometry.videoHeight g)
                        (PlaybackGeometry.baseScale g)
                        (PlaybackGeometry.baseOffsetX g)
                        (PlaybackGeometry.baseOffsetY g)) = false)
    by (apply notReady_positive; assumption).
  destruct (ZOOM_DEPTH_SCALES_range (depth region)) as [Hz _].
  assert (Hiw : 0 < PlaybackGeometry.videoWidth g / ZOOM_DEPTH_SCALES (depth region)
                    * PlaybackGeometry.baseScale g).
  { apply Qmult_lt_0_compat; [|exact Hbs]. apply Qlt_shift_div_l; lra. }
  assert (Hih : 0 < PlaybackGeometry.videoHeight g / ZOOM_DEPTH_SCALES (depth region)
                    * PlaybackGeometry.baseScale g).
  { apply Qmult_lt_0_compat; [|exact Hbs]. apply Qlt_shift_div_l; lra. }
  subst f. rewrite (clampFocusToStage_axes _ _ _ Hready).
  cbn [cx cy PlaybackGeometry.stageWidth PlaybackGeometry.stageHeight
       PlaybackGeometry.videoWidth PlaybackGeometry.videoHeight
       PlaybackGeometry.baseScale].
  set (v := match override with Some o => o | None => focus region end).
  destruct (clamp_unit (cx v)) as [Hx0 Hx1]. destruct (clamp_unit (cy v)) as [Hy0 Hy1].
  destruct (indicator_axis _ cw (clamp (cx v) 0 1) Hcw Hiw Hx0 Hx1) as [Hxa Hxb].
  destruct (indicator_axis _ ch (clamp (cy v) 0 1) Hch Hih Hy0 Hy1) as [Hya Hyb].
  cbv zeta in Hxa, Hxb, Hya, Hyb.
  split; [exact Hxa|]. split; [exact Hxb|]. split; [exact Hya | exact Hyb].
Qed.

(** X25: with an overlay, a video and a base scale of positive size, the
    focus indicator of a region is shown; along each axis, when it is
    narrower than the stage it starts inside the stage and, up to the
    rounding slack relative to the stage, ends inside it and is centred on
    the clamped focus; otherwise it is centred on the stage, up to the slack
    relative to its own size. *)
Theorem updateOverlayForRegion_indicator_inside :
  forall (g : PlaybackGeometry.StageGeometry) (clientWidth clientHeight : Q)
         (region : ZoomRegion) (focusOverride : option ZoomFocus),
    0 < clientWidth -> 0 < clientHeight ->
    0 < PlaybackGeometry.videoWidth g -> 0 < PlaybackGeometry.videoHeight g ->
    0 < PlaybackGeometry.baseScale g ->
    let f :=
      PlaybackGeometry.clampFocusToStage
        (PlaybackGeometry.mkGeometry clientWidth clientHeight
           (PlaybackGeometry.videoWidth g) (PlaybackGeometry.videoHeight g)
           (PlaybackGeometry.baseScale g)
           (PlaybackGeometry.baseOffsetX g) (PlaybackGeometry.baseOffsetY g))
        (match focusOverride with Some o => o | None => focus region end)
        (depth region) in
    exists rect,
      PlaybackGeometry.updateOverlayForRegion g clientWidth clientHeight
        (Some region) focusOverride = Some rect
      /\ (PlaybackGeometry.indicatorWidth rect < clientWidth ->
          0 <= PlaybackGeometry.left rect
          /\ atMostUpTo clientWidth
               (PlaybackGeometry.left rect + PlaybackGeometry.indicatorWidth rect)
               clientWidth
          /\ closeTo clientWidth
               (PlaybackGeometry.left rect + PlaybackGeometry.indicatorWidth rect / 2)
               (cx f * clientWidth))
      /\ (clientWidth <= PlaybackGeometry.indicatorWidth rect ->
          closeTo (PlaybackGeometry.indicatorWidth rect)
            (PlaybackGeometry.left rect + PlaybackGeometry.indicatorWidth rect / 2)
            (clientWidth / 2))
      /\ (PlaybackGeometry.indicatorHeight rect < clientHeight ->
          0 <= PlaybackGeometry.top rect
          /\ atMostUpTo clientHeight
               (PlaybackGeometry.top rect + PlaybackGeometry.indicatorHeight rect)
               clientHeight
          /\ closeTo clientHeight
               (PlaybackGeometry.top rect + PlaybackGeometry.indicatorHeight rect / 2)
               (cy f * clientHeight))
      /\ (clientHeight <= PlaybackGeometry.indicatorHeight rect ->
          closeTo (PlaybackGeometry.indicatorHeight rect)
            (PlaybackGeometry.top rect + PlaybackGeometry.indicatorHeight rect / 2)
            (clientHeight / 2)).
Proof.
  intros g cw ch region override Hcw Hch Hvw Hvh Hbs f.
  destruct (updateOverlayForRegion_exact g cw ch region override
              Hcw Hch Hvw Hvh Hbs) as (rect & Hrect & Hx & Hxb & Hy & Hyb).
  fold f in Hx, Hy.
  exists rect. split; [exact Hrect|].
  split; [|split; [|split]].
  - intros Hn. destruct (Hx Hn) as (H1 & H2 & H3).
    split; [exact H1|].
    split; [apply atMostUpTo_le; lra | apply closeTo_eq; (lra || assumption)].
  - intros Hn. apply closeTo_eq; [lra | exact (Hxb Hn)].
  - intros Hn. destruct (Hy Hn) as (H1 & H2 & H3).
    split; [exact H1|].
    split; [apply atMostUpTo_le; lra | apply closeTo_eq; (lra || assumption)].
  - intros Hn. apply closeTo_eq; [lra | exact (Hyb Hn)].
Qed.

Lemma updateOverlayForRegion_indicator_inside_witness :
  let g := PlaybackGeometry.mkGeometry 1000 500 1920 1080 (5#12) 100 25 in
  let region := mkRegion "r" 0 2000 Depth3 (mkFocus (1#20) (1#2)) None in
  exists rect,
    PlaybackGeometry.updateOverlayForRegion g 1000 500 (Some region) None = Some rect
    /\ 0 <= PlaybackGeometry.left rect
    /\ atMostUpTo 1000
         (PlaybackGeometry.left rect + PlaybackGeometry.indicatorWidth rect) 1000.
Proof.
  intros g region.
  destruct (updateOverlayForRegion_indicator_inside g 1000 500 region None)
    as (rect & Hrect & Hx & _); try reflexivity.
  exists rect. split; [exact Hrect|].
  assert (Hw : PlaybackGeometry.indicatorWidth rect < 1000).
  { vm_compute in Hrect. injection Hrect as <-. reflexivity. }
  destruct (Hx Hw) as (H1 & H2 & _). split; assumption.
Defined.

(** X26: whenever [applyTransform] acts, the blur it sets is between 0 and
    6 and is 0 while playback is paused; and in the initial animation state
    (scale 1, focus at the centre) the video keeps the scale and the
    position of the base layout. *)
Theorem applyTransform_blur_and_rest :
  forall (g : PlaybackGeometry.StageGeometry) (state : VideoPlayback.AnimationState)
         (isPlaying : bool) (motion : Q) (t : PlaybackGeometry.Transform),
    PlaybackGeometry.applyTransform g state isPlaying motion = Some t ->
    (0 <= PlaybackGeometry.blur t /\ PlaybackGeometry.blur t <= 6)
    /\ (isPlaying = false -> PlaybackGeometry.blur t = 0)
    /\ (state = VideoPlayback.initialState ->
        PlaybackGeometry.actualScale t == PlaybackGeometry.baseScale g
        /\ PlaybackGeometry.positionX t == PlaybackGeometry.baseOffsetX g
        /\ PlaybackGeometry.positionY t == PlaybackGeometry.baseOffsetY g).
Proof.
  intros g state playing motion t H.
  unfold PlaybackGeometry.applyTransform in H.
  destruct (PlaybackGeometry.notReady g); [discriminate|].
  cbv zeta in H. injection H as <-.
  cbn [PlaybackGeometry.blur PlaybackGeometry.actualScale
       PlaybackGeometry.positionX PlaybackGeometry.positionY].
  split; [|split].
  - destruct playing; cbn [andb]; [|split; discriminate].
    destruct (Js.gtb motion (5#10000)) eqn:E; [|split; discriminate].
    unfold Js.gtb in E. apply ltb_true in E. js_cases; split; lra.
  - intros ->. reflexivity.
  - intros ->. cbn. repeat split; field.
Qed.

Lemma applyTransform_blur_and_rest_witness :
  let g := PlaybackGeometry.mkGeometry 1000 500 1920 1080 (5#12) 100 25 in
  exists t,
    PlaybackGeometry.applyTransform g VideoPlayback.initialState true (1#100) = Some t
    /\ (0 <= PlaybackGeometry.blur t /\ PlaybackGeometry.blur t <= 6)
    /\ PlaybackGeometry.actualScale t == 5#12
    /\ PlaybackGeometry.positionX t == 100
    /\ PlaybackGeometry.positionY t == 25.
Proof.
  intros g. eexists. split; [reflexivity|].
  destruct (applyTransform_blur_and_rest g VideoPlayback.initialState true (1#100)
              _ eq_refl) as (Hb & _ & Hrest).
  split; [exact Hb|]. exact (Hrest eq_refl).
Defined.

(** ** The mouse tracker *)

Section TrackerFacts.
Import MouseTracker.

Variable getDisplayBoundsForSource : string -> DisplayBounds.

(** Normalized coordinates are in the unit square before [start], and after
    it for every display of positive size. *)
Lemma normalizeCoordinates_unit bounds x y :
  (forall b, bounds = Some b -> 0 < width b /\ 0 < height b) ->
  let n := normalizeCoordinates bounds x y in
  (0 <= normX n /\ normX n <= 1) /\ (0 <= normY n /\ normY n <= 1).
Proof.
  intros Hb. destruct bounds as [b|]; cbn.
  - destruct (Hb b eq_refl) as [Hw Hh].
    split; apply unit_quotient; trivial; js_cases; lra.
  - repeat split; discriminate.
Qed.

Lemma step_sound st i :
  (forall id, 0 < width (getDisplayBoundsForSource id)
              /\ 0 < height (getDisplayBoundsForSource id)) ->
  trackerSound st -> trackerSound (step getDisplayBoundsForSource st i).
Proof.
  intros Hpos [Hev Hb]. unfold trackerSound.
  assert (Hpush : forall ty ts x y button delta,
             Forall unitEvent
               (events st ++
                  [mkEvent ty ts x y
                     (normX (normalizeCoordinates (displayBounds st) x y))
                     (normY (normalizeCoordinates (displayBounds st) x y))
                     button delta])).
  { intros ty ts x' y' button' delta'.
    apply Forall_app. split; [exact Hev|]. constructor; [|constructor].
    exact (normalizeCoordinates_unit (displayBounds st) x' y' Hb). }
  destruct i as [cfg| |now stampNow x y|stampNow x y button|stampNow x y rotation];
    cbn [step].
  - unfold start. destruct (isTracking st); [now split|].
    cbn [events displayBounds]. split; [constructor|].
    intros b Heq. injection Heq as <-. apply Hpos.
  - unfold stop. destruct (isTracking st); cbn [negb fst]; [|now split].
    cbn [events displayBounds]. split; [constructor | discriminate].
  - unfold handleMouseMove. destruct (config st); [|now split].
    destruct (isTracking st); cbn [negb]; [|now split].
    destruct (Js.ltb _ _); [now split|].
    cbv zeta. cbn [fst events displayBounds]. split; [apply Hpush | exact Hb].
  - unfold handleMouseDown. destruct (config st); [|now split].
    destruct (isTracking st); cbn [negb]; [|now split].
    cbv zeta. cbn [fst events displayBounds]. split; [apply Hpush | exact Hb].
  - unfold handleWheel. destruct (config st); [|now split].
    destruct (isTracking st); cbn [negb]; [|now split].
    cbv zeta. cbn [fst events displayBounds]. split; [apply Hpush | exact Hb].
Qed.

Lemma run_sound inputs :
  (forall id, 0 < width (getDisplayBoundsForSource id)
              /\ 0 < height (getDisplayBoundsForSource id)) ->
  forall st, trackerSound st -> trackerSound (run getDisplayBoundsForSource inputs st).
Proof.
  intros Hpos. unfold run.
  induction inputs as [|i inputs IH]; intros st Hs; cbn [fold_left]; [exact Hs|].
  apply IH. now apply step_sound.
Qed.

(** A running tracker stays running, with the same configuration, through
    hook events, and records every mouse-down and every wheel event. *)
Lemma run_hook_events cfg inputs :
  Forall (fun i => isHookEvent i = true) inputs ->
  forall st,
    isTracking st = true -> config st = Some cfg ->
    let st' := run getDisplayBoundsForSource inputs st in
    isTracking st' = true /\ config st' = Some cfg
    /\ map timestamp (filter isClickEvent (events st'))
       = map timestamp (filter isClickEvent (events st))
         ++ map (fun s => s - recordingStartTime cfg) (downStamps inputs)
    /\ map timestamp (filter isScrollEvent (events st'))
       = map timestamp (filter isScrollEvent (events st))
         ++ map (fun s => s - recordingStartTime cfg) (wheelStamps inputs).
Proof.
  unfold run. induction 1 as [|i inputs Hi _ IH]; intros st Ht Hc; cbn [fold_left].
  - cbn. rewrite !app_nil_r. auto.
  - destruct i as [?| |now stampNow x y|stampNow x y button|stampNow x y rotation];
      try discriminate Hi; cbn [step].
    + unfold handleMouseMove. rewrite Hc, Ht. cbn [negb].
      destruct (Js.ltb _ _); cbn [fst].
      * destruct (IH st Ht Hc) as (H1 & H2 & H3 & H4). cbn [downStamps wheelStamps flat_map app].
        auto.
      * cbv zeta.
        match goal with
        | |- context [fold_left _ inputs ?s] =>
            destruct (IH s) as (H1 & H2 & H3 & H4);
            [reflexivity | cbn [config]; first [reflexivity | exact Hc] |]
        end.
        cbn [events] in H3, H4.
        rewrite filter_app in H3, H4. cbn [filter isClickEvent isScrollEvent type] in H3, H4.
        rewrite app_nil_r in H3, H4.
        cbn [downStamps wheelStamps flat_map app]. auto.
    + unfold handleMouseDown. rewrite Hc, Ht. cbn [negb fst]. cbv zeta.
      unfold getTimestamp. rewrite Hc.
      match goal with
      | |- context [fold_left _ inputs ?s] =>
          destruct (IH s) as (H1 & H2 & H3 & H4);
            [reflexivity | cbn [config]; first [reflexivity | exact Hc] |]
      end.
      cbn [events] in H3, H4.
      rewrite filter_app in H3, H4. cbn [filter isClickEvent isScrollEvent type] in H3, H4.
      rewrite app_nil_r in H4. rewrite map_app in H3. cbn [map timestamp] in H3.
      cbn [downStamps wheelStamps flat_map app map].
      rewrite <- app_assoc in H3. auto.
    + unfold handleWheel. rewrite Hc, Ht. cbn [negb fst]. cbv zeta.
      unfold getTimestamp. rewrite Hc.
      match goal with
      | |- context [fold_left _ inputs ?s] =>
          destruct (IH s) as (H1 & H2 & H3 & H4);
            [reflexivity | cbn [config]; first [reflexivity | exact Hc] |]
      end.
      cbn [events] in H3, H4.
      rewrite filter_app in H3, H4. cbn [filter isClickEvent isScrollEvent type] in H3, H4.
      rewrite app_nil_r in H3. rewrite map_app in H4. cbn [map timestamp] in H4.
      cbn [downStamps wheelStamps flat_map app map].
      rewrite <- app_assoc in H4. auto.
Qed.

End TrackerFacts.

(** X27: when every display has positive width and height, then after any
    sequence of [start] and [stop] calls and hook events, every event in the
    tracker's buffer, and so every event [stop] returns, has its normalized
    coordinates in the unit square. *)
Theorem tracker_events_in_unit_square :
  forall (getDisplayBoundsForSource : string -> DisplayBounds)
         (inputs : list MouseTracker.Input),
    (forall id, 0 < width (getDisplayBoundsForSource id)
                /\ 0 < height (getDisplayBoundsForSource id)) ->
    let st := MouseTracker.run getDisplayBoundsForSource inputs
                MouseTracker.initialTracker in
    Forall unitEvent (MouseTracker.getEvents st)
    /\ Forall unitEvent (snd (MouseTracker.stop st)).
Proof.
  intros resolve inputs Hpos st.
  assert (Hs : Forall unitEvent (MouseTracker.events st)).
  { apply (run_sound resolve inputs Hpos MouseTracker.initialTracker).
    split; [constructor | discriminate]. }
  split; [exact Hs|].
  unfold MouseTracker.stop. destruct (MouseTracker.isTracking st); cbn [negb snd];
    [exact Hs | constructor].
Qed.

Lemma tracker_events_in_unit_square_witness :
  let resolve := fun _ : string => mkBounds 0 0 1920 1080 in
  let inputs :=
    [MouseTracker.CallStart (MouseTracker.mkTrackerConfig "screen:0:0" 1000 true);
     MouseTracker.MouseMove 1010 1010 (-30) 500;
     MouseTracker.MouseDown 1020 4000 200 (Some 1%Z);
     MouseTracker.Wheel 1030 100 9000 3] in
  let st := MouseTracker.run resolve inputs MouseTracker.initialTracker in
  Forall unitEvent (MouseTracker.getEvents st)
  /\ Forall unitEvent (snd (MouseTracker.stop st)).
Proof.
  intros resolve inputs.
  apply (tracker_events_in_unit_square resolve inputs).
  intros id. split; reflexivity.
Defined.

(** X28: between [start] on an idle tracker and [stop], mouse-down and
    wheel events are never dropped: the clicks (and the scrolls) [stop]
    returns are, in order, one per mouse-down (per wheel) event, stamped with
    the clock value read minus the recording start time.  Only moves are
    throttled. *)
Theorem tracker_records_every_click_and_scroll :
  forall (getDisplayBoundsForSource : string -> DisplayBounds)
         (cfg : MouseTracker.MouseTrackerConfig) (st0 : MouseTracker.TrackerState)
         (inputs : list MouseTracker.Input),
    MouseTracker.isTracking st0 = false ->
    Forall (fun i => MouseTracker.isHookEvent i = true) inputs ->
    let st := MouseTracker.run getDisplayBoundsForSource inputs
                (MouseTracker.start getDisplayBoundsForSource cfg st0) in
    let captured := snd (MouseTracker.stop st) in
    map timestamp (filter isClickEvent captured)
    = map (fun s => s - MouseTracker.recordingStartTime cfg)
          (MouseTracker.downStamps inputs)
    /\ map timestamp (filter isScrollEvent captured)
       = map (fun s => s - MouseTracker.recordingStartTime cfg)
             (MouseTracker.wheelStamps inputs).
Proof.
  intros resolve cfg st0 inputs Hidle Hhook st captured.
  destruct (run_hook_events resolve cfg inputs Hhook
              (MouseTracker.start resolve cfg st0))
    as (Ht & _ & Hc & Hw).
  - unfold MouseTracker.start. now rewrite Hidle.
  - unfold MouseTracker.start. now rewrite Hidle.
  - fold st in Ht, Hc, Hw. subst captured.
    unfold MouseTracker.stop. rewrite Ht. cbn [negb snd].
    rewrite Hc, Hw. unfold MouseTracker.start. rewrite Hidle.
    cbn [MouseTracker.events filter map app]. split; reflexivity.
Qed.

Lemma tracker_records_every_click_and_scroll_witness :
  let resolve := fun _ : string => mkBounds 0 0 1920 1080 in
  let cfg := MouseTracker.mkTrackerConfig "screen:0:0" 1000 false in
  let inputs :=
    [MouseTracker.MouseDown 1001 10 10 (Some 1%Z);
     MouseTracker.MouseMove 1002 1002 20 20;
     MouseTracker.MouseDown 1003 30 30 None;
     MouseTracker.Wheel 1004 30 30 (-3)] in
  let st := MouseTracker.run resolve inputs
              (MouseTracker.start resolve cfg MouseTracker.initialTracker) in
  let captured := snd (MouseTracker.stop st) in
  map timestamp (filter isClickEvent captured)
  = map (fun s => s - 1000) [1001; 1003]
  /\ map timestamp (filter isScrollEvent captured) = map (fun s => s - 1000) [1004].
Proof.
  intros resolve cfg inputs.
  apply (tracker_records_every_click_and_scroll resolve cfg
           MouseTracker.initialTracker inputs).
  - reflexivity.
  - repeat constructor.
Defined.

(** ** The cursor-event file name *)

Lemma string_length_append a b :
  String.length (a ++ b) = (String.length a + String.length b)%nat.
Proof. induction a as [|c a IH]; cbn; [reflexivity | now rewrite IH]. Qed.

Lemma cursorEventsFileName_extension base ext :
  ext = ".webm"%string \/ ext = ".mp4"%string ->
  cursorEventsFileName (base ++ ext) = (base ++ "-cursor-events.json")%string.
Proof.
  intros Hext. induction base as [|c base IH].
  - destruct Hext as [->| ->]; reflexivity.
  - cbn [String.append]. cbn [cursorEventsFileName].
    assert (Hne : (String.eqb (String c (base ++ ext)) ".webm"
                   || String.eqb (String c (base ++ ext)) ".mp4")%bool = false).
    { apply orb_false_iff. split; apply String.eqb_neq; intros Heq.
      - destruct Hext as [->| ->].
        + apply (f_equal String.length) in Heq. cbn [String.length] in Heq.
          rewrite string_length_append in Heq. cbn [String.length] in Heq. lia.
        + destruct base as [|c' base]; [discriminate Heq|].
          apply (f_equal String.length) in Heq.
          cbn [String.length String.append] in Heq.
          rewrite string_length_append in Heq. cbn [String.length] in Heq. lia.
      - apply (f_equal String.length) in Heq. cbn [String.length] in Heq.
        rewrite string_length_append in Heq.
        destruct Hext as [->| ->]; cbn [String.length] in Heq; lia. }
    rewrite Hne. now rewrite IH.
Qed.

(** X29: for a name ending in [.webm] or [.mp4] the cursor-event file name
    is the name with that ending replaced by [-cursor-events.json]; the
    replacement commutes with putting a directory in front (the path loaded
    is the path stored), and the two endings give the same file. *)
Theorem cursorEventsFileName_spec :
  forall (dir base ext : string),
    ext = ".webm"%string \/ ext = ".mp4"%string ->
    cursorEventsFileName (base ++ ext) = (base ++ "-cursor-events.json")%string
    /\ cursorEventsFileName (dir ++ (base ++ ext))
       = (dir ++ cursorEventsFileName (base ++ ext))%string
    /\ cursorEventsFileName (base ++ ".webm") = cursorEventsFileName (base ++ ".mp4").
Proof.
  intros dir base ext Hext. split; [|split].
  - now apply cursorEventsFileName_extension.
  - rewrite (cursorEventsFileName_extension base ext Hext).
    assert (Happ : forall a b c : string, (a ++ (b ++ c) = (a ++ b) ++ c)%string).
    { intros a b c. induction a as [|x a IH]; cbn; [reflexivity | now rewrite IH]. }
    rewrite !Happ. now apply cursorEventsFileName_extension.
  - rewrite !cursorEventsFileName_extension by auto. reflexivity.
Qed.

Lemma cursorEventsFileName_spec_witness :
  cursorEventsFileName ("recording-17.webm")
  = "recording-17-cursor-events.json"%string
  /\ cursorEventsFileName ("/data/recordings/" ++ "recording-17.webm")
     = ("/data/recordings/" ++ cursorEventsFileName "recording-17.webm")%string
  /\ cursorEventsFileName "recording-17.webm" = cursorEventsFileName "recording-17.mp4".
Proof.
  apply (cursorEventsFileName_spec "/data/recordings/" "recording-17" ".webm").
  now left.
Defined.

(** X30: a name that ends neither in [.webm] nor in [.mp4] is returned
    unchanged: for such a video (the file picker also offers mov, avi and
    mkv) the cursor-event path is the path of the video itself. *)
Theorem cursorEventsFileName_other_extension :
  forall name : string,
    (forall base ext,
        ext = ".webm"%string \/ ext = ".mp4"%string -> name <> (base ++ ext)%string) ->
    cursorEventsFileName name = name.
Proof.
  induction name as [|c rest IH]; intros Hno; [reflexivity|].
  cbn [cursorEventsFileName].
  assert (Hne : (String.eqb (String c rest) ".webm"
                 || String.eqb (String c rest) ".mp4")%bool = false).
  { apply orb_false_iff. split; apply String.eqb_neq; intros Heq.
    - apply (Hno EmptyString ".webm"%string); [now left | exact Heq].
    - apply (Hno EmptyString ".mp4"%string); [now right | exact Heq]. }
  rewrite Hne. f_equal. apply IH.
  intros base ext Hext Heq. apply (Hno (String c base) ext Hext).
  cbn [String.append]. now rewrite Heq.
Qed.

Lemma cursorEventsFileName_other_extension_witness :
  cursorEventsFileName "clip.mov" = "clip.mov"%string.
Proof.
  apply (cursorEventsFileName_other_extension "clip.mov").
  intros base ext Hext Heq.
  assert (Hlen : String.length "clip.mov" = String.length (base ++ ext))
    by now rewrite <- Heq.
  rewrite string_length_append in Hlen.
  destruct Hext as [->| ->]; cbn [String.length] in Hlen.
  - do 4 (destruct base as [|? base]; [discriminate Heq | cbn in Hlen]); lia.
  - do 5 (destruct base as [|? base]; [discriminate Heq | cbn in Hlen]); lia.
Defined.
